(** * WMD Player: playback-order engine and IndexedDB storage layer

    A shallow embedding of [src/app.js] (the functions [loadTrack],
    [playTrack], [playNext], [playPrevious], [toggleShuffle] and
    [generateShuffledOrder], which act on the global [state] object) and of
    [src/storage.js] ([savePlaylist], [loadPlaylist], [deletePlaylist],
    [savePreferences], [loadPreferences], which act on an IndexedDB
    database through transactions).

    The global [state] object becomes a record threaded through every
    function; a JavaScript exception becomes the [Throw] result; the
    IndexedDB database becomes a record of its three object stores and two
    key generators, and a transaction a queue of write requests that
    either all apply or are rolled back.  What the code reads from its
    environment is an explicit argument: the values of [Math.random()],
    the playback position of the audio element, the clock, and which
    storage requests fail.

    Around these, the rest of the application: [getAllPlaylists] of
    [src/storage.js], and of [src/app.js] the functions [loadFiles],
    [cleanTrackName], [handleTrackEnded], [toggleMute],
    [initializeStorage], [saveCurrentPlaylist], [loadSavedPlaylist] and
    [deleteSavedPlaylist], which act on the state and on the database
    together.  The answers of [prompt] and [confirm], the collation of
    [localeCompare], the object URLs and the time value of a date are
    arguments as well. *)

From Stdlib Require Import QArith.
From stdpp Require Import base numbers list strings gmap sorting.

Close Scope Q_scope.
Local Open Scope Z_scope.

(** ** JavaScript numbers and values, as far as the player uses them *)

Module JS.

(** Every number the order logic computes is an array index, a length, an
    [indexOf] result, or the result of [+], [-] and [%] on those: an
    integer or [NaN].  Negative zero is identified with zero: it compares,
    indexes an array and matches in [indexOf] exactly as zero does. *)
Inductive number := Int (z : Z) | NaN.

Inductive value := Undefined | Num (x : number).

#[global] Instance number_eq_dec : EqDecision number.
Proof. solve_decision. Defined.
#[global] Instance value_eq_dec : EqDecision value.
Proof. solve_decision. Defined.

(** [ToNumber]: [undefined] converts to [NaN]. *)
Definition to_number (v : value) : number :=
  match v with Undefined => NaN | Num x => x end.

Definition add (x y : number) : number :=
  match x, y with Int a, Int b => Int (a + b) | _, _ => NaN end.

Definition sub (x y : number) : number :=
  match x, y with Int a, Int b => Int (a - b) | _, _ => NaN end.

(** [x % y]: the remainder takes the sign of the dividend; [x % 0] is [NaN]. *)
Definition rem (x y : number) : number :=
  match x, y with
  | Int a, Int b => if b =? 0 then NaN else Int (Z.rem a b)
  | _, _ => NaN
  end.

(** Comparisons: any comparison with [NaN] is false. *)
Definition lt (x y : number) : bool :=
  match x, y with Int a, Int b => a <? b | _, _ => false end.

Definition ge (x y : number) : bool :=
  match x, y with Int a, Int b => b <=? a | _, _ => false end.

(** [arr[k]]: an element for an integer key inside the array, [undefined]
    ([None]) for every other key. *)
Definition get {A : Type} (arr : list A) (k : value) : option A :=
  match k with
  | Num (Int z) => if z <? 0 then None else arr !! Z.to_nat z
  | _ => None
  end.

(** Position of the first occurrence of [k] in [arr], counted from [pos]. *)
Fixpoint find_from (arr : list nat) (k : nat) (pos : Z) : Z :=
  match arr with
  | [] => -1
  | x :: rest => if decide (x = k) then pos else find_from rest k (pos + 1)
  end.

(** [arr.indexOf(v)] on an array of indices: strict equality, so [NaN],
    [undefined] and negative numbers are never found. *)
Definition indexOf (arr : list nat) (v : value) : number :=
  match v with
  | Num (Int z) => if z <? 0 then Int (-1) else Int (find_from arr (Z.to_nat z) 0)
  | _ => Int (-1)
  end.

(** Reading an entry of an array of indices as a value. *)
Definition get_index (arr : list nat) (k : number) : value :=
  match get arr (Num k) with
  | Some e => Num (Int (Z.of_nat e))
  | None => Undefined
  end.

End JS.

(** ** Files and blobs *)

(** A [Blob]: its bytes and its MIME type; [size] is the number of bytes. *)
Record Blob := mkBlob { blob_bytes : list Z; blob_type : string }.

Definition blob_size (b : Blob) : Z := Z.of_nat (length (blob_bytes b)).

(** What a track's [file] property holds.  A [File] is a [Blob] with a
    name.  [instanceOfBlob] is the outcome of [file instanceof Blob]: true
    for every [File] and [Blob] of the page itself, false for a file-like
    object that is not one (another realm's [File], a plain object). *)
Record FileLike := mkFile {
  file_name : string;
  file_content : Blob;
  instanceOfBlob : bool
}.

(** In-memory track objects [{name, file, url, index}]. *)
Record Track := mkTrack {
  track_name : string;
  track_file : FileLike;
  track_url : string;
  track_index : nat
}.

(** ** The playback-order engine of [app.js] *)

Module Player.
Import JS.

(** The part of the global [state] object, and of the audio element, that
    the order logic reads or writes. *)
Record State := mkState {
  tracks : list Track;
  currentIndex : value;
  shuffleMode : bool;
  shuffledOrder : list nat;
  shuffledIndex : number;
  audio_src : string;
  audio_currentTime : Q
}.

Definition initial_state : State :=
  mkState [] (Num (Int 0)) false [] (Int 0) "" (0 # 1)%Q.

Definition set_currentIndex (v : value) (st : State) : State :=
  mkState (tracks st) v (shuffleMode st) (shuffledOrder st) (shuffledIndex st)
          (audio_src st) (audio_currentTime st).

Definition set_shuffleMode (b : bool) (st : State) : State :=
  mkState (tracks st) (currentIndex st) b (shuffledOrder st) (shuffledIndex st)
          (audio_src st) (audio_currentTime st).

Definition set_shuffledOrder (o : list nat) (st : State) : State :=
  mkState (tracks st) (currentIndex st) (shuffleMode st) o (shuffledIndex st)
          (audio_src st) (audio_currentTime st).

Definition set_shuffledIndex (x : number) (st : State) : State :=
  mkState (tracks st) (currentIndex st) (shuffleMode st) (shuffledOrder st) x
          (audio_src st) (audio_currentTime st).

(** [elements.audio.src = url]: the media element loads the new resource
    and its playback position returns to the start. *)
Definition set_audio_src (u : string) (st : State) : State :=
  mkState (tracks st) (currentIndex st) (shuffleMode st) (shuffledOrder st)
          (shuffledIndex st) u (0 # 1)%Q.

(** [elements.audio.currentTime = t], by the program or by playback. *)
Definition set_audio_currentTime (t : Q) (st : State) : State :=
  mkState (tracks st) (currentIndex st) (shuffleMode st) (shuffledOrder st)
          (shuffledIndex st) (audio_src st) t.

Inductive error := TypeError.

(** A call either returns, or throws with the state as the exception left it. *)
Inductive result := Ok (st : State) | Throw (e : error) (st : State).

Definition trackCount (st : State) : number := Int (Z.of_nat (length (tracks st))).

(** [loadTrack(index)].  The range guard compares numerically, so it lets
    [undefined] and [NaN] through; [track.url] then throws on the missing
    track, after [state.currentIndex] has been assigned. *)
Definition loadTrack (index : value) (st : State) : result :=
  if lt (to_number index) (Int 0) || ge (to_number index) (trackCount st)
  then Ok st
  else
    let track := get (tracks st) index in
    let st1 := set_currentIndex index st in
    match track with
    | None => Throw TypeError st1
    | Some t => Ok (set_audio_src (track_url t) st1)
    end.

(** [playTrack(index)]; the asynchronous [play()] that ends it does not
    touch the order state. *)
Definition playTrack (index : value) (st : State) : result :=
  match loadTrack index st with
  | Throw e st1 => Throw e st1
  | Ok st1 =>
      Ok (if shuffleMode st1
          then set_shuffledIndex (indexOf (shuffledOrder st1) index) st1
          else st1)
  end.

Definition orderLength (st : State) : number :=
  Int (Z.of_nat (length (shuffledOrder st))).

(** [playNext()]. *)
Definition playNext (st : State) : result :=
  if decide (length (tracks st) = 0%nat) then Ok st
  else if shuffleMode st then
    let st1 :=
      set_shuffledIndex (rem (add (shuffledIndex st) (Int 1)) (orderLength st)) st in
    playTrack (get_index (shuffledOrder st1) (shuffledIndex st1)) st1
  else
    playTrack
      (Num (rem (add (to_number (currentIndex st)) (Int 1)) (trackCount st))) st.

(** [elements.audio.currentTime > 3]. *)
Definition pastRestartThreshold (st : State) : bool :=
  negb (Qle_bool (audio_currentTime st) (3 # 1)%Q).

(** [playPrevious()]. *)
Definition playPrevious (st : State) : result :=
  if decide (length (tracks st) = 0%nat) then Ok st
  else if pastRestartThreshold st then Ok (set_audio_currentTime (0 # 1)%Q st)
  else if shuffleMode st then
    let st1 :=
      set_shuffledIndex
        (rem (add (sub (shuffledIndex st) (Int 1)) (orderLength st)) (orderLength st))
        st in
    playTrack (get_index (shuffledOrder st1) (shuffledIndex st1)) st1
  else
    playTrack
      (Num (rem (add (sub (to_number (currentIndex st)) (Int 1)) (trackCount st))
                (trackCount st))) st.

(** A value of [Math.random()]: the rational [numer / (numer + slack + 1)],
    so every value of [[0, 1)] and none outside it. *)
Record draw := mkDraw { numer : nat; slack : nat }.

(** [Math.floor(d * k)] for a draw [d] and a positive integer [k].  The
    result lies in [[0, k)], and every index of [[0, k)] is the result for
    some draw, so the rounding of the floating-point product only changes
    which draw yields which index. *)
Definition floorScaled (d : draw) (k : nat) : nat :=
  ((numer d * k) `div` (numer d + slack d + 1))%nat.

(** [[a[i], a[j]] = [a[j], a[i]]]: both reads happen before both writes.
    The shuffle loop only calls it with [j <= i < a.length]. *)
Definition swap (a : list nat) (i j : nat) : list nat :=
  match a !! j, a !! i with
  | Some aj, Some ai => <[j:=ai]> (<[i:=aj]> a)
  | _, _ => a
  end.

(** The loop [for (let i = a.length - 1; i > 0; i--)], entered at [i];
    [random c] is the value the [c]-th call of [Math.random()] returns and
    [calls] counts the calls made so far. *)
Fixpoint shuffleLoop (random : nat → draw) (calls i : nat) (a : list nat) : list nat :=
  match i with
  | O => a
  | S i' =>
      let j := floorScaled (random calls) (i + 1) in
      shuffleLoop random (S calls) i' (swap a i j)
  end.

(** [generateShuffledOrder()]. *)
Definition generateShuffledOrder (random : nat → draw) (st : State) : State :=
  let indices := imap (λ i _, i) (tracks st) in
  let shuffled := shuffleLoop random 0 (length indices - 1) indices in
  set_shuffledIndex (Int 0) (set_shuffledOrder shuffled st).

(** [toggleShuffle()]. *)
Definition toggleShuffle (random : nat → draw) (st : State) : State :=
  let st1 := set_shuffleMode (negb (shuffleMode st)) st in
  if shuffleMode st1 && negb (bool_decide (length (tracks st1) = 0%nat)) then
    let st2 := generateShuffledOrder random st1 in
    set_shuffledIndex (indexOf (shuffledOrder st2) (currentIndex st2)) st2
  else st1.



(** Sample states for the scenarios. *)
Definition sampleTrack (i : nat) : Track :=
  mkTrack "Track" (mkFile "track.mp3" (mkBlob [73; 68; 51] "audio/mpeg") true)
          "blob:track" i.

Definition sampleTracks (n : nat) : list Track := sampleTrack <$> seq 0 n.

Definition sampleState (n : nat) (c : Z) (shuffle : bool) (order : list nat)
    (cursor : Z) (time : Q) : State :=
  mkState (sampleTracks n) (Num (Int c)) shuffle order (Int cursor) "blob:track" time.

(** A source of draws that vary from call to call. *)
Definition sampleRandom (c : nat) : draw := mkDraw (c + 1) (2 * c).

(** The state [loadTrack(z)] leaves when [z] is the position of track [t]. *)
Definition loaded (z : Z) (t : Track) (st : State) : State :=
  set_audio_src (track_url t) (set_currentIndex (Num (Int z)) st).

End Player.

(** ** The IndexedDB storage layer of [storage.js] *)

Module Storage.

(** *** Stored records *)

(** A playlist record without its key: [{name, trackCount, createdAt,
    totalSize}].  The store keeps it under its [id]. *)
Record Playlist := mkPlaylist {
  playlist_name : string;
  trackCount : nat;
  createdAt : string;
  totalSize : Z
}.

(** The object [trackData] that [savePlaylist] hands to [trackStore.add]. *)
Record TrackData := mkTrackData {
  playlistId : Z;
  name : string;
  originalName : string;
  order : nat;
  audioBlob : Blob;
  size : Z;
  type : string
}.

(** A stored track: the data under the key the store generated for it. *)
Record TrackRecord := mkTrackRecord { id : Z; data : TrackData }.

(** Values of preferences, as structured cloning preserves them. *)
Inductive prefValue :=
| PBool (b : bool)
| PNumber (q : Q)
| PString (s : string).

(** A preference record [{key, value, updatedAt}] without its key. *)
Record Preference := mkPreference { value : prefValue; updatedAt : string }.

(** The database.  The playlist and preference stores are maps from the
    key to the record.  The track store is the list of its records in
    ascending key order, which is the order in which the store and its
    [playlistId] index hand records out.  [playlistKey] and [trackKey] are
    the current numbers of the two key generators. *)
Record DB := mkDB {
  playlists : gmap Z Playlist;
  playlistKey : Z;
  tracks : list TrackRecord;
  trackKey : Z;
  preferences : gmap string Preference
}.

(** The database that [onupgradeneeded] creates: key generators start at 1. *)
Definition emptyDB : DB := mkDB ∅ 1 [] 1 ∅.

(** *** Requests and transactions *)

Inductive request :=
| AddPlaylist (p : Playlist)
| PutPlaylist (key : Z) (p : Playlist)
| DeletePlaylist (key : Z)
| AddTrack (t : TrackData)
| DeleteTrack (key : Z)
| PutPreference (key : string) (p : Preference).

(** The effect of a request on the stores of the running transaction;
    [None] when the store refuses it ([add] on a key that is taken is a
    [ConstraintError]).  An [add] stores its record under the current
    number of the key generator, which is the key the request returns, and
    advances the generator; a [put] under an explicit key keeps the
    generator above that key. *)
Definition perform (r : request) (db : DB) : option DB :=
  match r with
  | AddPlaylist p =>
      match playlists db !! playlistKey db with
      | Some _ => None
      | None =>
          Some (mkDB (<[playlistKey db := p]> (playlists db)) (playlistKey db + 1)
                     (tracks db) (trackKey db) (preferences db))
      end
  | PutPlaylist key p =>
      Some (mkDB (<[key := p]> (playlists db)) (Z.max (playlistKey db) (key + 1))
                 (tracks db) (trackKey db) (preferences db))
  | DeletePlaylist key =>
      Some (mkDB (delete key (playlists db)) (playlistKey db)
                 (tracks db) (trackKey db) (preferences db))
  | AddTrack t =>
      if bool_decide (trackKey db ∈ id <$> tracks db) then None
      else
        Some (mkDB (playlists db) (playlistKey db)
                   (tracks db ++ [mkTrackRecord (trackKey db) t]) (trackKey db + 1)
                   (preferences db))
  | DeleteTrack key =>
      Some (mkDB (playlists db) (playlistKey db)
                 (filter (λ t, id t ≠ key) (tracks db)) (trackKey db)
                 (preferences db))
  | PutPreference key p =>
      Some (mkDB (playlists db) (playlistKey db) (tracks db) (trackKey db)
                 (<[key := p]> (preferences db)))
  end.

(** The environment of a transaction: [failing k] tells whether the write
    request number [k] of the transaction (counted from 0) fails in the
    engine, as a write beyond the quota does. *)
Definition Env := nat → bool.

Definition execute (failing : Env) (k : nat) (r : request) (db : DB) : option DB :=
  if failing k then None else perform r db.

(** The requests of a transaction are carried out one after the other on
    the transaction's own view of the stores.  A failed request whose
    error event nobody cancels aborts the transaction: [None]. *)
Fixpoint executeAll (failing : Env) (k : nat) (rs : list request) (db : DB)
    : option DB :=
  match rs with
  | [] => Some db
  | r :: rest =>
      match execute failing k r db with
      | None => None
      | Some db1 => executeAll failing (S k) rest db1
      end
  end.

Inductive storageError :=
| RequestFailed     (** the [error] of a request or of the transaction *)
| RecordNotFound.   (** [new Error('Playlist not found')] *)

(** What becomes of the promise a storage function returns. *)
Inductive promise (A : Type) :=
| Resolved (a : A)
| Rejected (e : storageError)
| Pending.
Arguments Resolved {A} a.
Arguments Rejected {A} e.
Arguments Pending {A}.

(** [index.getAll(playlistId)] / [index.openCursor(IDBKeyRange.only(playlistId))]:
    the records of the playlist, in key order. *)
Definition tracksOf (playlistId' : Z) (db : DB) : list TrackRecord :=
  filter (λ t, playlistId (data t) = playlistId') (tracks db).

(** *** [savePlaylist] *)

(** [track.file.type || 'audio/mpeg']. *)
Definition typeOrDefault (t : string) : string :=
  if decide (t = "") then "audio/mpeg" else t.

(** The object [trackData] built for the track at position [i]. *)
Definition trackData (playlistId' : Z) (i : nat) (track : Track) : TrackData :=
  let audioBlob' := file_content (track_file track) in
  mkTrackData playlistId' (track_name track) (file_name (track_file track)) i
              audioBlob' (blob_size audioBlob')
              (typeOrDefault (blob_type (file_content (track_file track)))).

(** The [for] loop of the [onsuccess] handler from position [i] on, with
    the running [totalSize]: the [add] requests it issues, and the final
    [totalSize] if it runs to its end.  At a track whose file is not a
    [Blob] the handler stops at [await fileToBlob(...)]: the conversion
    waits for a [FileReader] event (or fails), and in either case the
    handler issues no further request while the transaction is active, so
    the loop ends there with [None]. *)
Fixpoint trackRequests (playlistId' : Z) (i : nat) (totalSize' : Z)
    (remaining : list Track) : list request * option Z :=
  match remaining with
  | [] => ([], Some totalSize')
  | track :: rest =>
      if instanceOfBlob (track_file track) then
        let t := trackData playlistId' i track in
        let '(rs, final) :=
          trackRequests playlistId' (S i) (totalSize' + size t) rest in
        (AddTrack t :: rs, final)
      else ([], None)
  end.

(** [savePlaylist(name, tracks)], with [now] for [new Date().toISOString()].
    Request 0 adds the playlist with [totalSize: 0]; if it fails,
    [playlistRequest.onerror] rejects and the transaction aborts.  Its
    [onsuccess] handler issues one [add] per track and the [put] that
    patches [totalSize], then calls [resolve(playlistId)], before any of
    those requests is carried out; the transaction then carries them out
    and commits, or aborts at the first that fails, when the promise is
    resolved already.  When the handler stops at an [await] instead, the
    transaction carries out what was issued before and commits, and
    nothing settles the promise; if one of those requests fails the
    transaction aborts and [transaction.onerror] rejects. *)
Definition savePlaylist (failing : Env) (now : string) (name' : string)
    (tracks' : list Track) (db : DB) : promise Z * DB :=
  let playlist := mkPlaylist name' (length tracks') now 0 in
  match execute failing 0 (AddPlaylist playlist) db with
  | None => (Rejected RequestFailed, db)
  | Some db1 =>
      let playlistId' := playlistKey db in
      match trackRequests playlistId' 0 0 tracks' with
      | (adds, Some totalSize') =>
          let patched := mkPlaylist name' (length tracks') now totalSize' in
          match executeAll failing 1 (adds ++ [PutPlaylist playlistId' patched]) db1 with
          | Some db2 => (Resolved playlistId', db2)
          | None => (Resolved playlistId', db)
          end
      | (adds, None) =>
          match executeAll failing 1 adds db1 with
          | Some db2 => (Pending, db2)
          | None => (Rejected RequestFailed, db)
          end
      end
  end.

(** *** [loadPlaylist] *)

(** [tracks.sort((a, b) => a.order - b.order)]: a stable sort by [order]. *)
Fixpoint insertByOrder (t : TrackRecord) (sorted : list TrackRecord)
    : list TrackRecord :=
  match sorted with
  | [] => [t]
  | x :: rest =>
      if decide (order (data t) ≤ order (data x))%nat then t :: sorted
      else x :: insertByOrder t rest
  end.

Definition sortByOrder (l : list TrackRecord) : list TrackRecord :=
  foldr insertByOrder [] l.

(** The playable track built from a stored record: [file] is
    [new File([track.audioBlob], track.originalName, {type: track.type})]
    and [url] the object URL minted for the blob. *)
Definition processedTrack (objectURL : nat → string) (index : nat)
    (track : TrackRecord) : Track :=
  mkTrack (name (data track))
          (mkFile (originalName (data track))
                  (mkBlob (blob_bytes (audioBlob (data track))) (type (data track)))
                  true)
          (objectURL index) index.

(** [loadPlaylist(playlistId)].  [retrieval] is the order in which the
    storage hands out the records of the playlist (key order in the
    engines, hence the identity; the caller relies on no order). *)
Definition loadPlaylist (retrieval : list TrackRecord → list TrackRecord)
    (objectURL : nat → string) (playlistId' : Z) (db : DB)
    : promise (Playlist * list Track) :=
  match playlists db !! playlistId' with
  | None => Rejected RecordNotFound
  | Some playlist =>
      let tracks' := sortByOrder (retrieval (tracksOf playlistId' db)) in
      Resolved (playlist, imap (processedTrack objectURL) tracks')
  end.

(** *** [deletePlaylist] *)

(** The cursor over the [playlistId] index, restricted to [playlistId']:
    [ahead] are the records of the store the cursor has not passed yet.
    Each record in range is deleted ([cursor.delete()], a write request)
    before the cursor moves on; past the last one the cursor is [null]. *)
Fixpoint cursorRequests (playlistId' : Z) (ahead : list TrackRecord) : list request :=
  match ahead with
  | [] => []
  | t :: rest =>
      if decide (playlistId (data t) = playlistId')
      then DeleteTrack (id t) :: cursorRequests playlistId' rest
      else cursorRequests playlistId' rest
  end.

(** [deletePlaylist(playlistId)]: resolves on [transaction.oncomplete]. *)
Definition deletePlaylist (failing : Env) (playlistId' : Z) (db : DB)
    : promise unit * DB :=
  match executeAll failing 0
          (DeletePlaylist playlistId' :: cursorRequests playlistId' (tracks db)) db with
  | Some db1 => (Resolved (), db1)
  | None => (Rejected RequestFailed, db)
  end.

(** *** Preferences *)

(** [savePreferences(prefs)]: one [put] per entry of [Object.entries(prefs)];
    [clock k] is [new Date().toISOString()] at entry number [k]. *)
Definition preferenceRequests (clock : nat → string)
    (entries : list (string * prefValue)) : list request :=
  imap (λ k entry, PutPreference entry.1 (mkPreference entry.2 (clock k))) entries.

Definition savePreferences (failing : Env) (clock : nat → string)
    (prefs : gmap string prefValue) (db : DB) : promise unit * DB :=
  match executeAll failing 0 (preferenceRequests clock (map_to_list prefs)) db with
  | Some db1 => (Resolved (), db1)
  | None => (Rejected RequestFailed, db)
  end.

(** [prefs[key] = v] on an object that [{}] created, for a value [v] that
    is a boolean, a number or a string.  An object is the map of its own
    properties.  The assignment creates or overwrites the own property
    [key], except for the key [__proto__]: that one is the accessor
    inherited from [Object.prototype], the assignment calls its setter,
    and the setter ignores a value that is neither an object nor [null],
    so no property is created. *)
Definition setProperty (prefs : gmap string prefValue) (key : string) (v : prefValue)
    : gmap string prefValue :=
  if decide (key = "__proto__") then prefs else <[key := v]> prefs.

(** [loadPreferences()]: [store.getAll()] and then
    [records.forEach(record => prefs[record.key] = record.value)] on
    [const prefs = {}]. *)
Definition loadPreferences (db : DB) : promise (gmap string prefValue) :=
  let records := map_to_list (preferences db) in
  Resolved (foldl (λ prefs record, setProperty prefs record.1 (value record.2)) ∅ records).

(** *** Notions in which the properties of the storage layer are stated *)

(** The requests all succeed in the engine. *)
Fixpoint performAll (rs : list request) (db : DB) : option DB :=
  match rs with
  | [] => Some db
  | r :: rest =>
      match perform r db with
      | None => None
      | Some db1 => performAll rest db1
      end
  end.

Definition quiet (failing : Env) (k n : nat) : Prop :=
  ∀ j : nat, (j < n)%nat → failing (k + j)%nat = false.

Definition noisy (failing : Env) (k n : nat) : Prop :=
  ∃ j : nat, (j < n)%nat ∧ failing (k + j)%nat = true.

(** What the key generators guarantee: every key in use lies below the
    generator's current number, track keys are distinct, and a track refers
    to a playlist key that has been generated. *)
Record wf (db : DB) : Prop := mkWf {
  wf_playlists : ∀ k p, playlists db !! k = Some p → k < playlistKey db;
  wf_tracks : Forall (λ t, id t < trackKey db ∧ playlistId (data t) < playlistKey db)
                     (tracks db);
  wf_keys : NoDup (id <$> tracks db)
}.

Definition allBlobs (tracks' : list Track) : Prop :=
  Forall (λ t, instanceOfBlob (track_file t) = true) tracks'.

(** The [trackData] objects of the tracks from position [i] on. *)
Fixpoint savedData (playlistId' : Z) (i : nat) (tracks' : list Track) : list TrackData :=
  match tracks' with
  | [] => []
  | t :: rest => trackData playlistId' i t :: savedData playlistId' (S i) rest
  end.

(** Their records, under the keys generated from [key] on. *)
Fixpoint savedRecords (key : Z) (ds : list TrackData) : list TrackRecord :=
  match ds with
  | [] => []
  | d :: rest => mkTrackRecord key d :: savedRecords (key + 1) rest
  end.

Definition sumZ (l : list Z) : Z := foldr Z.add 0 l.

(** The database after a save that commits. *)
Definition savedDB (now name' : string) (tracks' : list Track) (db : DB) : DB :=
  let ds := savedData (playlistKey db) 0 tracks' in
  mkDB (<[playlistKey db := mkPlaylist name' (length tracks') now (sumZ (size <$> ds))]>
          (playlists db))
       (playlistKey db + 1)
       (tracks db ++ savedRecords (trackKey db) ds)
       (trackKey db + Z.of_nat (length tracks'))
       (preferences db).

(** The database after a save whose handler stopped at the track that
    follows [before]: the playlist row as first added, with [trackCount]
    [count] and [totalSize] 0, and the records of [before]. *)
Definition suspendedDB (now name' : string) (count : nat) (before : list Track)
    (db : DB) : DB :=
  mkDB (<[playlistKey db := mkPlaylist name' count now 0]> (playlists db))
       (playlistKey db + 1)
       (tracks db ++ savedRecords (trackKey db) (savedData (playlistKey db) 0 before))
       (trackKey db + Z.of_nat (length before))
       (preferences db).

(** The records that survive the deletion of the keys [keys]. *)
Definition without (keys : list Z) (l : list TrackRecord) : list TrackRecord :=
  filter (λ t, id t ∉ keys) l.

(** The database after a deletion that commits. *)
Definition deletedDB (pid : Z) (db : DB) : DB :=
  mkDB (delete pid (playlists db)) (playlistKey db)
       (without (id <$> tracksOf pid db) (tracks db)) (trackKey db) (preferences db).

Definition byOrder (a b : TrackRecord) : Prop :=
  (order (data a) ≤ order (data b))%nat.

(** The preference store after the [put] requests of [entries], the first
    of which is entry number [k]. *)
Fixpoint putAll (clock : nat → string) (k : nat) (entries : list (string * prefValue))
    (store : gmap string Preference) : gmap string Preference :=
  match entries with
  | [] => store
  | entry :: rest =>
      putAll clock (S k) rest (<[entry.1 := mkPreference entry.2 (clock k)]> store)
  end.

(** Every stored playlist carries the sum of the sizes and the number of
    the track records that refer to it. *)
Definition aggregateOk (db : DB) : Prop :=
  ∀ k p, playlists db !! k = Some p →
    totalSize p = sumZ ((λ r, size (data r)) <$> tracksOf k db) ∧
    trackCount p = length (tracksOf k db).

(** One committed or aborted storage operation.  Saves are those of tracks
    whose files are [Blob] instances. *)
Inductive step : DB → DB → Prop :=
| step_save failing now name' ts db :
    allBlobs ts → step db (savePlaylist failing now name' ts db).2
| step_delete failing pid db :
    step db (deletePlaylist failing pid db).2
| step_preferences failing clock prefs db :
    step db (savePreferences failing clock prefs db).2.

(** The storage states that can be observed between operations. *)
Inductive reachable : DB → Prop :=
| reachable_empty : reachable emptyDB
| reachable_step db db' : reachable db → step db db' → reachable db'.

(** *** Sample data for the scenarios *)

(** An environment in which no request fails, and one in which request
    number [k] does. *)
Definition neverFailing : Env := λ _, false.

Definition failingAt (k : nat) : Env := λ j, bool_decide (j = k).

(** A track whose [file] is not a [Blob] of the page. *)
Definition foreignTrack (i : nat) : Track :=
  mkTrack "Foreign" (mkFile "foreign.mp3" (mkBlob [82; 73; 70; 70] "audio/wav") false)
          "blob:foreign" i.

Definition roadTrip : list Track := Player.sampleTracks 3.

Definition mixedTracks : list Track :=
  [Player.sampleTrack 0; foreignTrack 1; Player.sampleTrack 2].

Definition savedRoadTrip : DB :=
  (savePlaylist neverFailing "2024-05-01T10:00:00.000Z" "Road Trip" roadTrip emptyDB).2.

Definition samplePrefs : gmap string prefValue :=
  <["volume" := PNumber (3 # 4)%Q]> (<["shuffleMode" := PBool true]> ∅).

End Storage.

(** ** The list of saved playlists of [storage.js], and the states of the
    library *)

Module Library.
Import JS Storage.

(** *** [getAllPlaylists] *)

(** The order of the keys of the playlist store. *)
Definition keyOrder (a b : Z * Playlist) : Prop := a.1 ≤ b.1.

#[global] Instance keyOrder_dec : RelDecision keyOrder.
Proof. intros a b. unfold keyOrder. apply _. Defined.

(** [store.getAll()] on the playlist store: its records with their keys,
    in ascending key order. *)
Definition playlistRecords (db : DB) : list (Z * Playlist) :=
  merge_sort keyOrder (map_to_list (playlists db)).

(** The comparator [(a, b) => new Date(b.createdAt) - new Date(a.createdAt)];
    [dateOf] is the time value of [new Date(...)], [NaN] for a string that
    is no date, and a comparator result of [NaN] counts as 0. *)
Definition newerFirst (dateOf : string → number) (a b : Z * Playlist) : Z :=
  match sub (dateOf (createdAt b.2)) (dateOf (createdAt a.2)) with
  | Int z => z
  | NaN => 0
  end.

(** [playlists.sort(...)] with that comparator.  The sort is stable, and
    the comparator is consistent when the stored dates are dates, so
    every stable sort gives the same list; it is written here as an
    insertion sort. *)
Fixpoint insertByDate (dateOf : string → number) (p : Z * Playlist)
    (sorted : list (Z * Playlist)) : list (Z * Playlist) :=
  match sorted with
  | [] => [p]
  | x :: rest =>
      if decide (newerFirst dateOf p x ≤ 0) then p :: sorted
      else x :: insertByDate dateOf p rest
  end.

(** [getAllPlaylists()]. *)
Definition getAllPlaylists (dateOf : string → number) (db : DB)
    : list (Z * Playlist) :=
  foldr (insertByDate dateOf) [] (playlistRecords db).

(** *** Notions in which the properties of the library are stated *)

(** Every track record belongs to a stored playlist and carries the size
    of its blob, and the records of a playlist carry, in key order, the
    orders [0 .. trackCount-1]. *)
Definition intact (db : DB) : Prop :=
  (∀ r, r ∈ tracks db →
        is_Some (playlists db !! playlistId (data r)) ∧
        size (data r) = blob_size (audioBlob (data r))) ∧
  (∀ k p, playlists db !! k = Some p →
          (λ r, order (data r)) <$> tracksOf k db = seq 0 (trackCount p)).


(** The order of the list: [a] stands before [b] when it is more recent,
    or as recent and of a smaller key. *)
Definition listedBefore (dateOf : string → number) (a b : Z * Playlist) : Prop :=
  newerFirst dateOf a b < 0 ∨ (newerFirst dateOf a b = 0 ∧ a.1 < b.1).

(** Every stored [createdAt] is a date. *)
Definition dated (dateOf : string → number) (db : DB) : Prop :=
  ∀ k p, playlists db !! k = Some p → ∃ z, dateOf (createdAt p) = Int z.

(** A clock of sample dates: the time value is the length of the string. *)
Definition sampleDate (s : string) : number := Int (Z.of_nat (String.length s)).

End Library.

(** ** The rest of the application: [app.js] around the order engine and
    the storage layer *)

Module App.
Import JS Player.

(** *** Track names *)

(** Strings are sequences of code units; a character of this embedding is
    a code unit below 256. *)
Definition codeUnits (s : string) : list Ascii.ascii := String.list_ascii_of_string s.

Definition fromCodeUnits (l : list Ascii.ascii) : string := String.string_of_list_ascii l.

Definition codeOf (c : Ascii.ascii) : nat := Ascii.nat_of_ascii c.

(** [\d]: the ten decimal digits. *)
Definition isDigit (c : Ascii.ascii) : bool :=
  bool_decide (48 ≤ codeOf c ∧ codeOf c ≤ 57)%nat.

(** [[\.\-\s]]: a dot, a hyphen, or white space (tab, line feed, vertical
    tab, form feed, carriage return, space, no-break space). *)
Definition isSeparator (c : Ascii.ascii) : bool :=
  bool_decide (codeOf c ∈ [46; 45; 9; 10; 11; 12; 13; 32; 160]%nat).

(** Matching under the [i] flag: the letters A to Z match in either case,
    every other code unit matches itself only. *)
Definition foldCase (c : Ascii.ascii) : Ascii.ascii :=
  if bool_decide (65 ≤ codeOf c ∧ codeOf c ≤ 90)%nat
  then Ascii.ascii_of_nat (codeOf c + 32) else c.

(** The alternatives of [(mp3|wav|ogg|m4a|flac)]. *)
Definition extensions : list (list Ascii.ascii) :=
  codeUnits <$> ["mp3"; "wav"; "ogg"; "m4a"; "flac"].

(** [s] ends with a dot and the extension [ext], in any letter case. *)
Definition hasExtension (ext s : list Ascii.ascii) : bool :=
  bool_decide (S (length ext) ≤ length s)%nat &&
  bool_decide (foldCase <$> drop (length s - S (length ext)) s = codeUnits "." ++ ext).

(** [.replace(/\.(mp3|wav|ogg|m4a|flac)$/i, '')]. *)
Definition removeExtension (s : list Ascii.ascii) : list Ascii.ascii :=
  match List.find (λ ext, hasExtension ext s) extensions with
  | Some ext => take (length s - S (length ext)) s
  | None => s
  end.

(** The longest prefix of [s] whose code units satisfy [p], and the rest. *)
Fixpoint span (p : Ascii.ascii → bool) (s : list Ascii.ascii)
    : list Ascii.ascii * list Ascii.ascii :=
  match s with
  | [] => ([], [])
  | c :: rest =>
      if p c then let '(run, tail) := span p rest in (c :: run, tail)
      else ([], s)
  end.

(** [.replace(/^\d+[\.\-\s]+/, '')]: both runs are greedy and the two
    classes are disjoint, so the match is the longest run of digits
    followed by the longest run of separators, each of them non-empty. *)
Definition removeTrackNumber (s : list Ascii.ascii) : list Ascii.ascii :=
  let '(digits, afterDigits) := span isDigit s in
  let '(separators, rest) := span isSeparator afterDigits in
  match digits, separators with
  | _ :: _, _ :: _ => rest
  | _, _ => s
  end.

(** [cleanTrackName(filename)]. *)
Definition cleanTrackName (filename : string) : string :=
  fromCodeUnits (removeTrackNumber (removeExtension (codeUnits filename))).

(** *** Loading files *)

(** [str.startsWith(prefix)] and [str.endsWith(suffix)]. *)
Definition startsWith (prefix str : list Ascii.ascii) : bool :=
  bool_decide (take (length prefix) str = prefix).

Definition endsWith (suffix str : list Ascii.ascii) : bool :=
  bool_decide (length suffix ≤ length str)%nat &&
  bool_decide (drop (length str - length suffix) str = suffix).

(** [file.type.startsWith('audio/') || file.name.endsWith('.mp3')]. *)
Definition isAudioFile (file : FileLike) : bool :=
  startsWith (codeUnits "audio/") (codeUnits (blob_type (file_content file))) ||
  endsWith (codeUnits ".mp3") (codeUnits (file_name file)).

(** [audioFiles.sort((a, b) => a.name.localeCompare(b.name))], for the
    collation [localeCompare] of the host.  The sort is stable, and for a
    comparator that is consistent, as a collation is, every stable sort
    gives the same list; it is written here as an insertion sort. *)
Fixpoint insertByName (localeCompare : string → string → Z) (file : FileLike)
    (sorted : list FileLike) : list FileLike :=
  match sorted with
  | [] => [file]
  | x :: rest =>
      if decide (localeCompare (file_name file) (file_name x) ≤ 0)
      then file :: sorted
      else x :: insertByName localeCompare file rest
  end.

Definition sortByName (localeCompare : string → string → Z)
    (files : list FileLike) : list FileLike :=
  foldr (insertByName localeCompare) [] files.

(** The whole application state: the player's state, the two volumes
    ([state.volume] and [elements.audio.volume]), the id of the saved
    playlist that is loaded and the cached list of saved playlists. *)
Record AppState := mkApp {
  player : State;
  volume : Q;
  audio_volume : Q;
  currentPlaylistId : option Z;
  savedPlaylists : list (Z * Storage.Playlist)
}.

Definition initial_app : AppState :=
  mkApp initial_state (3 # 4)%Q (3 # 4)%Q None [].

Definition set_player (p : State) (app : AppState) : AppState :=
  mkApp p (volume app) (audio_volume app) (currentPlaylistId app) (savedPlaylists app).

Definition set_currentPlaylistId (pid : option Z) (app : AppState) : AppState :=
  mkApp (player app) (volume app) (audio_volume app) pid (savedPlaylists app).

Definition set_savedPlaylists (l : list (Z * Storage.Playlist)) (app : AppState)
    : AppState :=
  mkApp (player app) (volume app) (audio_volume app) (currentPlaylistId app) l.

Definition set_tracks (ts : list Track) (st : State) : State :=
  mkState ts (currentIndex st) (shuffleMode st) (shuffledOrder st) (shuffledIndex st)
          (audio_src st) (audio_currentTime st).

(** The exceptions of the application: those of the player, and the
    [IndexSizeError] of the setter of [audio.volume] for a value outside
    [0, 1]. *)
Inductive exception :=
| PlayerError (e : error)
| IndexSizeError.

(** How a handler of the application ends: it returns, it returns after an
    [alert], it lets an exception escape, or it waits for a promise that
    never settles. *)
Inductive outcome :=
| Done (app : AppState)
| Alerted (message : string) (app : AppState)
| Thrown (e : exception) (app : AppState)
| Waiting (app : AppState).

(** The end of a handler whose last statement is a call of the player. *)
Definition finish (app : AppState) (r : result) : outcome :=
  match r with
  | Ok st => Done (set_player st app)
  | Throw e st => Thrown (PlayerError e) (set_player st app)
  end.

(** The track objects [{name, file, url, index}] built from the files;
    [objectURL i] is [URL.createObjectURL] of the file at position [i]. *)
Definition tracksOfFiles (objectURL : nat → string) (files : list FileLike)
    : list Track :=
  imap (λ index file,
          mkTrack (cleanTrackName (file_name file)) file (objectURL index) index)
       files.

(** [loadFiles(files)]. *)
Definition loadFiles (localeCompare : string → string → Z)
    (objectURL : nat → string) (random : nat → draw) (files : list FileLike)
    (app : AppState) : outcome :=
  let audioFiles := filter (λ file, isAudioFile file = true) files in
  if decide (length audioFiles = 0%nat)
  then Alerted "No audio files found in the selected folder." app
  else
    let sorted := sortByName localeCompare audioFiles in
    let st1 := set_tracks (tracksOfFiles objectURL sorted) (player app) in
    let st2 := if shuffleMode st1 then generateShuffledOrder random st1 else st1 in
    let app1 := set_currentPlaylistId None (set_player st2 app) in
    finish app1 (loadTrack (Num (Int 0)) st2).

(** [handleTrackEnded()]. *)
Definition handleTrackEnded (st : State) : result := playNext st.

(** The indices that [k] successive calls of [playNext] play, as
    [state.currentIndex] holds them after each call; an exception ends the
    run. *)
Fixpoint played (k : nat) (st : State) : list value :=
  match k with
  | O => []
  | S k' =>
      match handleTrackEnded st with
      | Ok st1 => currentIndex st1 :: played k' st1
      | Throw _ _ => []
      end
  end.

(** What the listener can do to the player: the next button (or the end
    of the track), the previous button at playback position [time], a
    click on the playlist item of position [index], the shuffle button
    with the draws [random] of its [Math.random()] calls. *)
Inductive action :=
| Next
| Previous (time : Q)
| Select (index : Z)
| ToggleShuffle (random : nat → draw).

Definition act (a : action) (st : State) : result :=
  match a with
  | Next => handleTrackEnded st
  | Previous time => playPrevious (set_audio_currentTime time st)
  | Select index => playTrack (Num (Int index)) st
  | ToggleShuffle random => Ok (toggleShuffle random st)
  end.

(** The actions one after the other; an exception ends the run. *)
Fixpoint run (actions : list action) (st : State) : result :=
  match actions with
  | [] => Ok st
  | a :: rest =>
      match act a st with
      | Ok st1 => run rest st1
      | Throw e st1 => Throw e st1
      end
  end.

(** [renderPlaylist()] makes one item for each position of the track
    list, so the items that can be clicked are those of positions
    [0 .. n-1]. *)
Definition clickable (n : nat) (a : action) : Prop :=
  match a with
  | Select index => 0 ≤ index < Z.of_nat n
  | _ => True
  end.

(** *** Volume *)

(** Volumes are rationals.  The setter of [audio.volume] accepts the
    values of [0, 1]. *)
Definition inUnitRange (v : Q) : bool := Qle_bool (0 # 1) v && Qle_bool v (1 # 1).

Definition set_volume (v : Q) (app : AppState) : AppState :=
  mkApp (player app) v (audio_volume app) (currentPlaylistId app) (savedPlaylists app).

Definition set_audio_volume (v : Q) (app : AppState) : AppState :=
  mkApp (player app) (volume app) v (currentPlaylistId app) (savedPlaylists app).

(** [x || 0.75] on numbers. *)
Definition orDefault (x : Q) : Q := if Qeq_bool x (0 # 1) then (3 # 4)%Q else x.

(** [toggleMute()]. *)
Definition toggleMute (app : AppState) : outcome :=
  if negb (Qle_bool (audio_volume app) (0 # 1))
  then Done (set_audio_volume (0 # 1) (set_volume (audio_volume app) app))
  else
    if inUnitRange (orDefault (volume app))
    then Done (set_audio_volume (orDefault (volume app)) app)
    else Thrown IndexSizeError app.

(** [refreshSavedPlaylists()]. *)
Definition refreshSavedPlaylists (dateOf : string → number) (db : Storage.DB)
    (app : AppState) : AppState :=
  set_savedPlaylists (Library.getAllPlaylists dateOf db) app.

(** [saveCurrentPlaylist()]; [answer] is what [prompt] returns, [None]
    when the user cancels.  The id that [savePlaylist] resolves with is
    not used. *)
Definition saveCurrentPlaylist (dateOf : string → number) (failing : Storage.Env)
    (now : string) (answer : option string) (app : AppState) (db : Storage.DB)
    : outcome * Storage.DB :=
  if decide (length (tracks (player app)) = 0%nat) then (Done app, db)
  else
    match answer with
    | None => (Done app, db)
    | Some name' =>
        if decide (name' = "") then (Done app, db)
        else
          match Storage.savePlaylist failing now name' (tracks (player app)) db with
          | (Storage.Resolved _, db1) =>
              (Done (refreshSavedPlaylists dateOf db1 app), db1)
          | (Storage.Rejected _, db1) =>
              (Alerted "Failed to save playlist. Storage may be full." app, db1)
          | (Storage.Pending, db1) => (Waiting app, db1)
          end
    end.

(** [loadSavedPlaylist(playlistId)]: an exception of [loadTrack] is caught
    by the same [catch] as a rejected load. *)
Definition loadSavedPlaylist
    (retrieval : list Storage.TrackRecord → list Storage.TrackRecord)
    (objectURL : nat → string) (random : nat → draw) (playlistId : Z)
    (app : AppState) (db : Storage.DB) : outcome :=
  match Storage.loadPlaylist retrieval objectURL playlistId db with
  | Storage.Pending => Waiting app
  | Storage.Rejected _ => Alerted "Failed to load playlist." app
  | Storage.Resolved (_, loadedTracks) =>
      let st1 := set_currentIndex (Num (Int 0)) (set_tracks loadedTracks (player app)) in
      let st2 := if shuffleMode st1 then generateShuffledOrder random st1 else st1 in
      let app1 := set_currentPlaylistId (Some playlistId) app in
      match loadTrack (Num (Int 0)) st2 with
      | Ok st3 => Done (set_player st3 app1)
      | Throw _ st3 => Alerted "Failed to load playlist." (set_player st3 app1)
      end
  end.

(** [deleteSavedPlaylist(playlistId, name)]; [confirmed] is what [confirm]
    returns. *)
Definition deleteSavedPlaylist (dateOf : string → number) (failing : Storage.Env)
    (confirmed : bool) (playlistId : Z) (app : AppState) (db : Storage.DB)
    : outcome * Storage.DB :=
  if confirmed then
    match Storage.deletePlaylist failing playlistId db with
    | (Storage.Resolved _, db1) =>
        let app1 := refreshSavedPlaylists dateOf db1 app in
        (Done (if decide (currentPlaylistId app1 = Some playlistId)
               then set_currentPlaylistId None app1 else app1), db1)
    | (Storage.Rejected _, db1) => (Alerted "Failed to delete playlist." app, db1)
    | (Storage.Pending, db1) => (Waiting app, db1)
    end
  else (Done app, db).

(** *** Preferences *)

(** The object that the timer of [savePreferencesDebounced] hands to
    [savePreferences]: [{volume, shuffleMode, lastTrackIndex}].  It is
    defined when [state.currentIndex] is an integer, the only indices that
    [prefValue] holds. *)
Definition preferencesOf (app : AppState) : option (gmap string Storage.prefValue) :=
  match currentIndex (player app) with
  | Num (Int c) =>
      Some (<["volume" := Storage.PNumber (volume app)]>
              (<["shuffleMode" := Storage.PBool (shuffleMode (player app))]>
                 (<["lastTrackIndex" := Storage.PNumber (inject_Z c)]> ∅)))
  | _ => None
  end.

(** The second half of the [try] block of [initializeStorage()]: the
    stored shuffle mode, then the list of saved playlists. *)
Definition restoreShuffleMode (dateOf : string → number) (db : Storage.DB)
    (prefs : gmap string Storage.prefValue) (app : AppState) : option AppState :=
  match prefs !! "shuffleMode" with
  | None => Some (refreshSavedPlaylists dateOf db app)
  | Some (Storage.PBool b) =>
      Some (refreshSavedPlaylists dateOf db
              (set_player (set_shuffleMode b (player app)) app))
  | Some _ => None
  end.

(** [initializeStorage()] on an open database.  It is defined when a
    stored [volume] is a number and a stored [shuffleMode] a boolean, as
    [preferencesOf] writes them.  An exception of the [try] block, as the
    one of the setter of [audio.volume] or a rejected load, ends the
    block and is logged. *)
Definition initializeStorage (dateOf : string → number) (db : Storage.DB)
    (app : AppState) : option AppState :=
  match Storage.loadPreferences db with
  | Storage.Resolved prefs =>
      match prefs !! "volume" with
      | None => restoreShuffleMode dateOf db prefs app
      | Some (Storage.PNumber v) =>
          if inUnitRange v
          then restoreShuffleMode dateOf db prefs (set_audio_volume v (set_volume v app))
          else Some (set_volume v app)
      | Some _ => None
      end
  | _ => Some app
  end.

(** The end of [init()]: [initializeStorage()], then
    [elements.audio.volume = state.volume]. *)
Definition init (dateOf : string → number) (db : Storage.DB) (app : AppState)
    : option outcome :=
  match initializeStorage dateOf db app with
  | None => None
  | Some app1 =>
      Some (if inUnitRange (volume app1)
            then Done (set_audio_volume (volume app1) app1)
            else Thrown IndexSizeError app1)
  end.

(** *** Notions in which the properties of the application are stated *)

(** The current index is the position of a track. *)
Definition validIndex (st : State) : Prop :=
  ∃ c : Z, currentIndex st = Num (Int c) ∧ 0 ≤ c < Z.of_nat (length (tracks st)).

(** The shuffled order is a bijection over the positions and the cursor
    is a position in it. *)
Definition validOrder (st : State) : Prop :=
  shuffledOrder st ≡ₚ seq 0 (length (tracks st)) ∧
  ∃ p : Z, shuffledIndex st = Int p ∧ 0 ≤ p < Z.of_nat (length (tracks st)).

(** The state of a player that has tracks: a valid index, and in shuffled
    mode a valid order. *)
Definition wellFormed (st : State) : Prop :=
  tracks st ≠ [] → validIndex st ∧ (shuffleMode st = true → validOrder st).

(** In shuffled mode the cursor is where the order holds the current
    index. *)
Definition synced (st : State) : Prop :=
  shuffleMode st = true →
  ∃ (p c : nat), shuffledIndex st = Int (Z.of_nat p) ∧
                 currentIndex st = Num (Int (Z.of_nat c)) ∧
                 shuffledOrder st !! p = Some c.

(** The audio element holds the URL of the current track. *)
Definition tuned (st : State) : Prop :=
  tracks st ≠ [] →
  ∃ (c : nat) (t : Track), currentIndex st = Num (Int (Z.of_nat c)) ∧
                           tracks st !! c = Some t ∧ audio_src st = track_url t.

(** [st'] is [st] with the track of position [z] loaded from its start:
    the track list, the mode and the order are those of [st]. *)
Definition playing (z : Z) (st st' : State) : Prop :=
  tracks st' = tracks st ∧ shuffleMode st' = shuffleMode st ∧
  shuffledOrder st' = shuffledOrder st ∧ currentIndex st' = Num (Int z) ∧
  (∃ t, tracks st !! Z.to_nat z = Some t ∧ audio_src st' = track_url t) ∧
  audio_currentTime st' = (0 # 1)%Q.

(** Sample data for the scenarios. *)
Definition sampleFile (name' type' : string) : FileLike :=
  mkFile name' (mkBlob [73; 68; 51; 4] type') true.

Definition sampleCompare (a b : string) : Z :=
  match String.compare a b with Lt => -1 | Eq => 0 | Gt => 1 end.

Definition sampleFolder : list FileLike :=
  [sampleFile "02 - Second.mp3" "audio/mpeg"; sampleFile "notes.txt" "text/plain";
   sampleFile "01 - First.MP3" "audio/mpeg"; sampleFile "03. Third.mp3" ""].

End App.

(** ** Properties of the order engine *)

Module PlayerFacts.
Import JS Player.

(** *** Array helpers *)

Lemma find_from_not_elem (arr : list nat) (k : nat) (pos : Z) :
  k ∉ arr → find_from arr k pos = -1.
Proof.
  revert pos. induction arr as [|x rest IH]; intros pos Hk; simpl; [done|].
  apply not_elem_of_cons in Hk as [Hne Hrest].
  destruct (decide (x = k)); [congruence | by apply IH].
Qed.

Lemma find_from_elem (arr : list nat) (k : nat) (pos : Z) :
  k ∈ arr →
  ∃ p : nat, find_from arr k pos = pos + Z.of_nat p ∧ arr !! p = Some k.
Proof.
  revert pos. induction arr as [|x rest IH]; intros pos Hk; simpl.
  - by apply elem_of_nil in Hk.
  - destruct (decide (x = k)) as [->|Hne].
    + exists 0%nat. split; [lia | done].
    + apply elem_of_cons in Hk as [->|Hk]; [done|].
      destruct (IH (pos + 1) Hk) as (p & Hp & Hl).
      exists (S p). split; [lia | done].
Qed.

Lemma find_from_NoDup (arr : list nat) (k p : nat) :
  NoDup arr → arr !! p = Some k → find_from arr k 0 = Z.of_nat p.
Proof.
  intros Hnd Hp.
  destruct (find_from_elem arr k 0) as (q & Hq & Hl).
  { by eapply list_elem_of_lookup_2. }
  rewrite Hq. f_equal. rewrite (NoDup_lookup _ _ _ _ Hnd Hl Hp). lia.
Qed.

Lemma get_in_range {A : Type} (arr : list A) (z : Z) :
  0 ≤ z < Z.of_nat (length arr) → is_Some (get arr (Num (Int z))).
Proof.
  intros Hz. unfold get. destruct (Z.ltb_spec z 0); [lia|].
  apply lookup_lt_is_Some. lia.
Qed.

Lemma get_index_lookup (arr : list nat) (p e : nat) :
  arr !! p = Some e → get_index arr (Int (Z.of_nat p)) = Num (Int (Z.of_nat e)).
Proof.
  intros Hp. unfold get_index, get.
  destruct (Z.ltb_spec (Z.of_nat p) 0); [lia|].
  by rewrite Nat2Z.id, Hp.
Qed.

(** *** The Fisher-Yates loop *)

Lemma floorScaled_bound (d : draw) (i : nat) : (floorScaled d (i + 1) ≤ i)%nat.
Proof.
  unfold floorScaled. apply Nat.lt_succ_r.
  apply Nat.Div0.div_lt_upper_bound. nia.
Qed.

Lemma floorScaled_onto (i j : nat) :
  (j ≤ i)%nat → floorScaled (mkDraw j (i - j)) (i + 1) = j.
Proof.
  intros Hj. unfold floorScaled. simpl.
  replace (j + (i - j) + 1)%nat with (i + 1)%nat by lia.
  apply Nat.div_mul. lia.
Qed.

Lemma swap_Permutation (a : list nat) (i j : nat) : swap a i j ≡ₚ a.
Proof.
  unfold swap.
  destruct (a !! j) as [aj|] eqn:Hj; [|done].
  destruct (a !! i) as [ai|] eqn:Hi; [|done].
  by apply Permutation_insert_swap.
Qed.

(** Inside the loop both positions exist, so the exchange really happens. *)
Lemma swap_in_range (a : list nat) (i j : nat) :
  (j ≤ i < length a)%nat →
  ∃ ai aj, a !! i = Some ai ∧ a !! j = Some aj ∧ swap a i j = <[j:=ai]> (<[i:=aj]> a).
Proof.
  intros [Hji Hi].
  destruct (lookup_lt_is_Some_2 a i Hi) as [ai Hai].
  destruct (lookup_lt_is_Some_2 a j ltac:(lia)) as [aj Haj].
  exists ai, aj. unfold swap. by rewrite Haj, Hai.
Qed.

Lemma shuffleLoop_Permutation random calls i (a : list nat) :
  shuffleLoop random calls i a ≡ₚ a.
Proof.
  revert calls a. induction i as [|i IH]; intros calls a; simpl; [done|].
  rewrite IH. apply swap_Permutation.
Qed.

Lemma indices_seq (ts : list Track) : imap (λ i _, i) ts = seq 0 (length ts).
Proof.
  rewrite (imap_seq_0 ts (λ i, i)). apply list_fmap_id.
Qed.

Lemma generateShuffledOrder_Permutation random st :
  shuffledOrder (generateShuffledOrder random st) ≡ₚ seq 0 (length (tracks st)).
Proof.
  unfold generateShuffledOrder. simpl.
  rewrite shuffleLoop_Permutation. by rewrite indices_seq.
Qed.

Lemma generateShuffledOrder_frame random st :
  let st' := generateShuffledOrder random st in
  tracks st' = tracks st ∧ currentIndex st' = currentIndex st ∧
  shuffleMode st' = shuffleMode st ∧ shuffledIndex st' = Int 0.
Proof. done. Qed.

(** C3: for every track count and every sequence of random draws, the order
    that [generateShuffledOrder] produces is a bijection over [[0, n)]: it
    is a rearrangement of [0, 1, ..., n-1], so it has length [n], no
    repeated entry, and each index occurs exactly once (and nothing else
    occurs at all). *)
Theorem generateShuffledOrder_bijection (random : nat → draw) (st : State) :
  let order := shuffledOrder (generateShuffledOrder random st) in
  let n := length (tracks st) in
  order ≡ₚ seq 0 n ∧ length order = n ∧ NoDup order ∧
  ∀ k : nat, count_occ Nat.eq_dec order k = if decide (k < n)%nat then 1%nat else 0%nat.
Proof.
  intros order n.
  assert (Hperm : order ≡ₚ seq 0 n) by apply generateShuffledOrder_Permutation.
  split; [done|]. split.
  { rewrite Hperm. apply length_seq. }
  split.
  { rewrite Hperm. apply NoDup_seq. }
  intros k.
  rewrite (proj1 (Permutation_count_occ Nat.eq_dec _ _) Hperm k).
  pose proof (proj1 (List.NoDup_count_occ Nat.eq_dec (seq 0 n))
                (List.seq_NoDup n 0) k) as Hle.
  pose proof (List.count_occ_In Nat.eq_dec (seq 0 n) k) as Hin.
  rewrite List.in_seq in Hin.
  destruct (decide (k < n)%nat) as [Hlt|Hge].
  - assert (count_occ Nat.eq_dec (seq 0 n) k > 0)%nat by (apply Hin; lia). lia.
  - destruct (count_occ Nat.eq_dec (seq 0 n) k) as [|c] eqn:Hc; [done|].
    exfalso. apply Hge. apply Hin. lia.
Qed.

(** *** Loading and playing a track *)

Lemma loadTrack_out_of_range (z : Z) (st : State) :
  z < 0 ∨ Z.of_nat (length (tracks st)) ≤ z →
  loadTrack (Num (Int z)) st = Ok st.
Proof.
  intros Hz. unfold loadTrack, trackCount. simpl.
  destruct (Z.ltb_spec z 0); [done|].
  destruct (Z.leb_spec (Z.of_nat (length (tracks st))) z); [done | lia].
Qed.

Lemma loadTrack_in_range (z : Z) (st : State) :
  0 ≤ z < Z.of_nat (length (tracks st)) →
  ∃ t, tracks st !! Z.to_nat z = Some t ∧
       loadTrack (Num (Int z)) st = Ok (loaded z t st).
Proof.
  intros Hz. unfold loadTrack, trackCount. simpl.
  destruct (Z.ltb_spec z 0); [lia|].
  destruct (Z.leb_spec (Z.of_nat (length (tracks st))) z); [lia|]. simpl.
  destruct (lookup_lt_is_Some_2 (tracks st) (Z.to_nat z)) as [t Ht]; [lia|].
  exists t. by rewrite Ht.
Qed.

Lemma playTrack_out_of_range (z : Z) (st : State) :
  z < 0 ∨ Z.of_nat (length (tracks st)) ≤ z →
  playTrack (Num (Int z)) st =
    Ok (if shuffleMode st
        then set_shuffledIndex (indexOf (shuffledOrder st) (Num (Int z))) st
        else st).
Proof. intros Hz. unfold playTrack. by rewrite loadTrack_out_of_range. Qed.

Lemma playTrack_in_range (z : Z) (st : State) :
  0 ≤ z < Z.of_nat (length (tracks st)) →
  ∃ t, tracks st !! Z.to_nat z = Some t ∧
       playTrack (Num (Int z)) st =
         Ok (if shuffleMode st
             then set_shuffledIndex (indexOf (shuffledOrder st) (Num (Int z)))
                                    (loaded z t st)
             else loaded z t st).
Proof.
  intros Hz. destruct (loadTrack_in_range z st Hz) as (t & Ht & Hload).
  exists t. split; [done|]. unfold playTrack. by rewrite Hload.
Qed.

(** A call with an integer index never throws. *)
Lemma playTrack_integer (z : Z) (st : State) :
  ∃ st', playTrack (Num (Int z)) st = Ok st' ∧ tracks st' = tracks st ∧
         shuffleMode st' = shuffleMode st ∧ shuffledOrder st' = shuffledOrder st.
Proof.
  destruct (decide (0 ≤ z < Z.of_nat (length (tracks st)))) as [Hin|Hout].
  - destruct (playTrack_in_range z st Hin) as (t & _ & ->).
    eexists. split; [done|]. unfold loaded. by destruct (shuffleMode st) eqn:E.
  - rewrite playTrack_out_of_range by lia.
    eexists. split; [done|]. by destruct (shuffleMode st) eqn:E.
Qed.

(** *** Sequential mode *)



Lemma playPrevious_restart (st : State) :
  length (tracks st) ≠ 0%nat → pastRestartThreshold st = true →
  playPrevious st = Ok (set_audio_currentTime (0 # 1)%Q st).
Proof.
  intros Hn Htime. unfold playPrevious.
  destruct (decide (length (tracks st) = 0%nat)); [done|]. by rewrite Htime.
Qed.







(** *** Shuffled mode *)

Lemma order_lookup (order : list nat) (n : nat) (q : Z) :
  order ≡ₚ seq 0 n → 0 ≤ q < Z.of_nat n →
  ∃ e : nat, order !! Z.to_nat q = Some e ∧ (e < n)%nat.
Proof.
  intros Hperm Hq.
  assert (Hlen : length order = n) by (by rewrite Hperm, length_seq).
  destruct (lookup_lt_is_Some_2 order (Z.to_nat q)) as [e He]; [lia|].
  exists e. split; [done|].
  assert (Hin : e ∈ seq 0 n).
  { rewrite <- Hperm. by eapply list_elem_of_lookup_2. }
  apply elem_of_seq in Hin. lia.
Qed.

(** Playing the entry under the cursor [q] of a well-formed order. *)
Lemma playTrack_at_cursor (st : State) (q : Z) :
  shuffleMode st = true →
  shuffledOrder st ≡ₚ seq 0 (length (tracks st)) →
  0 ≤ q < Z.of_nat (length (tracks st)) →
  ∃ (e : nat) st',
    shuffledOrder st !! Z.to_nat q = Some e ∧
    playTrack (get_index (shuffledOrder st) (Int q)) st = Ok st' ∧
    currentIndex st' = Num (Int (Z.of_nat e)) ∧ shuffledIndex st' = Int q ∧
    shuffledOrder st' = shuffledOrder st ∧ tracks st' = tracks st ∧
    shuffleMode st' = true.
Proof.
  intros Hmode Hperm Hq.
  destruct (order_lookup _ _ q Hperm Hq) as (e & He & Hlt).
  assert (Hnd : NoDup (shuffledOrder st)) by (rewrite Hperm; apply NoDup_seq).
  assert (Hget : get_index (shuffledOrder st) (Int q) = Num (Int (Z.of_nat e))).
  { rewrite <- (get_index_lookup _ _ _ He). by rewrite Z2Nat.id by lia. }
  rewrite Hget.
  destruct (playTrack_in_range (Z.of_nat e) st) as (t & _ & Hplay); [lia|].
  rewrite Hmode in Hplay.
  exists e. eexists. split; [done|]. split; [exact Hplay|].
  simpl. split; [done|]. split; [|done].
  destruct (Z.ltb_spec (Z.of_nat e) 0); [lia|].
  rewrite Nat2Z.id, (find_from_NoDup _ _ _ Hnd He). f_equal. lia.
Qed.

Lemma playNext_shuffled (st : State) (p : Z) :
  shuffleMode st = true →
  shuffledOrder st ≡ₚ seq 0 (length (tracks st)) →
  (1 ≤ length (tracks st))%nat →
  shuffledIndex st = Int p → -1 ≤ p →
  let q := Z.rem (p + 1) (Z.of_nat (length (tracks st))) in
  ∃ (e : nat) st',
    shuffledOrder st !! Z.to_nat q = Some e ∧ playNext st = Ok st' ∧
    currentIndex st' = Num (Int (Z.of_nat e)) ∧ shuffledIndex st' = Int q ∧
    shuffledOrder st' = shuffledOrder st ∧ tracks st' = tracks st ∧
    shuffleMode st' = true.
Proof.
  intros Hmode Hperm Hn Hcur Hp q.
  assert (Hlen : length (shuffledOrder st) = length (tracks st))
    by (by rewrite Hperm, length_seq).
  assert (Hq : 0 ≤ q < Z.of_nat (length (tracks st)))
    by (apply Z.rem_bound_pos; lia).
  unfold playNext.
  destruct (decide (length (tracks st) = 0%nat)); [lia|].
  rewrite Hmode, Hcur. unfold orderLength. rewrite Hlen. simpl.
  destruct (Z.eqb_spec (Z.of_nat (length (tracks st))) 0); [lia|]. fold q.
  destruct (playTrack_at_cursor (set_shuffledIndex (Int q) st) q Hmode Hperm Hq)
    as (e & st' & He & Hplay & Hrest).
  exists e, st'. done.
Qed.

Lemma playPrevious_shuffled (st : State) (p : Z) :
  shuffleMode st = true →
  shuffledOrder st ≡ₚ seq 0 (length (tracks st)) →
  (1 ≤ length (tracks st))%nat →
  shuffledIndex st = Int p → -1 ≤ p →
  pastRestartThreshold st = false →
  let n := Z.of_nat (length (tracks st)) in
  let q := Z.rem (p - 1 + n) n in
  ∃ (e : nat) st',
    shuffledOrder st !! Z.to_nat q = Some e ∧ playPrevious st = Ok st' ∧
    currentIndex st' = Num (Int (Z.of_nat e)) ∧ shuffledIndex st' = Int q ∧
    shuffledOrder st' = shuffledOrder st ∧ tracks st' = tracks st ∧
    shuffleMode st' = true.
Proof.
  intros Hmode Hperm Hn Hcur Hp Htime n q.
  assert (Hlen : length (shuffledOrder st) = length (tracks st))
    by (by rewrite Hperm, length_seq).
  assert (Hq : 0 ≤ q < n).
  { unfold q. destruct (decide (0 ≤ p - 1 + n)) as [Hpos|Hneg].
    - apply Z.rem_bound_pos; lia.
    - assert (n = 1) as -> by lia. rewrite Z.rem_1_r. lia. }
  unfold playPrevious.
  destruct (decide (length (tracks st) = 0%nat)); [lia|].
  rewrite Htime, Hmode, Hcur. unfold orderLength. rewrite Hlen. simpl. fold n.
  destruct (Z.eqb_spec n 0); [lia|]. fold q.
  destruct (playTrack_at_cursor (set_shuffledIndex (Int q) st) q Hmode Hperm Hq)
    as (e & st' & He & Hplay & Hrest).
  exists e, st'. done.
Qed.

(** The calls that the guards of the engine do make safe: with no tracks,
    [playNext] and [playPrevious] return without an error and leave the
    whole state as it was; [loadTrack] and [playTrack] ignore every
    out-of-range integer index without an error and keep the current
    index; [playNext] and [playPrevious] raise no error for any integer
    current index in sequential mode, nor in shuffled mode when the order
    is a bijection over [[0, n)] and the cursor is at least [-1]. *)
Lemma order_engine_safe_calls (st : State) :
  (tracks st = [] → playNext st = Ok st ∧ playPrevious st = Ok st) ∧
  (∀ z : Z,
     z < 0 ∨ Z.of_nat (length (tracks st)) ≤ z →
     loadTrack (Num (Int z)) st = Ok st ∧
     ∃ st', playTrack (Num (Int z)) st = Ok st' ∧
            currentIndex st' = currentIndex st ∧ tracks st' = tracks st ∧
            shuffleMode st' = shuffleMode st ∧
            shuffledOrder st' = shuffledOrder st) ∧
  (shuffleMode st = false →
   ∀ c : Z, currentIndex st = Num (Int c) →
     (∃ st', playNext st = Ok st') ∧ (∃ st', playPrevious st = Ok st')) ∧
  (shuffleMode st = true →
   shuffledOrder st ≡ₚ seq 0 (length (tracks st)) →
   ∀ p : Z, shuffledIndex st = Int p → -1 ≤ p →
     (∃ st', playNext st = Ok st') ∧ (∃ st', playPrevious st = Ok st')).
Proof.
  split; [|split; [|split]].
  - intros Hempty. unfold playNext, playPrevious. rewrite Hempty. done.
  - intros z Hz. split; [by apply loadTrack_out_of_range|].
    rewrite playTrack_out_of_range by done.
    eexists. split; [done|]. by destruct (shuffleMode st) eqn:E.
  - intros Hmode c Hcur. split.
    + unfold playNext. destruct (decide (length (tracks st) = 0%nat)); [by eexists|].
      rewrite Hmode, Hcur. unfold trackCount. simpl.
      destruct (Z.eqb_spec (Z.of_nat (length (tracks st))) 0); [lia|].
      destruct (playTrack_integer (Z.rem (c + 1) (Z.of_nat (length (tracks st)))) st)
        as (st' & -> & _). by eexists.
    + unfold playPrevious. destruct (decide (length (tracks st) = 0%nat)); [by eexists|].
      destruct (pastRestartThreshold st); [by eexists|].
      rewrite Hmode, Hcur. unfold trackCount. simpl.
      destruct (Z.eqb_spec (Z.of_nat (length (tracks st))) 0); [lia|].
      destruct (playTrack_integer
                  (Z.rem (c - 1 + Z.of_nat (length (tracks st)))
                         (Z.of_nat (length (tracks st)))) st)
        as (st' & -> & _). by eexists.
  - intros Hmode Hperm p Hcur Hp.
    destruct (decide (length (tracks st) = 0%nat)) as [Hz|Hnz].
    { unfold playNext, playPrevious.
      destruct (decide (length (tracks st) = 0%nat)); [|done].
      split; by eexists. }
    split.
    + destruct (playNext_shuffled st p Hmode Hperm ltac:(lia) Hcur Hp)
        as (e & st' & _ & -> & _). by eexists.
    + destruct (pastRestartThreshold st) eqn:Htime.
      * rewrite playPrevious_restart by done. by eexists.
      * destruct (playPrevious_shuffled st p Hmode Hperm ltac:(lia) Hcur Hp Htime)
          as (e & st' & _ & -> & _). by eexists.
Qed.

(** The guards at concrete inputs: an empty list, and an index past the
    end. *)
Lemma order_engine_safe_calls_scenario :
  (playNext (sampleState 0 0 true [2; 0; 1]%nat 1 (7 # 2)%Q)
     = Ok (sampleState 0 0 true [2; 0; 1]%nat 1 (7 # 2)%Q) ∧
   playPrevious (sampleState 0 0 true [2; 0; 1]%nat 1 (7 # 2)%Q)
     = Ok (sampleState 0 0 true [2; 0; 1]%nat 1 (7 # 2)%Q)) ∧
  loadTrack (Num (Int 9)) (sampleState 3 1 false [] 0 (0 # 1)%Q)
    = Ok (sampleState 3 1 false [] 0 (0 # 1)%Q).
Proof.
  split.
  - exact (proj1 (order_engine_safe_calls
                    (sampleState 0 0 true [2; 0; 1]%nat 1 (7 # 2)%Q)) eq_refl).
  - assert (Hz : 9 < 0 ∨ Z.of_nat (length (tracks (sampleState 3 1 false [] 0 (0 # 1)%Q))) ≤ 9)
      by (right; vm_compute; discriminate).
    exact (proj1 (proj1 (proj2 (order_engine_safe_calls
                    (sampleState 3 1 false [] 0 (0 # 1)%Q))) 9 Hz)).
Defined.

(** C2 (amended): switching to shuffled mode with a non-empty track list
    generates a fresh order, a bijection over [[0, n)], and sets the cursor
    to the position of the current index in it; when the current index is
    not in the order the cursor becomes [-1]; with an empty track list
    nothing is generated and order and cursor stay as they were. *)
Theorem toggleShuffle_to_shuffled (random : nat → draw) (st : State) :
  shuffleMode st = false →
  let st' := toggleShuffle random st in
  let n := length (tracks st) in
  shuffleMode st' = true ∧ tracks st' = tracks st ∧
  currentIndex st' = currentIndex st ∧
  (n = 0%nat → st' = set_shuffleMode true st) ∧
  (n ≠ 0%nat →
   shuffledOrder st' =
     shuffledOrder (generateShuffledOrder random (set_shuffleMode true st)) ∧
   shuffledOrder st' ≡ₚ seq 0 n ∧
   (∀ c : nat, currentIndex st = Num (Int (Z.of_nat c)) → (c < n)%nat →
      ∃ p : nat, shuffledIndex st' = Int (Z.of_nat p) ∧
                 shuffledOrder st' !! p = Some c) ∧
   ((∀ c : nat, (c < n)%nat → currentIndex st ≠ Num (Int (Z.of_nat c))) →
      shuffledIndex st' = Int (-1))).
Proof.
  intros Hmode st' n. unfold st', toggleShuffle. rewrite Hmode. simpl.
  destruct (decide (length (tracks st) = 0%nat)) as [Hz|Hnz].
  { rewrite bool_decide_eq_true_2 by done. simpl. done. }
  rewrite bool_decide_eq_false_2 by done. simpl.
  split; [done|]. split; [done|]. split; [done|]. split; [done|].
  intros _. split; [done|].
  pose proof (generateShuffledOrder_Permutation random (set_shuffleMode true st)) as Hperm.
  simpl in Hperm. fold n in Hperm.
  split; [done|]. split.
  - intros c Hcur Hc. rewrite Hcur. simpl.
    destruct (Z.ltb_spec (Z.of_nat c) 0); [lia|]. rewrite Nat2Z.id.
    set (order := shuffleLoop _ _ _ _) in *.
    destruct (find_from_elem order c 0) as (p & Hp & Hl).
    { rewrite Hperm. apply elem_of_seq. lia. }
    exists p. rewrite Hp. split; [f_equal; lia | done].
  - intros Hnot.
    set (order := shuffleLoop _ _ _ _) in *.
    destruct (currentIndex st) as [|[z|]]; simpl; try done.
    destruct (Z.ltb_spec z 0); [done|].
    rewrite find_from_not_elem; [done|].
    rewrite Hperm. intros Hin%elem_of_seq.
    apply (Hnot (Z.to_nat z)); [lia|]. by rewrite Z2Nat.id by lia.
Qed.

(** C2 at the scenario of the specification: five tracks, current index 2. *)
Lemma toggleShuffle_to_shuffled_witness :
  ∃ p : nat,
    shuffledIndex (toggleShuffle sampleRandom (sampleState 5 2 false [] 0 (0 # 1)%Q))
      = Int (Z.of_nat p) ∧
    shuffledOrder (toggleShuffle sampleRandom (sampleState 5 2 false [] 0 (0 # 1)%Q)) !! p
      = Some 2%nat.
Proof.
  assert (Hn : length (tracks (sampleState 5 2 false [] 0 (0 # 1)%Q)) ≠ 0%nat)
    by (vm_compute; discriminate).
  assert (Hc : (2 < length (tracks (sampleState 5 2 false [] 0 (0 # 1)%Q)))%nat)
    by (vm_compute; lia).
  destruct (toggleShuffle_to_shuffled sampleRandom
              (sampleState 5 2 false [] 0 (0 # 1)%Q) eq_refl)
    as (_ & _ & _ & _ & Hgen).
  destruct (Hgen Hn) as (_ & _ & Hfound & _).
  exact (Hfound 2%nat eq_refl Hc).
Defined.

(** C2 as stated fails: with two tracks and a current index of 5, which is
    in no order over two tracks, the cursor becomes [-1], not [0]; and with
    no tracks a cursor of 3 stays 3 and the stale order is kept. *)
Lemma toggleShuffle_fallback_counterexample :
  let st' := toggleShuffle sampleRandom (sampleState 2 5 false [] 0 (0 # 1)%Q) in
  let st0 := toggleShuffle sampleRandom (sampleState 0 0 false [1; 0]%nat 3 (0 # 1)%Q) in
  (5%nat ∉ shuffledOrder st') ∧ shuffledIndex st' = Int (-1) ∧
  shuffledIndex st' ≠ Int 0 ∧
  shuffledIndex st0 = Int 3 ∧ shuffledOrder st0 = [1; 0]%nat.
Proof.
  vm_compute. split; [|done].
  intros H. repeat (apply elem_of_cons in H as [H|H]; [discriminate|]).
  by apply elem_of_nil in H.
Qed.

(** C10 (amended): for every track count [n >= 1], whatever the current
    track and the previous cursor, [generateShuffledOrder] sets the cursor
    to 0, and the next [playNext] in shuffled mode plays the entry of the
    new order at position [1 mod n]: position 1 when there are at least
    two tracks, position 0 when there is only one. *)
Theorem generateShuffledOrder_then_next (random : nat → draw) (st : State) :
  shuffleMode st = true →
  (1 ≤ length (tracks st))%nat →
  let st1 := generateShuffledOrder random st in
  let p := (1 mod length (tracks st))%nat in
  shuffledIndex st1 = Int 0 ∧
  ∃ (e : nat) st2,
    shuffledOrder st1 !! p = Some e ∧ playNext st1 = Ok st2 ∧
    currentIndex st2 = Num (Int (Z.of_nat e)) ∧
    shuffledIndex st2 = Int (Z.of_nat p).
Proof.
  intros Hmode Hn st1 p. split; [done|].
  pose proof (generateShuffledOrder_Permutation random st) as Hperm.
  destruct (playNext_shuffled st1 0 Hmode Hperm Hn eq_refl ltac:(lia))
    as (e & st2 & He & Hnext & Hidx & Hcur & _).
  assert (Hq : Z.rem (0 + 1) (Z.of_nat (length (tracks st1))) = Z.of_nat p).
  { change (tracks st1) with (tracks st). change (0 + 1) with 1.
    unfold p. rewrite Z.rem_mod_nonneg by lia. by rewrite Nat2Z.inj_mod. }
  rewrite Hq in He, Hcur. rewrite Nat2Z.id in He.
  exists e, st2. done.
Qed.

(** C10 with five tracks: after regenerating, [playNext] moves the cursor
    to position 1 and plays the entry there. *)
Lemma generateShuffledOrder_then_next_witness :
  ∃ (e : nat) st2,
    shuffledOrder (generateShuffledOrder sampleRandom
                     (sampleState 5 3 true [] 7 (0 # 1)%Q)) !! 1%nat = Some e ∧
    playNext (generateShuffledOrder sampleRandom
                (sampleState 5 3 true [] 7 (0 # 1)%Q)) = Ok st2 ∧
    currentIndex st2 = Num (Int (Z.of_nat e)) ∧ shuffledIndex st2 = Int 1.
Proof.
  assert (Hn : (1 ≤ length (tracks (sampleState 5 3 true [] 7 (0 # 1)%Q)))%nat)
    by (vm_compute; lia).
  exact (proj2 (generateShuffledOrder_then_next sampleRandom
                  (sampleState 5 3 true [] 7 (0 # 1)%Q) eq_refl Hn)).
Defined.

(** C10 as stated fails for a single track: the new order has no entry at
    position 1, and [playNext] plays the entry at position 0. *)
Lemma generateShuffledOrder_single_track_counterexample :
  let st1 := generateShuffledOrder sampleRandom (sampleState 1 0 true [] 7 (0 # 1)%Q) in
  shuffledOrder st1 !! 1%nat = None ∧
  ∃ st2, playNext st1 = Ok st2 ∧ shuffledIndex st2 = Int 0 ∧
         shuffledIndex st2 ≠ Int 1 ∧ currentIndex st2 = Num (Int 0).
Proof.
  split; [reflexivity|]. eexists.
  split; [reflexivity|]. split; [reflexivity|]. split; [discriminate | reflexivity].
Qed.

End PlayerFacts.

(** ** Properties of the storage layer *)

Module StorageFacts.
Import Storage.

(** *** Transactions *)

Lemma quiet_or_noisy (failing : Env) (k n : nat) :
  quiet failing k n ∨ noisy failing k n.
Proof.
  induction n as [|n [IH|IH]].
  - left. intros j Hj. lia.
  - destruct (failing (k + n)%nat) eqn:Hn.
    + right. exists n. split; [lia | done].
    + left. intros j Hj. destruct (decide (j = n)) as [->|]; [done|]. apply IH. lia.
  - right. destruct IH as (j & Hj & Hf). exists j. split; [lia | done].
Qed.

Lemma quiet_not_noisy (failing : Env) (k n : nat) :
  quiet failing k n → noisy failing k n → False.
Proof. intros Hq (j & Hj & Hf). rewrite (Hq j Hj) in Hf. done. Qed.

Lemma quiet_S (failing : Env) (k n : nat) :
  quiet failing k (S n) ↔ failing k = false ∧ quiet failing (S k) n.
Proof.
  split.
  - intros H. split.
    + rewrite <- (Nat.add_0_r k). apply H. lia.
    + intros j Hj. replace (S k + j)%nat with (k + S j)%nat by lia. apply H. lia.
  - intros [H0 H] j Hj. destruct j as [|j].
    + by rewrite Nat.add_0_r.
    + replace (k + S j)%nat with (S k + j)%nat by lia. apply H. lia.
Qed.

Lemma executeAll_quiet (failing : Env) (k : nat) (rs : list request) (db : DB) :
  quiet failing k (length rs) → executeAll failing k rs db = performAll rs db.
Proof.
  revert k db. induction rs as [|r rs IH]; intros k db Hq; simpl; [done|].
  apply quiet_S in Hq as [H0 Hq]. unfold execute. rewrite H0.
  destruct (perform r db); [by apply IH | done].
Qed.

Lemma executeAll_noisy (failing : Env) (k : nat) (rs : list request) (db : DB) :
  noisy failing k (length rs) → executeAll failing k rs db = None.
Proof.
  revert k db. induction rs as [|r rs IH]; intros k db (j & Hj & Hf); simpl in *; [lia|].
  unfold execute. destruct (failing k) eqn:H0; [done|].
  destruct (perform r db) as [db1|]; [|done].
  apply IH. destruct j as [|j].
  - rewrite Nat.add_0_r in Hf. congruence.
  - exists j. split; [lia|]. by replace (S k + j)%nat with (k + S j)%nat by lia.
Qed.

Lemma performAll_app (rs1 rs2 : list request) (db : DB) :
  performAll (rs1 ++ rs2) db =
    match performAll rs1 db with
    | Some db1 => performAll rs2 db1
    | None => None
    end.
Proof.
  revert db. induction rs1 as [|r rs1 IH]; intros db; simpl; [done|].
  destruct (perform r db); [apply IH | done].
Qed.

(** *** Well-formed databases *)

Lemma wf_emptyDB : wf emptyDB.
Proof.
  split; simpl.
  - intros k p Hk. by rewrite lookup_empty in Hk.
  - constructor.
  - constructor.
Qed.

Lemma wf_fresh_playlist (db : DB) : wf db → playlists db !! playlistKey db = None.
Proof.
  intros Hwf. destruct (playlists db !! playlistKey db) as [p|] eqn:Hp; [|done].
  apply (wf_playlists _ Hwf) in Hp. lia.
Qed.

Lemma wf_tracksOf_fresh (db : DB) : wf db → tracksOf (playlistKey db) db = [].
Proof.
  intros Hwf. unfold tracksOf.
  pose proof (wf_tracks _ Hwf) as Hall.
  induction (tracks db) as [|t ts IH]; [done|].
  apply Forall_cons in Hall as [[_ Ht] Hall].
  rewrite filter_cons_False by lia. by apply IH.
Qed.

(** *** What [savePlaylist] issues and stores *)

Lemma length_savedData pid i ts : length (savedData pid i ts) = length ts.
Proof. revert i. induction ts as [|t ts IH]; intros i; simpl; [done | by rewrite IH]. Qed.

Lemma length_savedRecords key ds : length (savedRecords key ds) = length ds.
Proof. revert key. induction ds as [|d ds IH]; intros key; simpl; [done | by rewrite IH]. Qed.

Lemma trackRequests_allBlobs pid i total ts :
  allBlobs ts →
  trackRequests pid i total ts =
    (AddTrack <$> savedData pid i ts, Some (total + sumZ (size <$> savedData pid i ts))).
Proof.
  revert i total. induction ts as [|t ts IH]; intros i total Hall; simpl.
  - by rewrite Z.add_0_r.
  - apply Forall_cons in Hall as [Ht Hall]. rewrite Ht, (IH _ _ Hall).
    do 2 f_equal. unfold sumZ. simpl. symmetry. apply Z.add_assoc.
Qed.

(** The first track that is not a [Blob] ends the loop. *)
Lemma trackRequests_suspended pid i total ts1 t ts2 :
  allBlobs ts1 → instanceOfBlob (track_file t) = false →
  trackRequests pid i total (ts1 ++ t :: ts2) = (AddTrack <$> savedData pid i ts1, None).
Proof.
  revert i total. induction ts1 as [|t1 ts1 IH]; intros i total Hall Ht; simpl.
  - by rewrite Ht.
  - apply Forall_cons in Hall as [Ht1 Hall]. by rewrite Ht1, (IH _ _ Hall Ht).
Qed.

Lemma trackRequests_length pid i total ts :
  (length (trackRequests pid i total ts).1 ≤ length ts)%nat.
Proof.
  revert i total. induction ts as [|t ts IH]; intros i total; [done|].
  cbn [trackRequests]. destruct (instanceOfBlob (track_file t)); [|simpl; lia].
  cbv zeta. specialize (IH (S i) (total + size (trackData pid i t))).
  destruct (trackRequests pid (S i) (total + size (trackData pid i t)) ts) as [rs final].
  simpl in *. lia.
Qed.

(** Adding tracks under fresh keys appends their records. *)
Lemma performAll_adds (ds : list TrackData) (db : DB) :
  Forall (λ t, id t < trackKey db) (tracks db) →
  performAll (AddTrack <$> ds) db =
    Some (mkDB (playlists db) (playlistKey db)
               (tracks db ++ savedRecords (trackKey db) ds)
               (trackKey db + Z.of_nat (length ds)) (preferences db)).
Proof.
  revert db. induction ds as [|d ds IH]; intros db Hkeys; simpl.
  - rewrite app_nil_r, Z.add_0_r. by destruct db.
  - rewrite bool_decide_eq_false_2.
    + rewrite IH; simpl.
      * rewrite <- app_assoc. simpl. do 2 f_equal. lia.
      * apply Forall_app. split.
        -- eapply Forall_impl; [exact Hkeys|]. simpl. intros t Ht. lia.
        -- constructor; [simpl; lia | constructor].
    + intros Hin. apply list_elem_of_fmap in Hin as (t & Heq & Hin).
      rewrite Forall_forall in Hkeys. specialize (Hkeys t Hin). lia.
Qed.

Lemma savedData_imap pid i ts :
  savedData pid i ts = imap (λ j, trackData pid (i + j)) ts.
Proof.
  revert i. induction ts as [|t ts IH]; intros i; simpl; [done|].
  rewrite Nat.add_0_r, IH. f_equal. apply imap_ext. intros j x _. simpl.
  f_equal. lia.
Qed.

Lemma data_savedRecords key ds : data <$> savedRecords key ds = ds.
Proof. revert key. induction ds as [|d ds IH]; intros key; simpl; [done | by rewrite IH]. Qed.

Lemma order_savedData pid i ts : order <$> savedData pid i ts = seq i (length ts).
Proof. revert i. induction ts as [|t ts IH]; intros i; simpl; [done | by rewrite IH]. Qed.

Lemma size_savedData pid i ts :
  size <$> savedData pid i ts = (λ t, blob_size (file_content (track_file t))) <$> ts.
Proof. revert i. induction ts as [|t ts IH]; intros i; simpl; [done | by rewrite IH]. Qed.

Lemma playlistId_savedRecords key pid i ts :
  Forall (λ r, playlistId (data r) = pid) (savedRecords key (savedData pid i ts)).
Proof.
  revert key i. induction ts as [|t ts IH]; intros key i; simpl; constructor; [done|].
  apply IH.
Qed.

Lemma id_savedRecords key ds :
  Forall (λ r, key ≤ id r < key + Z.of_nat (length ds)) (savedRecords key ds).
Proof.
  revert key. induction ds as [|d ds IH]; intros key; simpl; constructor.
  - simpl. lia.
  - eapply Forall_impl; [apply IH|]. simpl. intros r Hr. lia.
Qed.

Lemma NoDup_id_savedRecords key ds : NoDup (id <$> savedRecords key ds).
Proof.
  revert key. induction ds as [|d ds IH]; intros key; simpl; constructor; [|apply IH].
  intros Hin. apply list_elem_of_fmap in Hin as (r & Heq & Hin).
  pose proof (id_savedRecords (key + 1) ds) as Hall.
  rewrite Forall_forall in Hall. specialize (Hall r Hin). lia.
Qed.

Lemma filter_all {A : Type} (P : A → Prop) `{!∀ x, Decision (P x)} (l : list A) :
  Forall P l → filter P l = l.
Proof.
  induction 1 as [|x l Hx _ IH]; [done|]. by rewrite filter_cons_True, IH.
Qed.

Lemma filter_none {A : Type} (P : A → Prop) `{!∀ x, Decision (P x)} (l : list A) :
  Forall (λ x, ¬ P x) l → filter P l = [].
Proof.
  induction 1 as [|x l Hx _ IH]; [done|]. by rewrite filter_cons_False.
Qed.

Lemma tracksOf_savedDB_new now name' ts db :
  wf db →
  tracksOf (playlistKey db) (savedDB now name' ts db) =
    savedRecords (trackKey db) (savedData (playlistKey db) 0 ts).
Proof.
  intros Hwf. unfold tracksOf. simpl. rewrite filter_app.
  fold (tracksOf (playlistKey db) db). rewrite (wf_tracksOf_fresh _ Hwf). simpl.
  apply filter_all, playlistId_savedRecords.
Qed.

Lemma tracksOf_savedDB_old now name' ts db k :
  k ≠ playlistKey db → tracksOf k (savedDB now name' ts db) = tracksOf k db.
Proof.
  intros Hk. unfold tracksOf. simpl. rewrite filter_app.
  rewrite (filter_none _ (savedRecords _ _)); [by rewrite app_nil_r|].
  eapply Forall_impl; [apply playlistId_savedRecords|]. simpl. congruence.
Qed.

(** A save whose requests all succeed commits [savedDB]. *)
Lemma savePlaylist_commits failing now name' ts db :
  wf db → allBlobs ts → quiet failing 0 (length ts + 2) →
  savePlaylist failing now name' ts db = (Resolved (playlistKey db), savedDB now name' ts db).
Proof.
  intros Hwf Hblobs Hq. unfold savePlaylist, execute.
  replace (length ts + 2)%nat with (S (length ts + 1)) in Hq by lia.
  apply quiet_S in Hq as [H0 Hq]. rewrite H0. simpl.
  rewrite (wf_fresh_playlist _ Hwf).
  rewrite (trackRequests_allBlobs _ _ _ _ Hblobs).
  rewrite executeAll_quiet
    by (by rewrite length_app, length_fmap, length_savedData).
  rewrite performAll_app, performAll_adds.
  2:{ simpl. eapply Forall_impl; [apply (wf_tracks _ Hwf)|]. simpl. tauto. }
  simpl. f_equal. unfold savedDB. rewrite length_savedData, Z.add_0_l.
  f_equal.
  - by rewrite insert_insert_eq.
  - lia.
Qed.

(** A save with a failing request leaves the database as it was. *)
Lemma savePlaylist_aborts failing now name' ts db :
  allBlobs ts → noisy failing 0 (length ts + 2) →
  (savePlaylist failing now name' ts db).2 = db.
Proof.
  intros Hblobs (j & Hj & Hf). unfold savePlaylist, execute.
  destruct (failing 0%nat) eqn:H0; [done|].
  destruct (perform _ db) as [db1|]; [|done].
  rewrite (trackRequests_allBlobs _ _ _ _ Hblobs).
  rewrite executeAll_noisy; [done|].
  rewrite length_app, length_fmap, length_savedData. simpl.
  destruct j as [|j]; [simpl in Hf; congruence|].
  exists j. split; [lia | done].
Qed.

(** A save that meets a file which is not a [Blob] commits what it had
    issued before the [await], and its promise stays pending. *)
Lemma savePlaylist_suspends failing now name' before t after db :
  wf db → allBlobs before → instanceOfBlob (track_file t) = false →
  quiet failing 0 (length before + 1) →
  savePlaylist failing now name' (before ++ t :: after) db =
    (Pending, suspendedDB now name' (length (before ++ t :: after)) before db).
Proof.
  intros Hwf Hblobs Ht Hq. unfold savePlaylist, execute.
  replace (length before + 1)%nat with (S (length before)) in Hq by lia.
  apply quiet_S in Hq as [H0 Hq]. rewrite H0. simpl.
  rewrite (wf_fresh_playlist _ Hwf).
  rewrite (trackRequests_suspended _ _ _ _ _ _ Hblobs Ht).
  rewrite executeAll_quiet by (by rewrite length_fmap, length_savedData).
  rewrite performAll_adds.
  2:{ simpl. eapply Forall_impl; [apply (wf_tracks _ Hwf)|]. simpl. tauto. }
  simpl. by rewrite length_savedData.
Qed.

(** The save is all or nothing when no file has to be converted: for
    every name and every list of tracks whose files are [Blob] instances,
    and whichever requests fail, a save either persists the playlist
    record and all of its track records, with orders
    0, 1, ..., n-1 and [totalSize] patched to the sum of the stored blob
    sizes, or, when a request of the transaction fails, leaves the database
    exactly as it was; nothing else in the database changes. *)
Lemma savePlaylist_atomic (failing : Env) (now name' : string)
    (tracks' : list Track) (db : DB) :
  wf db → allBlobs tracks' →
  let db' := (savePlaylist failing now name' tracks' db).2 in
  let pid := playlistKey db in
  (noisy failing 0 (length tracks' + 2) ∧ db' = db) ∨
  (quiet failing 0 (length tracks' + 2) ∧
   playlists db' !! pid =
     Some (mkPlaylist name' (length tracks') now
                      (sumZ ((λ r, size (data r)) <$> tracksOf pid db'))) ∧
   data <$> tracksOf pid db' = imap (trackData pid) tracks' ∧
   (λ r, order (data r)) <$> tracksOf pid db' = seq 0 (length tracks') ∧
   (λ r, size (data r)) <$> tracksOf pid db' =
     (λ t, blob_size (file_content (track_file t))) <$> tracks' ∧
   (∀ k, k ≠ pid →
      playlists db' !! k = playlists db !! k ∧ tracksOf k db' = tracksOf k db) ∧
   preferences db' = preferences db).
Proof.
  intros Hwf Hblobs db' pid.
  destruct (quiet_or_noisy failing 0 (length tracks' + 2)) as [Hq|Hn].
  - right. split; [done|]. unfold db'.
    rewrite (savePlaylist_commits _ _ _ _ _ Hwf Hblobs Hq). cbn [snd].
    rewrite (tracksOf_savedDB_new _ _ _ _ Hwf). fold pid.
    assert (Hdata : data <$> savedRecords (trackKey db) (savedData pid 0 tracks')
                    = savedData pid 0 tracks') by apply data_savedRecords.
    assert (Hsize : (λ r, size (data r)) <$> savedRecords (trackKey db) (savedData pid 0 tracks')
                    = size <$> savedData pid 0 tracks').
    { rewrite <- Hdata at 2. by rewrite <- list_fmap_compose. }
    split; [|split; [|split; [|split; [|split]]]].
    + simpl. rewrite lookup_insert_eq. by rewrite Hsize.
    + rewrite Hdata. apply savedData_imap.
    + rewrite <- (order_savedData pid 0 tracks'). rewrite <- Hdata at 2.
      by rewrite <- list_fmap_compose.
    + rewrite Hsize. apply size_savedData.
    + intros k Hk. split.
      * simpl. by rewrite lookup_insert_ne.
      * by apply tracksOf_savedDB_old.
    + done.
  - left. split; [done|]. by apply savePlaylist_aborts.
Qed.

(** *** What [deletePlaylist] issues and removes *)

Lemma filter_ext_elem {A : Type} (P Q : A → Prop)
    `{!∀ x, Decision (P x)} `{!∀ x, Decision (Q x)} (l : list A) :
  (∀ x, x ∈ l → P x ↔ Q x) → filter P l = filter Q l.
Proof.
  induction l as [|x l IH]; intros Hext; [done|].
  assert (Hx : P x ↔ Q x) by (apply Hext; left).
  assert (Hl : filter P l = filter Q l) by (apply IH; intros y Hy; apply Hext; by right).
  destruct (decide (P x)) as [HP|HP].
  - rewrite !filter_cons_True by tauto. by rewrite Hl.
  - rewrite !filter_cons_False by tauto. done.
Qed.

Lemma cursorRequests_tracksOf (pid : Z) (db : DB) :
  cursorRequests pid (tracks db) = (λ r, DeleteTrack (id r)) <$> tracksOf pid db.
Proof.
  unfold tracksOf. induction (tracks db) as [|t ts IH]; simpl; [done|].
  destruct (decide (playlistId (data t) = pid)) as [Ht|Ht].
  - rewrite filter_cons_True by done. simpl. by rewrite IH.
  - by rewrite filter_cons_False.
Qed.

Lemma performAll_deletes (keys : list Z) (db : DB) :
  performAll (DeleteTrack <$> keys) db =
    Some (mkDB (playlists db) (playlistKey db) (without keys (tracks db))
               (trackKey db) (preferences db)).
Proof.
  revert db. induction keys as [|key keys IH]; intros db; simpl.
  - unfold without. rewrite filter_all; [by destruct db|].
    apply Forall_forall. intros t _. apply not_elem_of_nil.
  - rewrite IH. simpl. do 2 f_equal. unfold without.
    rewrite list_filter_filter. apply filter_ext_elem. intros t _.
    rewrite not_elem_of_cons. tauto.
Qed.

Lemma deletePlaylist_outcome failing pid db :
  (quiet failing 0 (S (length (tracksOf pid db))) ∧
   deletePlaylist failing pid db = (Resolved (), deletedDB pid db)) ∨
  (noisy failing 0 (S (length (tracksOf pid db))) ∧
   deletePlaylist failing pid db = (Rejected RequestFailed, db)).
Proof.
  unfold deletePlaylist. rewrite cursorRequests_tracksOf.
  destruct (quiet_or_noisy failing 0 (S (length (tracksOf pid db)))) as [Hq|Hn].
  - left. split; [done|].
    rewrite executeAll_quiet by (simpl; by rewrite length_fmap).
    simpl. rewrite (list_fmap_compose id DeleteTrack), performAll_deletes. done.
  - right. split; [done|].
    rewrite executeAll_noisy; [done|]. simpl. by rewrite length_fmap.
Qed.

Lemma without_tracksOf (pid : Z) (db : DB) :
  Forall (λ r, playlistId (data r) ≠ pid) (without (id <$> tracksOf pid db) (tracks db)).
Proof.
  apply Forall_forall. intros r Hr. unfold without in Hr.
  apply list_elem_of_filter in Hr as [Hkey Hr]. intros Hpid. apply Hkey.
  apply list_elem_of_fmap. exists r. split; [done|].
  unfold tracksOf. by apply list_elem_of_filter.
Qed.

(** With distinct keys the cursor removes the playlist's records only. *)
Lemma without_tracksOf_NoDup (pid : Z) (db : DB) :
  NoDup (id <$> tracks db) →
  without (id <$> tracksOf pid db) (tracks db) =
    filter (λ r, playlistId (data r) ≠ pid) (tracks db).
Proof.
  intros Hnd. unfold without. apply filter_ext_elem. intros t Ht. split.
  - intros Hkey Hpid. apply Hkey. apply list_elem_of_fmap. exists t.
    split; [done|]. unfold tracksOf. by apply list_elem_of_filter.
  - intros Hpid Hin. apply list_elem_of_fmap in Hin as (r & Heq & Hr).
    unfold tracksOf in Hr. apply list_elem_of_filter in Hr as [Hrp Hr].
    assert (r = t) as ->; [|done].
    apply list_elem_of_lookup in Hr as [i Hi]. apply list_elem_of_lookup in Ht as [j Hj].
    assert (i = j) as ->.
    { eapply NoDup_lookup; [exact Hnd| |].
      - by rewrite list_lookup_fmap, Hi.
      - rewrite list_lookup_fmap, Hj. simpl. by rewrite Heq. }
    congruence.
Qed.

(** C5: for every playlist id, once [deletePlaylist] has completed no
    track record with that [playlistId] remains in storage, and a
    following [loadPlaylist] of the id is rejected as not found; the
    deletion does complete whenever none of its requests fails. *)
Theorem deletePlaylist_cascade (failing : Env) (pid : Z) (db : DB) :
  (quiet failing 0 (S (length (tracksOf pid db))) →
   (deletePlaylist failing pid db).1 = Resolved ()) ∧
  ((deletePlaylist failing pid db).1 = Resolved () →
   let db' := (deletePlaylist failing pid db).2 in
   tracksOf pid db' = [] ∧
   (∀ r, r ∈ tracks db' → playlistId (data r) ≠ pid) ∧
   playlists db' !! pid = None ∧
   ∀ retrieval objectURL,
     loadPlaylist retrieval objectURL pid db' = Rejected RecordNotFound).
Proof.
  destruct (deletePlaylist_outcome failing pid db) as [[Hq ->]|[Hn ->]].
  - split; [done|]. intros _. cbn [snd].
    pose proof (without_tracksOf pid db) as Hgone.
    split; [|split; [|split]].
    + unfold tracksOf. simpl. apply filter_none.
      eapply Forall_impl; [exact Hgone|]. simpl. tauto.
    + intros r Hr. rewrite Forall_forall in Hgone. by apply Hgone.
    + simpl. apply lookup_delete_eq.
    + intros retrieval objectURL. unfold loadPlaylist. simpl.
      by rewrite lookup_delete_eq.
  - split; [|done]. intros Hq. destruct (quiet_not_noisy _ _ _ Hq Hn).
Qed.

(** *** Sorting on load *)

#[local] Instance byOrder_trans : Transitive byOrder.
Proof. unfold byOrder. intros a b c. lia. Qed.

Lemma insertByOrder_Permutation t l : insertByOrder t l ≡ₚ t :: l.
Proof.
  induction l as [|x l IH]; simpl; [done|].
  destruct (decide _); [done|]. rewrite IH. apply Permutation_swap.
Qed.

Lemma sortByOrder_Permutation l : sortByOrder l ≡ₚ l.
Proof.
  induction l as [|x l IH]; simpl; [done|].
  by rewrite insertByOrder_Permutation, IH.
Qed.

Lemma insertByOrder_Sorted t l : Sorted byOrder l → Sorted byOrder (insertByOrder t l).
Proof.
  induction 1 as [|x l Hl IH Hhd]; simpl.
  - repeat constructor.
  - destruct (decide (order (data t) ≤ order (data x))%nat) as [Hle|Hgt].
    + constructor; [by constructor | by constructor].
    + constructor; [done|].
      destruct Hhd as [|y l Hxy]; simpl.
      * constructor. unfold byOrder. lia.
      * destruct (decide _); constructor; [unfold byOrder; lia | done].
Qed.

Lemma sortByOrder_Sorted l : Sorted byOrder (sortByOrder l).
Proof.
  induction l as [|x l IH]; simpl; [constructor | by apply insertByOrder_Sorted].
Qed.

Lemma savedRecords_Sorted key pid i ts :
  Sorted byOrder (savedRecords key (savedData pid i ts)).
Proof.
  revert key i. induction ts as [|t ts IH]; intros key i; simpl; [constructor|].
  constructor; [apply IH|].
  destruct ts as [|t' ts]; simpl; constructor. unfold byOrder. simpl. lia.
Qed.

(** Whatever the order of retrieval, sorting restores the records of a
    saved playlist to the order in which they were saved. *)
Lemma sortByOrder_retrieved retrieved key pid i ts :
  retrieved ≡ₚ savedRecords key (savedData pid i ts) →
  sortByOrder retrieved = savedRecords key (savedData pid i ts).
Proof.
  intros Hperm.
  set (recs := savedRecords key (savedData pid i ts)) in *.
  assert (Horders : NoDup ((λ r, order (data r)) <$> recs)).
  { unfold recs. rewrite (list_fmap_compose data order), data_savedRecords, order_savedData.
    apply NoDup_seq. }
  assert (Hkeys : NoDup (id <$> recs)) by apply NoDup_id_savedRecords.
  apply (Sorted_unique_strong byOrder).
  - intros x1 x2 Hx1 Hx2 H12 H21.
    rewrite sortByOrder_Permutation, Hperm in Hx1.
    apply list_elem_of_lookup in Hx1 as [a Ha]. apply list_elem_of_lookup in Hx2 as [b Hb].
    assert (a = b) as ->; [|congruence].
    eapply NoDup_lookup; [exact Horders| |].
    + by rewrite list_lookup_fmap, Ha.
    + rewrite list_lookup_fmap, Hb. simpl. f_equal. unfold byOrder in *. lia.
  - apply sortByOrder_Sorted.
  - apply savedRecords_Sorted.
  - by rewrite sortByOrder_Permutation.
Qed.

Lemma fmap_imap_const {A B C : Type} (f : nat → A → B) (g : B → C) (h : A → C)
    (l : list A) :
  (∀ i x, g (f i x) = h x) → g <$> imap f l = h <$> l.
Proof.
  revert f. induction l as [|x l IH]; intros f Hf; simpl; [done|].
  rewrite Hf. f_equal. apply IH. intros i y. apply Hf.
Qed.

Lemma fmap_savedData {C : Type} (g : TrackData → C) (h : Track → C) pid i ts :
  (∀ j t, g (trackData pid j t) = h t) → g <$> savedData pid i ts = h <$> ts.
Proof.
  intros Hg. revert i. induction ts as [|t ts IH]; intros i; simpl; [done|].
  by rewrite Hg, IH.
Qed.

Lemma index_processed objectURL (k : nat) (recs : list TrackRecord) :
  track_index <$> imap (λ i, processedTrack objectURL (k + i)) recs = seq k (length recs).
Proof.
  revert k. induction recs as [|r recs IH]; intros k; simpl; [done|].
  rewrite Nat.add_0_r. f_equal. rewrite <- IH. f_equal.
  apply imap_ext. intros i x _. simpl. f_equal. lia.
Qed.

Lemma trackRequests_final pid i total ts final :
  (trackRequests pid i total ts).2 = Some final → allBlobs ts.
Proof.
  revert i total. induction ts as [|t ts IH]; intros i total; [constructor|].
  cbn [trackRequests]. destruct (instanceOfBlob (track_file t)) eqn:Ht; [|done].
  cbv zeta.
  destruct (trackRequests pid (S i) (total + size (trackData pid i t)) ts)
    as [rs fin] eqn:Hrest.
  simpl. intros ->. constructor; [done|].
  eapply IH. by rewrite Hrest.
Qed.

(** A save only resolves when its loop has run to the end. *)
Lemma savePlaylist_resolved failing now name' ts db pid db' :
  savePlaylist failing now name' ts db = (Resolved pid, db') → allBlobs ts.
Proof.
  unfold savePlaylist. destruct (execute failing 0 _ db) as [db1|]; [|done].
  destruct (trackRequests (playlistKey db) 0 0 ts) as [adds [final|]] eqn:Hreq.
  - intros _. eapply trackRequests_final. by rewrite Hreq.
  - by destruct (executeAll failing 1 adds db1).
Qed.

(** When no request fails, [savePlaylist] followed by [loadPlaylist]
    on the id it returned yields tracks with the same names, the same
    original file names, the same sizes and the same bytes, in the order
    supplied and with indices 0, 1, ..., n-1, whatever the order in which
    the storage hands the track records to the sort. *)
Lemma save_load_roundtrip (failing : Env) (now name' : string)
    (tracks' : list Track) (db : DB) (pid : Z) (db' : DB)
    (retrieval : list TrackRecord → list TrackRecord) (objectURL : nat → string) :
  wf db →
  (∀ k, failing k = false) →
  (∀ l, retrieval l ≡ₚ l) →
  savePlaylist failing now name' tracks' db = (Resolved pid, db') →
  ∃ playlist loaded,
    loadPlaylist retrieval objectURL pid db' = Resolved (playlist, loaded) ∧
    playlist_name playlist = name' ∧
    track_name <$> loaded = track_name <$> tracks' ∧
    (λ t, file_name (track_file t)) <$> loaded
      = (λ t, file_name (track_file t)) <$> tracks' ∧
    (λ t, blob_size (file_content (track_file t))) <$> loaded
      = (λ t, blob_size (file_content (track_file t))) <$> tracks' ∧
    (λ t, blob_bytes (file_content (track_file t))) <$> loaded
      = (λ t, blob_bytes (file_content (track_file t))) <$> tracks' ∧
    track_index <$> loaded = seq 0 (length tracks').
Proof.
  intros Hwf Hquiet Hretr Hsave.
  pose proof (savePlaylist_resolved _ _ _ _ _ _ _ Hsave) as Hblobs.
  rewrite (savePlaylist_commits failing now name' tracks' db Hwf Hblobs) in Hsave
    by (intros j _; apply Hquiet).
  injection Hsave as <- <-.
  unfold loadPlaylist.
  rewrite (tracksOf_savedDB_new _ _ _ _ Hwf).
  cbn [playlists savedDB]. rewrite lookup_insert_eq.
  rewrite (sortByOrder_retrieved _ _ _ _ _ (Hretr _)).
  set (recs := savedRecords (trackKey db) (savedData (playlistKey db) 0 tracks')).
  assert (Hdata : data <$> recs = savedData (playlistKey db) 0 tracks')
    by apply data_savedRecords.
  eexists _, _. split; [done|]. split; [done|].
  split; [|split; [|split; [|split]]].
  - rewrite (fmap_imap_const _ _ (λ r, name (data r))) by done.
    rewrite (list_fmap_compose data name), Hdata. by apply fmap_savedData.
  - rewrite (fmap_imap_const _ _ (λ r, originalName (data r))) by done.
    rewrite (list_fmap_compose data originalName), Hdata. by apply fmap_savedData.
  - rewrite (fmap_imap_const _ _ (λ r, blob_size (audioBlob (data r)))) by done.
    rewrite (list_fmap_compose data (λ d, blob_size (audioBlob d))), Hdata.
    by apply fmap_savedData.
  - rewrite (fmap_imap_const _ _ (λ r, blob_bytes (audioBlob (data r)))) by done.
    rewrite (list_fmap_compose data (λ d, blob_bytes (audioBlob d))), Hdata.
    by apply fmap_savedData.
  - transitivity (seq 0 (length recs)); [exact (index_processed objectURL 0 recs)|].
    f_equal. unfold recs. by rewrite length_savedRecords, length_savedData.
Qed.

(** *** Preferences *)

Lemma performAll_puts clock k entries db :
  performAll (imap (λ j entry, PutPreference entry.1
                                 (mkPreference entry.2 (clock (k + j)%nat))) entries) db =
    Some (mkDB (playlists db) (playlistKey db) (tracks db) (trackKey db)
               (putAll clock k entries (preferences db))).
Proof.
  revert k db. induction entries as [|entry rest IH]; intros k db; simpl.
  - by destruct db.
  - rewrite Nat.add_0_r.
    rewrite (imap_ext _ (λ j e, PutPreference e.1 (mkPreference e.2 (clock (S k + j)%nat)))).
    + by rewrite IH.
    + intros j e _. simpl. do 3 f_equal. lia.
Qed.

Lemma putAll_other clock k entries store key :
  key ∉ entries.*1 → putAll clock k entries store !! key = store !! key.
Proof.
  revert k store. induction entries as [|entry rest IH]; intros k store Hkey; simpl; [done|].
  simpl in Hkey. apply not_elem_of_cons in Hkey as [Hne Hkey].
  rewrite IH by done. by rewrite lookup_insert_ne.
Qed.

Lemma putAll_entry clock k entries store key v :
  NoDup entries.*1 → (key, v) ∈ entries →
  value <$> putAll clock k entries store !! key = Some v.
Proof.
  revert k store. induction entries as [|entry rest IH]; intros k store Hnd Hin; simpl.
  - by apply elem_of_nil in Hin.
  - simpl in Hnd. apply NoDup_cons in Hnd as [Hfresh Hnd].
    apply elem_of_cons in Hin as [<-|Hin].
    + simpl in *. rewrite putAll_other by done. by rewrite lookup_insert_eq.
    + by apply IH.
Qed.

Lemma savePreferences_outcome failing clock prefs db :
  (quiet failing 0 (length (map_to_list prefs)) ∧
   savePreferences failing clock prefs db =
     (Resolved (),
      mkDB (playlists db) (playlistKey db) (tracks db) (trackKey db)
           (putAll clock 0 (map_to_list prefs) (preferences db)))) ∨
  (noisy failing 0 (length (map_to_list prefs)) ∧
   savePreferences failing clock prefs db = (Rejected RequestFailed, db)).
Proof.
  unfold savePreferences, preferenceRequests.
  destruct (quiet_or_noisy failing 0 (length (map_to_list prefs))) as [Hq|Hn].
  - left. split; [done|].
    rewrite executeAll_quiet by (by rewrite length_imap).
    by rewrite (performAll_puts clock 0).
  - right. split; [done|]. rewrite executeAll_noisy; [done|]. by rewrite length_imap.
Qed.

Lemma lookup_foldl_setProperty (records : list (string * Preference))
    (acc : gmap string prefValue) (key : string) :
  NoDup records.*1 →
  foldl (λ prefs record, setProperty prefs record.1 (value record.2)) acc records !! key =
    match (if decide (key = "__proto__") then None
           else (list_to_map (prod_map Datatypes.id value <$> records)
                   : gmap string prefValue) !! key) with
    | Some v => Some v
    | None => acc !! key
    end.
Proof.
  revert acc. induction records as [|[k p] rest IH]; intros acc Hnd.
  - simpl. rewrite lookup_empty. by destruct (decide (key = "__proto__")).
  - simpl in Hnd. apply NoDup_cons in Hnd as [Hfresh Hnd].
    cbn [foldl fmap list_fmap prod_map fst snd list_to_map foldr uncurry]. rewrite IH by done.
    unfold setProperty. simpl.
    destruct (decide (key = "__proto__")) as [->|Hkey].
    + destruct (decide (k = "__proto__")) as [|Hk]; [done|].
      by rewrite lookup_insert_ne.
    + destruct (decide (key = k)) as [->|Hne].
      * rewrite lookup_insert_eq.
        assert (Hnone : (list_to_map (prod_map Datatypes.id value <$> rest)
                           : gmap string prefValue) !! k = None).
        { apply not_elem_of_list_to_map_1. by rewrite <- list_fmap_compose. }
        rewrite Hnone. destruct (decide (k = "__proto__")); [done|].
        by rewrite lookup_insert_eq.
      * rewrite (lookup_insert_ne _ k key) by done.
        destruct (list_to_map _ !! key); [done|].
        destruct (decide (k = "__proto__")); [done|]. by rewrite lookup_insert_ne.
Qed.

(** [loadPreferences] returns the stored key/value pairs, except a pair
    stored under the key [__proto__]. *)
Lemma loadPreferences_own (db : DB) :
  loadPreferences db = Resolved (delete "__proto__" (value <$> preferences db)).
Proof.
  unfold loadPreferences. f_equal. apply map_eq. intros key.
  rewrite lookup_foldl_setProperty by apply NoDup_fst_map_to_list.
  rewrite list_to_map_fmap, list_to_map_to_list, lookup_empty.
  destruct (decide (key = "__proto__")) as [->|Hkey].
  - by rewrite lookup_delete_eq.
  - rewrite lookup_delete_ne by done. by destruct ((value <$> preferences db) !! key).
Qed.

(** What the preference functions do for every map and every store:
    [loadPreferences] returns the stored key/value pairs other than one
    under [__proto__]; when [savePreferences(m)] completes every key of
    [m] is stored with its new value, every other stored record is as it
    was, and a following [loadPreferences] returns [m] merged over the
    values stored before, again without a pair under [__proto__]; the
    save does complete whenever none of its requests fails. *)
Lemma savePreferences_partial_update (failing : Env) (clock : nat → string)
    (prefs : gmap string prefValue) (db : DB) :
  loadPreferences db = Resolved (delete "__proto__" (value <$> preferences db)) ∧
  (quiet failing 0 (length (map_to_list prefs)) →
   (savePreferences failing clock prefs db).1 = Resolved ()) ∧
  ((savePreferences failing clock prefs db).1 = Resolved () →
   let db' := (savePreferences failing clock prefs db).2 in
   (∀ key v, prefs !! key = Some v → value <$> preferences db' !! key = Some v) ∧
   (∀ key, prefs !! key = None → preferences db' !! key = preferences db !! key) ∧
   loadPreferences db'
     = Resolved (delete "__proto__" (prefs ∪ (value <$> preferences db))) ∧
   playlists db' = playlists db ∧ tracks db' = tracks db).
Proof.
  split; [apply loadPreferences_own|].
  destruct (savePreferences_outcome failing clock prefs db) as [[Hq ->]|[Hn ->]].
  - split; [done|]. intros _. cbn [snd].
    assert (Hnew : ∀ key v, prefs !! key = Some v →
              value <$> putAll clock 0 (map_to_list prefs) (preferences db) !! key = Some v).
    { intros key v Hkey. apply putAll_entry.
      - apply NoDup_fst_map_to_list.
      - by apply elem_of_map_to_list. }
    assert (Hold : ∀ key, prefs !! key = None →
              putAll clock 0 (map_to_list prefs) (preferences db) !! key
              = preferences db !! key).
    { intros key Hkey. apply putAll_other.
      intros Hin. apply list_elem_of_fmap in Hin as ([key' v] & -> & Hin).
      apply elem_of_map_to_list in Hin. simpl in Hkey. congruence. }
    split; [done|]. split; [done|]. split; [|done].
    rewrite loadPreferences_own. f_equal. simpl. f_equal. apply map_eq. intros key.
    rewrite lookup_fmap. destruct (prefs !! key) as [v|] eqn:Hkey.
    + rewrite (Hnew _ _ Hkey). symmetry. by apply lookup_union_Some_l.
    + rewrite (Hold _ Hkey), lookup_union_r by done. by rewrite lookup_fmap.
  - split; [|done]. intros Hq. destruct (quiet_not_noisy _ _ _ Hq Hn).
Qed.

(** *** The aggregate invariant *)

Lemma wf_savedDB now name' ts db : wf db → wf (savedDB now name' ts db).
Proof.
  intros [Hp Ht Hk]. split; simpl.
  - intros k p Hlook. destruct (decide (k = playlistKey db)) as [->|Hne]; [lia|].
    rewrite lookup_insert_ne in Hlook by done. apply Hp in Hlook. lia.
  - apply Forall_app. split.
    + eapply Forall_impl; [exact Ht|]. simpl. intros t Hlt. lia.
    + pose proof (id_savedRecords (trackKey db) (savedData (playlistKey db) 0 ts)) as Hids.
      pose proof (playlistId_savedRecords (trackKey db) (playlistKey db) 0 ts) as Hpid.
      rewrite length_savedData in Hids.
      rewrite Forall_forall in Hids, Hpid. apply Forall_forall. intros r Hr.
      specialize (Hids r Hr). specialize (Hpid r Hr). lia.
  - rewrite fmap_app. apply NoDup_app. split; [done|]. split; [|apply NoDup_id_savedRecords].
    intros key Hold Hnew.
    apply list_elem_of_fmap in Hold as (r & -> & Hr).
    apply list_elem_of_fmap in Hnew as (r' & Heq & Hr').
    rewrite Forall_forall in Ht. specialize (Ht r Hr).
    pose proof (id_savedRecords (trackKey db) (savedData (playlistKey db) 0 ts)) as Hids.
    rewrite Forall_forall in Hids. specialize (Hids r' Hr'). lia.
Qed.

Lemma wf_deletedDB pid db : wf db → wf (deletedDB pid db).
Proof.
  intros [Hp Ht Hk]. split; simpl.
  - intros k p Hlook. apply lookup_delete_Some in Hlook as [_ Hlook]. by eapply Hp.
  - unfold without. apply Forall_forall. intros r Hr.
    apply list_elem_of_filter in Hr as [_ Hr].
    rewrite Forall_forall in Ht. by apply Ht.
  - eapply sublist_NoDup; [exact Hk|]. apply fmap_sublist, sublist_filter.
Qed.

Lemma aggregateOk_savedDB now name' ts db :
  wf db → aggregateOk db → aggregateOk (savedDB now name' ts db).
Proof.
  intros Hwf Hagg k p Hlook.
  destruct (decide (k = playlistKey db)) as [->|Hne].
  - rewrite (tracksOf_savedDB_new _ _ _ _ Hwf).
    simpl in Hlook. rewrite lookup_insert_eq in Hlook. injection Hlook as <-. simpl.
    split.
    + f_equal. rewrite (list_fmap_compose data size). by rewrite data_savedRecords.
    + by rewrite length_savedRecords, length_savedData.
  - rewrite (tracksOf_savedDB_old _ _ _ _ _ Hne).
    simpl in Hlook. rewrite lookup_insert_ne in Hlook by done. by apply Hagg.
Qed.

Lemma aggregateOk_deletedDB pid db :
  wf db → aggregateOk db → aggregateOk (deletedDB pid db).
Proof.
  intros Hwf Hagg k p Hlook. simpl in Hlook.
  apply lookup_delete_Some in Hlook as [Hne Hlook].
  assert (Hsame : tracksOf k (deletedDB pid db) = tracksOf k db); [|rewrite Hsame; by apply Hagg].
  unfold tracksOf. simpl. rewrite (without_tracksOf_NoDup _ _ (wf_keys _ Hwf)).
  rewrite list_filter_filter. apply filter_ext_elem. intros t _. split; [tauto|].
  intros Ht. split; [done | congruence].
Qed.

(** Both invariants hold of every observable state. *)
Lemma reachable_consistent (db : DB) : reachable db → wf db ∧ aggregateOk db.
Proof.
  induction 1 as [|db db' _ [Hwf Hagg] Hstep].
  - split; [apply wf_emptyDB|]. intros k p Hlook. simpl in Hlook.
    by rewrite lookup_empty in Hlook.
  - destruct Hstep as [failing now name' ts db Hblobs|failing pid db|failing clock prefs db].
    + destruct (quiet_or_noisy failing 0 (length ts + 2)) as [Hq|Hn].
      * rewrite (savePlaylist_commits _ _ _ _ _ Hwf Hblobs Hq). simpl.
        split; [by apply wf_savedDB | by apply aggregateOk_savedDB].
      * by rewrite (savePlaylist_aborts _ _ _ _ _ Hblobs Hn).
    + destruct (deletePlaylist_outcome failing pid db) as [[_ ->]|[_ ->]]; [|done].
      simpl. split; [by apply wf_deletedDB | by apply aggregateOk_deletedDB].
    + destruct (savePreferences_outcome failing clock prefs db) as [[_ ->]|[_ ->]]; [|done].
      simpl. split; [by destruct Hwf | done].
Qed.

(** In every storage state that can be observed after any sequence of
    saves of tracks whose files are [Blob] instances, of
    deletions and of preference writes, committed or aborted, each stored
    playlist has [totalSize] equal to the sum of the [size] fields of its
    track records and [trackCount] equal to their number; and after every
    save that returns an id the same holds, the playlist saved having as
    many track records as tracks were supplied when its transaction
    committed. *)
Lemma aggregate_invariant (db : DB) :
  reachable db →
  aggregateOk db ∧
  ∀ failing now name' ts pid db',
    savePlaylist failing now name' ts db = (Resolved pid, db') →
    aggregateOk db' ∧
    (quiet failing 0 (length ts + 2) →
     ∃ p, playlists db' !! pid = Some p ∧
          totalSize p = sumZ ((λ r, size (data r)) <$> tracksOf pid db') ∧
          trackCount p = length (tracksOf pid db') ∧
          trackCount p = length ts).
Proof.
  intros Hreach. destruct (reachable_consistent db Hreach) as [Hwf Hagg].
  split; [done|]. intros failing now name' ts pid db' Hsave.
  pose proof (savePlaylist_resolved _ _ _ _ _ _ _ Hsave) as Hblobs.
  assert (Hreach' : reachable db').
  { replace db' with (savePlaylist failing now name' ts db).2 by (by rewrite Hsave).
    eapply reachable_step; [exact Hreach | by constructor]. }
  destruct (reachable_consistent db' Hreach') as [_ Hagg'].
  split; [done|]. intros Hq.
  rewrite (savePlaylist_commits _ _ _ _ _ Hwf Hblobs Hq) in Hsave.
  injection Hsave as <- <-.
  eexists. split; [simpl; apply lookup_insert_eq|].
  destruct (Hagg' (playlistKey db) _ (lookup_insert_eq _ _ _)) as [Hsum Hcount].
  done.
Qed.

(** *** The properties at concrete inputs *)

Lemma neverFailing_quiet (k n : nat) : quiet neverFailing k n.
Proof. intros j _. done. Qed.

Lemma allBlobs_roadTrip : allBlobs roadTrip.
Proof. repeat constructor. Qed.

(** The "Road Trip" scenario: with no failure the playlist and its
    three tracks are stored, with [totalSize] 9 and orders 0, 1, 2; with a
    failure of the third request nothing is stored. *)
Lemma savePlaylist_atomic_scenario :
  wf emptyDB ∧ allBlobs roadTrip ∧
  playlists savedRoadTrip !! 1
    = Some (mkPlaylist "Road Trip" 3 "2024-05-01T10:00:00.000Z" 9) ∧
  (λ r, order (data r)) <$> tracksOf 1 savedRoadTrip = [0; 1; 2]%nat ∧
  (savePlaylist (failingAt 2) "2024-05-01T10:00:00.000Z" "Road Trip" roadTrip emptyDB).2
    = emptyDB.
Proof.
  split; [exact wf_emptyDB|]. split; [exact allBlobs_roadTrip|].
  destruct (savePlaylist_atomic neverFailing "2024-05-01T10:00:00.000Z" "Road Trip"
              roadTrip emptyDB wf_emptyDB allBlobs_roadTrip)
    as [[(j & _ & Hfail) _]|(_ & Hrow & _ & Horders & _)]; [discriminate Hfail|].
  split; [exact Hrow|]. split; [exact Horders|].
  destruct (savePlaylist_atomic (failingAt 2) "2024-05-01T10:00:00.000Z" "Road Trip"
              roadTrip emptyDB wf_emptyDB allBlobs_roadTrip)
    as [[_ Hsame]|(Hquiet & _)]; [exact Hsame|].
  specialize (Hquiet 2%nat ltac:(vm_compute; lia)). discriminate Hquiet.
Defined.

(** C1.  The defect at a concrete input: [savePlaylist] is not atomic.
    The handler of the first request awaits [fileToBlob(track.file)] for a
    file that is not a [Blob] instance, inside the transaction.  When the
    second of three tracks holds such a file and no request fails, the
    handler stops there, and the transaction, left without a pending
    request, commits what was written so far: the playlist row with
    [trackCount] 3 and [totalSize] still 0, and the first only of its
    three tracks.  The promise that [savePlaylist] returned never
    settles. *)
Theorem savePlaylist_commits_a_partial_playlist :
  let result := savePlaylist neverFailing "2024-05-01T10:00:00.000Z" "Road Trip"
                             mixedTracks emptyDB in
  result.1 = Pending ∧
  playlists result.2 !! 1
    = Some (mkPlaylist "Road Trip" 3 "2024-05-01T10:00:00.000Z" 0) ∧
  length (tracksOf 1 result.2) = 1%nat ∧
  result.2 ≠ emptyDB.
Proof.
  split; [reflexivity|]. split; [reflexivity|]. split; [reflexivity|].
  intros Heq. apply (f_equal playlistKey) in Heq. vm_compute in Heq. discriminate Heq.
Qed.

(** The "Road Trip" scenario, with the records retrieved in reverse
    order. *)
Lemma save_load_roundtrip_scenario :
  ∃ playlist loaded,
    loadPlaylist reverse (λ _, "blob:loaded") 1 savedRoadTrip
      = Resolved (playlist, loaded) ∧
    playlist_name playlist = "Road Trip" ∧
    track_name <$> loaded = track_name <$> roadTrip ∧
    (λ t, file_name (track_file t)) <$> loaded
      = (λ t, file_name (track_file t)) <$> roadTrip ∧
    (λ t, blob_size (file_content (track_file t))) <$> loaded
      = (λ t, blob_size (file_content (track_file t))) <$> roadTrip ∧
    (λ t, blob_bytes (file_content (track_file t))) <$> loaded
      = (λ t, blob_bytes (file_content (track_file t))) <$> roadTrip ∧
    track_index <$> loaded = seq 0 (length roadTrip).
Proof.
  apply (save_load_roundtrip neverFailing "2024-05-01T10:00:00.000Z" "Road Trip"
           roadTrip emptyDB 1 savedRoadTrip reverse (λ _, "blob:loaded")).
  - exact wf_emptyDB.
  - intros k. reflexivity.
  - intros l. apply reverse_Permutation.
  - reflexivity.
Defined.

(** C5 at the "Road Trip" scenario: deleting the saved playlist. *)
Lemma deletePlaylist_cascade_witness :
  let db' := (deletePlaylist neverFailing 1 savedRoadTrip).2 in
  (deletePlaylist neverFailing 1 savedRoadTrip).1 = Resolved () ∧
  tracksOf 1 db' = [] ∧
  loadPlaylist (λ l, l) (λ _, "blob:loaded") 1 db' = Rejected RecordNotFound.
Proof.
  destruct (deletePlaylist_cascade neverFailing 1 savedRoadTrip) as [Hdone Hgone].
  specialize (Hdone (neverFailing_quiet _ _)).
  destruct (Hgone Hdone) as (Hnone & _ & _ & Hload).
  split; [exact Hdone|]. split; [exact Hnone | apply Hload].
Defined.

Lemma reachable_savedRoadTrip : reachable savedRoadTrip.
Proof.
  eapply reachable_step; [apply reachable_empty|].
  apply step_save, allBlobs_roadTrip.
Qed.

(** The "Road Trip" scenario: the state after the save is observable and
    satisfies the invariant. *)
Lemma aggregate_invariant_scenario :
  reachable savedRoadTrip ∧ aggregateOk savedRoadTrip.
Proof.
  split; [exact reachable_savedRoadTrip|].
  exact (proj1 (aggregate_invariant savedRoadTrip reachable_savedRoadTrip)).
Defined.

(** C6.  The defect at a concrete input: the aggregates of a stored
    playlist can differ from its track records.  The state that the save
    of [mixedTracks] commits, when its handler stops at
    [await fileToBlob(...)], holds the playlist 1 with [trackCount] 3 and
    [totalSize] 0, and one track record of that playlist, of size 3: the
    sum of the sizes is 3, not 0, and the number of records 1, not 3. *)
Theorem savePlaylist_commits_wrong_aggregates :
  let db := (savePlaylist neverFailing "2024-05-01T10:00:00.000Z" "Road Trip"
                          mixedTracks emptyDB).2 in
  ∃ p, playlists db !! 1 = Some p ∧
       totalSize p = 0 ∧ trackCount p = 3%nat ∧
       (λ r, size (data r)) <$> tracksOf 1 db = [3] ∧
       totalSize p ≠ sumZ ((λ r, size (data r)) <$> tracksOf 1 db) ∧
       trackCount p ≠ length (tracksOf 1 db) ∧
       ¬ aggregateOk db.
Proof.
  exists (mkPlaylist "Road Trip" 3 "2024-05-01T10:00:00.000Z" 0).
  split; [reflexivity|]. split; [reflexivity|]. split; [reflexivity|].
  split; [reflexivity|]. split; [by vm_compute|]. split; [by vm_compute|].
  intros Hagg.
  destruct (Hagg 1 (mkPlaylist "Road Trip" 3 "2024-05-01T10:00:00.000Z" 0) eq_refl)
    as [Hsum _].
  vm_compute in Hsum. discriminate Hsum.
Qed.

(** C4.  The defect at concrete inputs: the id that [savePlaylist]
    returns need not lead to the tracks.  [savePlaylist] resolves in the
    handler of its first request, before the transaction has completed.
    When the request that stores the third of the three "Road Trip"
    tracks fails, the transaction is rolled back and the database is as
    it was, yet the promise is resolved with the id 1, and
    [loadPlaylist(1)] is rejected: no track comes back.  And for the
    tracks of [mixedTracks], of which one holds a file that is not a
    [Blob], no id is ever returned, while [loadPlaylist(1)] on the
    committed state returns one track where three were supplied. *)
Theorem savePlaylist_returns_an_id_of_nothing :
  savePlaylist (failingAt 3) "2024-05-01T10:00:00.000Z" "Road Trip" roadTrip emptyDB
    = (Resolved 1, emptyDB) ∧
  loadPlaylist reverse (λ _, "blob:loaded") 1 emptyDB = Rejected RecordNotFound ∧
  let result := savePlaylist neverFailing "2024-05-01T10:00:00.000Z" "Road Trip"
                             mixedTracks emptyDB in
  result.1 = Pending ∧
  ∃ playlist loaded,
    loadPlaylist reverse (λ _, "blob:loaded") 1 result.2 = Resolved (playlist, loaded) ∧
    length loaded = 1%nat ∧ length mixedTracks = 3%nat.
Proof.
  split; [reflexivity|]. split; [reflexivity|]. split; [reflexivity|].
  eexists _, _. split; [reflexivity|]. split; reflexivity.
Qed.

(** At a concrete store: saving the volume over a stored volume and a
    stored index keeps the index and replaces the volume. *)
Lemma savePreferences_partial_update_scenario :
  let db := (savePreferences neverFailing (λ _, "2024-05-01T10:00:00.000Z")
               (<["volume" := PNumber (1 # 2)%Q]> (<["lastTrackIndex" := PNumber (4 # 1)%Q]> ∅))
               emptyDB).2 in
  let db' := (savePreferences neverFailing (λ _, "2024-05-02T10:00:00.000Z")
                samplePrefs db).2 in
  loadPreferences db'
    = Resolved (delete "__proto__" (samplePrefs ∪ (value <$> preferences db))) ∧
  preferences db' !! "lastTrackIndex" = preferences db !! "lastTrackIndex".
Proof.
  intros db db'.
  destruct (savePreferences_partial_update neverFailing
              (λ _, "2024-05-02T10:00:00.000Z") samplePrefs db) as (_ & Hdone & Hsaved).
  specialize (Hdone (neverFailing_quiet _ _)).
  destruct (Hsaved Hdone) as (_ & Hframe & Hload & _).
  split; [exact Hload|]. apply Hframe. reflexivity.
Defined.

(** C9.  The defect at a concrete input.  [savePreferences] of the map
    with the two own properties [__proto__] (true) and [volume] (0.5), on
    the empty database, completes and stores both records; the
    [loadPreferences] that follows returns the object with the one
    property [volume]: the assignment [prefs["__proto__"] = true] on
    [{}] reaches the setter inherited from [Object.prototype] and creates
    no property, so a stored pair is missing from the result. *)
Theorem loadPreferences_loses_proto_key :
  let m := <["__proto__" := PBool true]> (<["volume" := PNumber (1 # 2)%Q]> ∅) in
  let result := savePreferences neverFailing (λ _, "2024-05-01T10:00:00.000Z") m emptyDB in
  result.1 = Resolved () ∧
  value <$> preferences result.2 !! "__proto__" = Some (PBool true) ∧
  value <$> preferences result.2 !! "volume" = Some (PNumber (1 # 2)%Q) ∧
  loadPreferences result.2 = Resolved (<["volume" := PNumber (1 # 2)%Q]> ∅) ∧
  loadPreferences result.2 ≠ Resolved m.
Proof.
  split; [reflexivity|]. split; [reflexivity|]. split; [reflexivity|].
  assert (Hload : loadPreferences
            (savePreferences neverFailing (λ _, "2024-05-01T10:00:00.000Z")
               (<["__proto__" := PBool true]> (<["volume" := PNumber (1 # 2)%Q]> ∅))
               emptyDB).2
          = Resolved (<["volume" := PNumber (1 # 2)%Q]> ∅)) by reflexivity.
  split; [exact Hload|]. cbv zeta. rewrite Hload. intros Heq.
  apply (f_equal (λ loaded : promise (gmap string prefValue),
                    match loaded with
                    | Resolved prefs => prefs !! "__proto__"
                    | _ => None
                    end)) in Heq.
  vm_compute in Heq. discriminate Heq.
Qed.

End StorageFacts.

(** ** Properties of the player as the listener drives it *)

Module EngineFacts.
Import JS Player App PlayerFacts.

(** *** The state after a call *)

Lemma nonempty_length {A : Type} (l : list A) : l ≠ [] → (1 ≤ length l)%nat.
Proof. destruct l; simpl; [done | lia]. Qed.

(** The position of an index in an order that is a bijection. *)
Lemma indexOf_bijection (order : list nat) (n : nat) (z : Z) :
  order ≡ₚ seq 0 n → 0 ≤ z < Z.of_nat n →
  ∃ p : nat, indexOf order (Num (Int z)) = Int (Z.of_nat p) ∧
             order !! p = Some (Z.to_nat z) ∧ (p < n)%nat.
Proof.
  intros Hperm Hz. unfold indexOf.
  destruct (Z.ltb_spec z 0); [lia|].
  destruct (find_from_elem order (Z.to_nat z) 0) as (p & Hp & Hl).
  { rewrite Hperm. apply elem_of_seq. lia. }
  exists p. rewrite Hp. split; [f_equal; lia|]. split; [done|].
  apply lookup_lt_Some in Hl. by rewrite Hperm, length_seq in Hl.
Qed.

(** [playTrack] of the position of a track. *)
Lemma playTrack_valid (z : Z) (st : State) :
  0 ≤ z < Z.of_nat (length (tracks st)) →
  (shuffleMode st = true → shuffledOrder st ≡ₚ seq 0 (length (tracks st))) →
  ∃ st', playTrack (Num (Int z)) st = Ok st' ∧ playing z st st' ∧
         (shuffleMode st = true →
          ∃ p : nat, shuffledIndex st' = Int (Z.of_nat p) ∧
                     shuffledOrder st !! p = Some (Z.to_nat z)) ∧
         (shuffleMode st = false → shuffledIndex st' = shuffledIndex st).
Proof.
  intros Hz Horder.
  destruct (playTrack_in_range z st Hz) as (t & Ht & Hplay).
  rewrite Hplay. destruct (shuffleMode st) eqn:Hmode.
  - destruct (indexOf_bijection _ _ z (Horder eq_refl) Hz) as (p & Hp & Hl & Hlt).
    eexists. split; [done|]. rewrite Hp. split.
    + unfold playing. simpl. repeat split; try done. by exists t.
    + split; [|done]. intros _. by exists p.
  - eexists. split; [done|]. split.
    + unfold playing. simpl. repeat split; try done. by exists t.
    + done.
Qed.

(** What holds of a state in which the track of position [z] was just
    loaded. *)
Lemma playing_invariants (z : Z) (st st' : State) :
  playing z st st' → 0 ≤ z < Z.of_nat (length (tracks st)) →
  (shuffleMode st = true →
   shuffledOrder st ≡ₚ seq 0 (length (tracks st)) ∧
   ∃ p : nat, shuffledIndex st' = Int (Z.of_nat p) ∧
              shuffledOrder st !! p = Some (Z.to_nat z)) →
  wellFormed st' ∧ synced st' ∧ tuned st'.
Proof.
  intros (Htr & Hmode & Hord & Hcur & (t & Ht & Hsrc) & _) Hz Hcursor.
  split; [|split].
  - intros _. unfold validIndex, validOrder. rewrite Htr. split; [by exists z|].
    rewrite Hmode, Hord. intros Hs. destruct (Hcursor Hs) as (Hperm & p & Hp & Hl).
    split; [done|]. exists (Z.of_nat p). split; [done|].
    apply lookup_lt_Some in Hl. rewrite Hperm, length_seq in Hl. lia.
  - unfold synced. rewrite Hmode. intros Hs.
    destruct (Hcursor Hs) as (_ & p & Hp & Hl).
    exists p, (Z.to_nat z). rewrite Hord, Z2Nat.id by lia. done.
  - intros _. exists (Z.to_nat z), t. rewrite Htr, Z2Nat.id by lia. done.
Qed.

(** [playNext] in sequential mode. *)
Lemma playNext_sequential_playing (st : State) (c : Z) :
  shuffleMode st = false → currentIndex st = Num (Int c) →
  0 ≤ c < Z.of_nat (length (tracks st)) →
  ∃ st', playNext st = Ok st' ∧
         playing ((c + 1) mod Z.of_nat (length (tracks st))) st st' ∧
         shuffledIndex st' = shuffledIndex st.
Proof.
  intros Hmode Hcur Hc. unfold playNext.
  destruct (decide (length (tracks st) = 0%nat)); [lia|].
  rewrite Hmode, Hcur. unfold trackCount. simpl.
  destruct (Z.eqb_spec (Z.of_nat (length (tracks st))) 0); [lia|].
  rewrite Z.rem_mod_nonneg by lia.
  destruct (playTrack_valid ((c + 1) mod Z.of_nat (length (tracks st))) st)
    as (st' & Hplay & Hp & _ & Hidx).
  { apply Z.mod_pos_bound. lia. }
  { congruence. }
  exists st'. auto.
Qed.

(** [playPrevious] in sequential mode, at most three seconds into the
    track. *)
Lemma playPrevious_sequential_playing (st : State) (c : Z) :
  shuffleMode st = false → currentIndex st = Num (Int c) →
  pastRestartThreshold st = false →
  0 ≤ c < Z.of_nat (length (tracks st)) →
  ∃ st', playPrevious st = Ok st' ∧
         playing ((c - 1 + Z.of_nat (length (tracks st)))
                    mod Z.of_nat (length (tracks st))) st st' ∧
         shuffledIndex st' = shuffledIndex st.
Proof.
  intros Hmode Hcur Htime Hc. unfold playPrevious.
  destruct (decide (length (tracks st) = 0%nat)); [lia|].
  rewrite Htime, Hmode, Hcur. unfold trackCount. simpl.
  destruct (Z.eqb_spec (Z.of_nat (length (tracks st))) 0); [lia|].
  rewrite Z.rem_mod_nonneg by lia.
  destruct (playTrack_valid
              ((c - 1 + Z.of_nat (length (tracks st)))
                 mod Z.of_nat (length (tracks st))) st)
    as (st' & Hplay & Hp & _ & Hidx).
  { apply Z.mod_pos_bound. lia. }
  { congruence. }
  exists st'. auto.
Qed.

(** Playing the entry under the cursor [q] of the order. *)
Lemma playTrack_cursor_playing (st : State) (q : Z) :
  shuffleMode st = true →
  shuffledOrder st ≡ₚ seq 0 (length (tracks st)) →
  0 ≤ q < Z.of_nat (length (tracks st)) →
  ∃ (e : nat) st',
    shuffledOrder st !! Z.to_nat q = Some e ∧
    playTrack (get_index (shuffledOrder st) (Int q)) st = Ok st' ∧
    playing (Z.of_nat e) st st' ∧ shuffledIndex st' = Int q.
Proof.
  intros Hmode Hperm Hq.
  destruct (order_lookup _ _ q Hperm Hq) as (e & He & Hlt).
  assert (Hnd : NoDup (shuffledOrder st)) by (rewrite Hperm; apply NoDup_seq).
  assert (Hget : get_index (shuffledOrder st) (Int q) = Num (Int (Z.of_nat e))).
  { rewrite <- (get_index_lookup _ _ _ He). by rewrite Z2Nat.id by lia. }
  rewrite Hget.
  destruct (playTrack_valid (Z.of_nat e) st) as (st' & Hplay & Hp & Hcur & _);
    [lia | done |].
  destruct (Hcur Hmode) as (p & Hidx & Hl). rewrite Nat2Z.id in Hl.
  exists e, st'. split; [done|]. split; [done|]. split; [done|].
  rewrite Hidx, (NoDup_lookup _ _ _ _ Hnd Hl He). f_equal. lia.
Qed.

(** [playNext] in shuffled mode. *)
Lemma playNext_shuffled_playing (st : State) (p : Z) :
  shuffleMode st = true →
  shuffledOrder st ≡ₚ seq 0 (length (tracks st)) →
  shuffledIndex st = Int p → 0 ≤ p < Z.of_nat (length (tracks st)) →
  let q := (p + 1) mod Z.of_nat (length (tracks st)) in
  ∃ (e : nat) st',
    shuffledOrder st !! Z.to_nat q = Some e ∧ playNext st = Ok st' ∧
    playing (Z.of_nat e) st st' ∧ shuffledIndex st' = Int q.
Proof.
  intros Hmode Hperm Hcur Hp q.
  assert (Hlen : length (shuffledOrder st) = length (tracks st))
    by (by rewrite Hperm, length_seq).
  assert (Hq : 0 ≤ q < Z.of_nat (length (tracks st)))
    by (apply Z.mod_pos_bound; lia).
  unfold playNext.
  destruct (decide (length (tracks st) = 0%nat)); [lia|].
  rewrite Hmode, Hcur. unfold orderLength. rewrite Hlen. simpl.
  destruct (Z.eqb_spec (Z.of_nat (length (tracks st))) 0); [lia|].
  rewrite Z.rem_mod_nonneg by lia. fold q.
  destruct (playTrack_cursor_playing (set_shuffledIndex (Int q) st) q Hmode Hperm Hq)
    as (e & st' & He & Hplay & Hpl & Hidx).
  exists e, st'. done.
Qed.

(** [playPrevious] in shuffled mode, at most three seconds into the
    track. *)
Lemma playPrevious_shuffled_playing (st : State) (p : Z) :
  shuffleMode st = true →
  shuffledOrder st ≡ₚ seq 0 (length (tracks st)) →
  shuffledIndex st = Int p → 0 ≤ p < Z.of_nat (length (tracks st)) →
  pastRestartThreshold st = false →
  let n := Z.of_nat (length (tracks st)) in
  let q := (p - 1 + n) mod n in
  ∃ (e : nat) st',
    shuffledOrder st !! Z.to_nat q = Some e ∧ playPrevious st = Ok st' ∧
    playing (Z.of_nat e) st st' ∧ shuffledIndex st' = Int q.
Proof.
  intros Hmode Hperm Hcur Hp Htime n q.
  assert (Hlen : length (shuffledOrder st) = length (tracks st))
    by (by rewrite Hperm, length_seq).
  assert (Hq : 0 ≤ q < n) by (apply Z.mod_pos_bound; lia).
  unfold playPrevious.
  destruct (decide (length (tracks st) = 0%nat)); [lia|].
  rewrite Htime, Hmode, Hcur. unfold orderLength. rewrite Hlen. simpl. fold n.
  destruct (Z.eqb_spec n 0); [lia|].
  rewrite Z.rem_mod_nonneg by lia. fold q.
  destruct (playTrack_cursor_playing (set_shuffledIndex (Int q) st) q Hmode Hperm Hq)
    as (e & st' & He & Hplay & Hpl & Hidx).
  exists e, st'. done.
Qed.

(** *** The invariants of the player *)

Lemma playNext_invariants (st : State) :
  wellFormed st →
  ∃ st', playNext st = Ok st' ∧ tracks st' = tracks st ∧ wellFormed st' ∧
         (tracks st ≠ [] → synced st' ∧ tuned st').
Proof.
  intros Hwf.
  destruct (decide (tracks st = [])) as [Hempty|Hne].
  { exists st. unfold playNext. rewrite Hempty. simpl. done. }
  destruct (Hwf Hne) as [(c & Hcur & Hc) Horder].
  destruct (shuffleMode st) eqn:Hmode.
  - destruct (Horder eq_refl) as (Hperm & p & Hidx & Hp).
    destruct (playNext_shuffled_playing st p Hmode Hperm Hidx Hp)
      as (e & st' & He & Hnext & Hpl & Hidx').
    exists st'. split; [done|]. split; [apply Hpl|].
    assert (He' : (e < length (tracks st))%nat).
    { apply list_elem_of_lookup_2 in He. rewrite Hperm in He.
      apply elem_of_seq in He. lia. }
    assert (Hq : 0 ≤ (p + 1) mod Z.of_nat (length (tracks st))
                 < Z.of_nat (length (tracks st))) by (apply Z.mod_pos_bound; lia).
    destruct (playing_invariants _ _ _ Hpl) as (H1 & H2 & H3); [lia| |done].
    intros _. split; [done|].
    exists (Z.to_nat ((p + 1) mod Z.of_nat (length (tracks st)))).
    rewrite Z2Nat.id, Nat2Z.id by lia. done.
  - destruct (playNext_sequential_playing st c Hmode Hcur Hc) as (st' & Hnext & Hpl & _).
    exists st'. split; [done|]. split; [apply Hpl|].
    destruct (playing_invariants _ _ _ Hpl) as (H1 & H2 & H3);
      [apply Z.mod_pos_bound; lia | congruence | done].
Qed.

Lemma playPrevious_invariants (st : State) :
  wellFormed st →
  ∃ st', playPrevious st = Ok st' ∧ tracks st' = tracks st ∧ wellFormed st' ∧
         (synced st → synced st') ∧ (tuned st → tuned st').
Proof.
  intros Hwf.
  destruct (decide (tracks st = [])) as [Hempty|Hne].
  { exists st. unfold playPrevious. rewrite Hempty. simpl. done. }
  pose proof (nonempty_length _ Hne) as Hn.
  destruct (pastRestartThreshold st) eqn:Htime.
  { rewrite playPrevious_restart by (done || lia).
    eexists. split; [done|]. simpl. done. }
  destruct (Hwf Hne) as [(c & Hcur & Hc) Horder].
  destruct (shuffleMode st) eqn:Hmode.
  - destruct (Horder eq_refl) as (Hperm & p & Hidx & Hp).
    destruct (playPrevious_shuffled_playing st p Hmode Hperm Hidx Hp Htime)
      as (e & st' & He & Hprev & Hpl & Hidx').
    exists st'. split; [done|]. split; [apply Hpl|].
    assert (He' : (e < length (tracks st))%nat).
    { apply list_elem_of_lookup_2 in He. rewrite Hperm in He.
      apply elem_of_seq in He. lia. }
    assert (Hq : 0 ≤ (p - 1 + Z.of_nat (length (tracks st)))
                       mod Z.of_nat (length (tracks st))
                 < Z.of_nat (length (tracks st))) by (apply Z.mod_pos_bound; lia).
    destruct (playing_invariants _ _ _ Hpl) as (H1 & H2 & H3); [lia| |done].
    intros _. split; [done|].
    exists (Z.to_nat ((p - 1 + Z.of_nat (length (tracks st)))
                        mod Z.of_nat (length (tracks st)))).
    rewrite Z2Nat.id, Nat2Z.id by lia. done.
  - destruct (playPrevious_sequential_playing st c Hmode Hcur Htime Hc)
      as (st' & Hprev & Hpl & _).
    exists st'. split; [done|]. split; [apply Hpl|].
    destruct (playing_invariants _ _ _ Hpl) as (H1 & H2 & H3);
      [apply Z.mod_pos_bound; lia | congruence | done].
Qed.

Lemma playTrack_invariants (z : Z) (st : State) :
  wellFormed st → 0 ≤ z < Z.of_nat (length (tracks st)) →
  ∃ st', playTrack (Num (Int z)) st = Ok st' ∧ playing z st st' ∧
         wellFormed st' ∧ synced st' ∧ tuned st'.
Proof.
  intros Hwf Hz.
  assert (Hne : tracks st ≠ []) by (intros E; rewrite E in Hz; simpl in Hz; lia).
  destruct (Hwf Hne) as [_ Horder].
  destruct (playTrack_valid z st Hz) as (st' & Hplay & Hpl & Hcur & _).
  { intros Hs. by destruct (Horder Hs). }
  exists st'. split; [done|]. split; [done|].
  apply (playing_invariants z st st' Hpl Hz).
  intros Hs. split; [by destruct (Horder Hs) | by apply Hcur].
Qed.

Lemma toggleShuffle_invariants (random : nat → draw) (st : State) :
  wellFormed st →
  let st' := toggleShuffle random st in
  tracks st' = tracks st ∧ currentIndex st' = currentIndex st ∧
  shuffleMode st' = negb (shuffleMode st) ∧ audio_src st' = audio_src st ∧
  audio_currentTime st' = audio_currentTime st ∧
  wellFormed st' ∧ (tracks st ≠ [] → synced st') ∧ (tuned st → tuned st').
Proof.
  intros Hwf. unfold toggleShuffle. simpl.
  destruct (shuffleMode st) eqn:Hmode; simpl.
  - do 5 (split; [done|]). split; [|split; [|done]].
    + intros Hne. destruct (Hwf Hne) as [Hidx _]. split; [done|]. simpl. congruence.
    + intros _ Hs. simpl in Hs. congruence.
  - destruct (decide (tracks st = [])) as [Hempty|Hne].
    + rewrite Hempty. simpl. do 5 (split; [done|]).
      split; [|split].
      * intros Hne. simpl in Hne. congruence.
      * intros Hne. congruence.
      * intros _ Hne. simpl in Hne. congruence.
    + rewrite bool_decide_eq_false_2
        by (intros E; apply Hne; by destruct (tracks st)).
      simpl. do 5 (split; [done|]).
      destruct (Hwf Hne) as [(c & Hcur & Hc) _].
      pose proof (generateShuffledOrder_Permutation random (set_shuffleMode true st))
        as Hperm. simpl in Hperm.
      destruct (indexOf_bijection _ _ c Hperm Hc) as (p & Hp & Hl & Hlt).
      rewrite Hcur.
      assert (Hgoal : ∀ st', shuffledOrder st' =
                shuffleLoop random 0 (length (imap (λ i _, i) (tracks st)) - 1)
                            (imap (λ i _, i) (tracks st)) →
              tracks st' = tracks st → currentIndex st' = Num (Int c) →
              shuffledIndex st' = Int (Z.of_nat p) → audio_src st' = audio_src st →
              wellFormed st' ∧ (tracks st ≠ [] → synced st') ∧ (tuned st → tuned st')).
      { intros st' Hord Htr Hci Hsi Hsrc. split; [|split].
        - intros _. unfold validIndex, validOrder. rewrite Htr.
          split; [by exists c|]. intros _.
          split; [by rewrite Hord|]. exists (Z.of_nat p). split; [done | lia].
        - intros _ _. exists p, (Z.to_nat c). rewrite Hord, Z2Nat.id by lia. done.
        - intros Ht _. destruct (Ht Hne) as (c' & t & Hc' & Hlk & Hs).
          exists c', t. rewrite Htr, Hsrc, Hci, <- Hcur. done. }
      apply Hgoal; simpl; try done.

Qed.

(** Every action of the listener. *)
Lemma act_invariants (a : action) (st : State) :
  wellFormed st → tuned st → clickable (length (tracks st)) a →
  ∃ st', act a st = Ok st' ∧ tracks st' = tracks st ∧ wellFormed st' ∧ tuned st' ∧
         (tracks st ≠ [] → synced st → synced st').
Proof.
  intros Hwf Htuned Hclick. destruct a as [|time|index|random]; simpl.
  - destruct (playNext_invariants st Hwf) as (st' & Hnext & Htr & Hwf' & Hrest).
    exists st'. unfold handleTrackEnded. split; [done|]. split; [done|]. split; [done|].
    split.
    + intros Hne.
      assert (Hne0 : tracks st ≠ []) by (by rewrite <- Htr).
      destruct (Hrest Hne0) as [_ Ht]. by apply Ht.
    + intros Hne _. by destruct (Hrest Hne).
  - destruct (playPrevious_invariants (set_audio_currentTime time st))
      as (st' & Hprev & Htr & Hwf' & Hs & Ht); [done|].
    exists st'. split; [done|]. split; [done|]. split; [done|].
    split; [by apply Ht|]. intros _. apply Hs.
  - destruct (playTrack_invariants index st Hwf Hclick)
      as (st' & Hplay & Hpl & Hwf' & Hs & Ht).
    exists st'. split; [done|]. split; [apply Hpl|]. done.
  - destruct (toggleShuffle_invariants random st Hwf)
      as (Htr & _ & _ & _ & _ & Hwf' & Hs & Ht).
    eexists. split; [done|]. split; [done|]. split; [done|]. split; [by apply Ht|].
    intros Hne _. by apply Hs.
Qed.

(** X1.  From a well-formed state whose audio element holds the current
    track, no sequence of actions of the listener (next or end of track,
    previous at any playback position, a click on an item of the
    playlist, the shuffle button with any draws) raises an error; the
    track list stays as it is, the state stays well-formed (the current
    index is the position of a track and, in shuffled mode, the order is a
    bijection with the cursor inside it), and the audio element holds the
    URL of the current track; a cursor that points at the current track
    keeps doing so. *)
Theorem listener_never_throws (actions : list action) (st : State) :
  wellFormed st → tuned st →
  Forall (clickable (length (tracks st))) actions →
  ∃ st', run actions st = Ok st' ∧ tracks st' = tracks st ∧
         wellFormed st' ∧ tuned st' ∧ (tracks st ≠ [] → synced st → synced st').
Proof.
  revert st. induction actions as [|a rest IH]; intros st Hwf Htuned Hclick.
  - exists st. done.
  - apply Forall_cons in Hclick as [Ha Hrest].
    destruct (act_invariants a st Hwf Htuned Ha) as (st1 & Hact & Htr & Hwf1 & Ht1 & Hs1).
    destruct (IH st1 Hwf1 Ht1) as (st' & Hrun & Htr' & Hwf' & Ht' & Hs').
    { by rewrite Htr. }
    exists st'. simpl. rewrite Hact. split; [done|]. split; [congruence|].
    split; [done|]. split; [done|]. intros Hne Hs. apply Hs'; [by rewrite Htr|].
    by apply Hs1.
Qed.

(** *** Continuous playback *)

Lemma shifted_Permutation (s n : nat) :
  (λ i, (s + i) `mod` n)%nat <$> seq 0 n ≡ₚ seq 0 n.
Proof.
  assert (Heq : (λ i, (s + i) `mod` n)%nat <$> seq 0 n = rotate s (seq 0 n)).
  { apply list_eq. intros i. rewrite list_lookup_fmap.
    destruct (decide (i < n)%nat) as [Hi|Hi].
    - rewrite lookup_rotate_r by (by rewrite length_seq).
      rewrite length_seq, (lookup_seq_lt 0 n i Hi).
      rewrite lookup_seq_lt by (apply rotate_nat_add_lt; lia).
      simpl. unfold rotate_nat_add.
      by rewrite <- Nat2Z.inj_add, <- Nat2Z.inj_mod, Nat2Z.id.
    - rewrite lookup_ge_None_2 by (rewrite length_seq; lia).
      symmetry. apply lookup_ge_None_2. rewrite length_rotate, length_seq. lia. }
  rewrite Heq. unfold rotate.
  rewrite Permutation_app_comm. by rewrite take_drop.
Qed.

Lemma entries_of_order (order : list nat) :
  (λ j, nth j order 0%nat) <$> seq 0 (length order) = order.
Proof.
  apply list_eq. intros i. rewrite list_lookup_fmap.
  destruct (order !! i) as [e|] eqn:He.
  - rewrite lookup_seq_lt by (by eapply lookup_lt_Some). simpl.
    by rewrite nth_lookup, He.
  - apply lookup_ge_None_1 in He.
    by rewrite lookup_ge_None_2 by (by rewrite length_seq).
Qed.

(** The indices that successive calls of [playNext] play in sequential
    mode: those that follow the current one, around the end of the list. *)
Lemma played_sequential (k : nat) (st : State) (c : nat) :
  shuffleMode st = false → currentIndex st = Num (Int (Z.of_nat c)) →
  (c < length (tracks st))%nat →
  played k st =
    (λ i, Num (Int (Z.of_nat ((c + 1 + i) `mod` length (tracks st))))) <$> seq 0 k.
Proof.
  revert st c. induction k as [|k IH]; intros st c Hmode Hcur Hc; [done|].
  destruct (playNext_sequential_playing st (Z.of_nat c) Hmode Hcur ltac:(lia))
    as (st1 & Hnext & (Htr & Hmode1 & _ & Hcur1 & _) & _).
  assert (Hq : (Z.of_nat c + 1) mod Z.of_nat (length (tracks st))
               = Z.of_nat ((c + 1) `mod` length (tracks st))).
  { rewrite Nat2Z.inj_mod. f_equal. lia. }
  rewrite Hq in Hcur1.
  simpl. unfold handleTrackEnded. rewrite Hnext.
  rewrite (IH st1 ((c + 1) `mod` length (tracks st))%nat);
    [|congruence|done|rewrite Htr; apply Nat.mod_upper_bound; lia].
  rewrite Hcur1, Htr, Nat.add_0_r. f_equal.
  rewrite <- fmap_S_seq, <- list_fmap_compose.
  apply list_fmap_ext. intros i x _. simpl. do 3 f_equal.
  rewrite <- Nat.add_assoc, Nat.Div0.add_mod_idemp_l. f_equal; lia.
Qed.

(** In shuffled mode: the entries of the order that follow the cursor,
    around its end. *)
Lemma played_shuffled (k : nat) (st : State) (p : nat) :
  shuffleMode st = true →
  shuffledOrder st ≡ₚ seq 0 (length (tracks st)) →
  shuffledIndex st = Int (Z.of_nat p) → (p < length (tracks st))%nat →
  played k st =
    (λ i, Num (Int (Z.of_nat (nth ((p + 1 + i) `mod` length (tracks st))
                                  (shuffledOrder st) 0%nat)))) <$> seq 0 k.
Proof.
  revert st p. induction k as [|k IH]; intros st p Hmode Hperm Hidx Hp; [done|].
  destruct (playNext_shuffled_playing st (Z.of_nat p) Hmode Hperm Hidx ltac:(lia))
    as (e & st1 & He & Hnext & (Htr & Hmode1 & Hord & Hcur1 & _) & Hidx1).
  assert (Hq : (Z.of_nat p + 1) mod Z.of_nat (length (tracks st))
               = Z.of_nat ((p + 1) `mod` length (tracks st))).
  { rewrite Nat2Z.inj_mod. f_equal. lia. }
  rewrite Hq in He, Hidx1. rewrite Nat2Z.id in He.
  simpl. unfold handleTrackEnded. rewrite Hnext.
  rewrite (IH st1 ((p + 1) `mod` length (tracks st))%nat);
    [|congruence|by rewrite Hord, Htr|done|rewrite Htr; apply Nat.mod_upper_bound; lia].
  rewrite Hcur1, Htr, Hord, Nat.add_0_r, nth_lookup, He. simpl. f_equal.
  rewrite <- fmap_S_seq, <- list_fmap_compose.
  apply list_fmap_ext. intros i x _. simpl. do 4 f_equal.
  rewrite <- Nat.add_assoc, Nat.Div0.add_mod_idemp_l. f_equal; lia.
Qed.

(** A full round visits every track. *)
Lemma played_round (st : State) :
  wellFormed st → tracks st ≠ [] →
  played (length (tracks st)) st ≡ₚ
    (λ i, Num (Int (Z.of_nat i))) <$> seq 0 (length (tracks st)).
Proof.
  intros Hwf Hne. destruct (Hwf Hne) as [(c & Hcur & Hc) Horder].
  destruct (shuffleMode st) eqn:Hmode.
  - destruct (Horder eq_refl) as (Hperm & p & Hidx & Hp).
    rewrite (played_shuffled _ st (Z.to_nat p)); try done;
      [|by rewrite Z2Nat.id by lia|lia].
    rewrite (list_fmap_compose (λ i, (Z.to_nat p + 1 + i) `mod` length (tracks st))%nat
               (λ j, Num (Int (Z.of_nat (nth j (shuffledOrder st) 0%nat))))).
    rewrite shifted_Permutation.
    rewrite (list_fmap_compose (λ j, nth j (shuffledOrder st) 0%nat)
               (λ i, Num (Int (Z.of_nat i)))).
    assert (Hlen : length (tracks st) = length (shuffledOrder st))
      by (by rewrite Hperm, length_seq).
    rewrite Hlen at 1. rewrite entries_of_order. by rewrite Hperm.
  - rewrite (played_sequential _ st (Z.to_nat c)); try done;
      [|by rewrite Z2Nat.id by lia|lia].
    rewrite (list_fmap_compose (λ i, (Z.to_nat c + 1 + i) `mod` length (tracks st))%nat
               (λ i, Num (Int (Z.of_nat i)))).
    by rewrite shifted_Permutation.
Qed.

Lemma wrap_round (c m : nat) : (c < S m)%nat → ((c + 1 + m) `mod` S m)%nat = c.
Proof.
  intros Hc. replace (c + 1 + m)%nat with (c + 1 * S m)%nat by lia.
  rewrite Nat.Div0.mod_add. apply Nat.mod_small. lia.
Qed.

(** A full round ends on the track it started from, when the cursor
    points at it. *)
Lemma played_round_last (st : State) :
  wellFormed st → synced st → tracks st ≠ [] →
  ∃ others, played (length (tracks st)) st = others ++ [currentIndex st].
Proof.
  intros Hwf Hsync Hne. destruct (Hwf Hne) as [(c & Hcur & Hc) Horder].
  assert (Hm : ∃ m, length (tracks st) = S m).
  { destruct (length (tracks st)) as [|m] eqn:E; [simpl in Hc; lia | by exists m]. }
  destruct Hm as [m Hn].
  destruct (shuffleMode st) eqn:Hmode.
  - destruct (Horder eq_refl) as (Hperm & _).
    destruct (Hsync Hmode) as (p & c' & Hidx & Hcur' & Hl).
    assert (Hp : (p < length (tracks st))%nat).
    { apply lookup_lt_Some in Hl. by rewrite Hperm, length_seq in Hl. }
    rewrite (played_shuffled _ st p Hmode Hperm Hidx Hp).
    rewrite Hn, seq_S, fmap_app. eexists. f_equal.
    cbn [fmap list_fmap Nat.add]. rewrite wrap_round by lia.
    by rewrite nth_lookup, Hl, Hcur'.
  - assert (Hc' : (Z.to_nat c < length (tracks st))%nat) by lia.
    assert (Hcur' : currentIndex st = Num (Int (Z.of_nat (Z.to_nat c))))
      by (by rewrite Z2Nat.id by lia).
    rewrite (played_sequential _ st (Z.to_nat c) Hmode Hcur' Hc').
    rewrite Hn, seq_S, fmap_app. eexists. f_equal.
    cbn [fmap list_fmap Nat.add]. rewrite wrap_round by lia. by rewrite Hcur'.
Qed.

Lemma NoDup_indices (n : nat) : NoDup ((λ i, Num (Int (Z.of_nat i))) <$> seq 0 n).
Proof.
  apply NoDup_fmap_2; [|apply NoDup_seq].
  intros x y Heq. injection Heq as Heq. lia.
Qed.

(** The tracks of a round other than the one it started from. *)
Lemma played_round_others (st : State) :
  wellFormed st → synced st → tracks st ≠ [] →
  ∃ others,
    played (length (tracks st)) st = others ++ [currentIndex st] ∧
    (currentIndex st ∉ others) ∧ NoDup others ∧
    (∀ i : nat, Num (Int (Z.of_nat i)) ∈ others ↔
                (i < length (tracks st))%nat ∧ Num (Int (Z.of_nat i)) ≠ currentIndex st).
Proof.
  intros Hwf Hsync Hne.
  destruct (played_round_last st Hwf Hsync Hne) as (others & Hplayed).
  pose proof (played_round st Hwf Hne) as Hperm. rewrite Hplayed in Hperm.
  pose proof (NoDup_indices (length (tracks st))) as Hnd. rewrite <- Hperm in Hnd.
  apply NoDup_app in Hnd as (Hnd & Hdisj & _).
  exists others. split; [done|]. split.
  { intros Hin. apply (Hdisj _ Hin). by left. }
  split; [done|]. intros i. split.
  - intros Hin. split.
    + assert (Hall : Num (Int (Z.of_nat i)) ∈ others ++ [currentIndex st])
        by (apply elem_of_app; by left).
      rewrite Hperm in Hall. apply list_elem_of_fmap in Hall as (j & Heq & Hj).
      injection Heq as Heq. apply elem_of_seq in Hj. lia.
    + intros Heq. apply (Hdisj _ Hin). rewrite Heq. by left.
  - intros [Hi Hneq].
    assert (Hall : Num (Int (Z.of_nat i)) ∈ others ++ [currentIndex st]).
    { rewrite Hperm. apply list_elem_of_fmap. exists i. split; [done|].
      apply elem_of_seq. lia. }
    apply elem_of_app in Hall as [Hin|Hlast]; [done|].
    apply list_elem_of_singleton in Hlast. done.
Qed.

(** X2.  From any well-formed state with [n >= 1] tracks, [n] successive
    ends of track ([handleTrackEnded], that is [playNext]) raise no error
    and play every track exactly once, in sequential and in shuffled
    mode: the [n] indices played are a rearrangement of [0 .. n-1].  When
    the cursor points at the current track, the round plays the [n - 1]
    other tracks first and comes back to the current track last. *)
Theorem continuous_playback_visits_every_track (st : State) :
  wellFormed st → tracks st ≠ [] →
  played (length (tracks st)) st ≡ₚ
    (λ i, Num (Int (Z.of_nat i))) <$> seq 0 (length (tracks st)) ∧
  length (played (length (tracks st)) st) = length (tracks st) ∧
  (synced st →
   ∃ others,
     played (length (tracks st)) st = others ++ [currentIndex st] ∧
     currentIndex st ∉ others).
Proof.
  intros Hwf Hne. pose proof (played_round st Hwf Hne) as Hperm.
  split; [exact Hperm|]. split.
  - by rewrite Hperm, length_fmap, length_seq.
  - intros Hsync.
    destruct (played_round_others st Hwf Hsync Hne) as (others & Hplayed & Hnot & _).
    by exists others.
Qed.

(** X21.  Pressing the shuffle button does not interrupt or repeat the
    current track: on a well-formed state with [n >= 1] tracks,
    [toggleShuffle], whether it switches shuffle on (with any draws) or
    off, keeps the tracks, the current index, the audio source and the
    playback position, and the [n] ends of track that follow play the
    [n - 1] other tracks, each exactly once, before the current track
    comes again. *)
Theorem toggleShuffle_continues_with_the_other_tracks (random : nat → draw)
    (st : State) :
  wellFormed st → tracks st ≠ [] →
  let st' := toggleShuffle random st in
  tracks st' = tracks st ∧ currentIndex st' = currentIndex st ∧
  shuffleMode st' = negb (shuffleMode st) ∧
  audio_src st' = audio_src st ∧ audio_currentTime st' = audio_currentTime st ∧
  ∃ others,
    played (length (tracks st)) st' = others ++ [currentIndex st] ∧
    (currentIndex st ∉ others) ∧ NoDup others ∧
    (∀ i : nat, Num (Int (Z.of_nat i)) ∈ others ↔
                (i < length (tracks st))%nat ∧ Num (Int (Z.of_nat i)) ≠ currentIndex st).
Proof.
  intros Hwf Hne st'.
  destruct (toggleShuffle_invariants random st Hwf)
    as (Htr & Hcur & Hmode & Hsrc & Htime & Hwf' & Hsync & _).
  fold st' in Htr, Hcur, Hmode, Hsrc, Htime, Hwf', Hsync.
  do 5 (split; [done|]).
  assert (Hne' : tracks st' ≠ []) by (by rewrite Htr).
  destruct (played_round_others st' Hwf' (Hsync Hne) Hne')
    as (others & Hplayed & Hnot & Hnd & Hall).
  rewrite Htr, Hcur in Hplayed. rewrite Hcur in Hnot.
  exists others. split; [done|]. split; [done|]. split; [done|].
  intros i. rewrite Hall, Htr, Hcur. done.
Qed.

(** *** Going forth and back *)

Lemma wrap_back (c n : Z) : 0 ≤ c < n → ((c + 1) mod n - 1 + n) mod n = c.
Proof.
  intros Hc. destruct (decide (c + 1 < n)) as [Hlt|Hge].
  - rewrite (Z.mod_small (c + 1)) by lia.
    replace (c + 1 - 1 + n) with (c + 1 * n) by lia.
    rewrite Z_mod_plus_full. apply Z.mod_small. lia.
  - replace (c + 1) with n by lia. rewrite Z_mod_same_full.
    rewrite Z.mod_small by lia. lia.
Qed.

Lemma wrap_forth (c n : Z) : 0 ≤ c < n → ((c - 1 + n) mod n + 1) mod n = c.
Proof.
  intros Hc. destruct (decide (c = 0)) as [->|Hne].
  - rewrite (Z.mod_small (0 - 1 + n)) by lia.
    replace (0 - 1 + n + 1) with n by lia. apply Z_mod_same_full.
  - replace (c - 1 + n) with (c - 1 + 1 * n) by lia.
    rewrite Z_mod_plus_full, (Z.mod_small (c - 1)) by lia.
    replace (c - 1 + 1) with c by lia. apply Z.mod_small. lia.
Qed.

Lemma playing_restarted (z : Z) (st st' : State) :
  playing z st st' → pastRestartThreshold st' = false.
Proof.
  intros (_ & _ & _ & _ & _ & Htime). unfold pastRestartThreshold. by rewrite Htime.
Qed.

(** X3.  On a well-formed state with tracks whose cursor points at the
    current track, [playNext] followed by [playPrevious] leads back to
    the track that was current, and to the same cursor, in both modes:
    the track that [playNext] loaded starts at position 0, so the
    3-second rule of [playPrevious] does not apply.  So does
    [playPrevious], at most 3 seconds into the track, followed by
    [playNext]. *)
Theorem next_and_previous_are_inverse (st : State) :
  wellFormed st → synced st → tracks st ≠ [] →
  (∃ st1 st2, playNext st = Ok st1 ∧ playPrevious st1 = Ok st2 ∧
              currentIndex st2 = currentIndex st ∧
              shuffledIndex st2 = shuffledIndex st ∧ tuned st2) ∧
  (pastRestartThreshold st = false →
   ∃ st1 st2, playPrevious st = Ok st1 ∧ playNext st1 = Ok st2 ∧
              currentIndex st2 = currentIndex st ∧
              shuffledIndex st2 = shuffledIndex st ∧ tuned st2).
Proof.
  intros Hwf Hsync Hne. destruct (Hwf Hne) as [(c & Hcur & Hc) Horder].
  destruct (shuffleMode st) eqn:Hmode.
  - destruct (Horder eq_refl) as (Hperm & p & Hidx & Hp).
    destruct (Hsync Hmode) as (p' & c' & Hidx' & Hcur' & Hl).
    assert (p = Z.of_nat p') as -> by congruence.
    assert (Hnd : NoDup (shuffledOrder st)) by (rewrite Hperm; apply NoDup_seq).
    assert (Hc' : (c' < length (tracks st))%nat).
    { apply list_elem_of_lookup_2 in Hl. rewrite Hperm in Hl.
      apply elem_of_seq in Hl. lia. }
    set (n := Z.of_nat (length (tracks st))) in *.
    split.
    + destruct (playNext_shuffled_playing st _ Hmode Hperm Hidx Hp)
        as (e1 & st1 & He1 & Hnext & Hpl1 & Hidx1).
      pose proof Hpl1 as (Htr1 & Hmode1 & Hord1 & _).
      destruct (playPrevious_shuffled_playing st1 ((Z.of_nat p' + 1) mod n))
        as (e2 & st2 & He2 & Hprev & Hpl2 & Hidx2);
        rewrite ?Hord1, ?Htr1; try done.
      { congruence. }
      { apply Z.mod_pos_bound. lia. }
      { by eapply playing_restarted. }
      rewrite Hord1, Htr1 in He2. rewrite Htr1 in Hidx2. fold n in He2, Hidx2.
      rewrite wrap_back in He2, Hidx2 by done. rewrite Nat2Z.id in He2.
      assert (e2 = c') as -> by congruence.
      exists st1, st2. split; [done|]. split; [done|].
      split; [destruct Hpl2 as (_ & _ & _ & -> & _); congruence|].
      split; [congruence|].
      apply (playing_invariants (Z.of_nat c') st1 st2 Hpl2); [rewrite Htr1; lia|].
      intros _. rewrite Hord1, Htr1. split; [done|]. exists p'. by rewrite Nat2Z.id.
    + intros Htime.
      destruct (playPrevious_shuffled_playing st _ Hmode Hperm Hidx Hp Htime)
        as (e1 & st1 & He1 & Hprev & Hpl1 & Hidx1).
      pose proof Hpl1 as (Htr1 & Hmode1 & Hord1 & _).
      destruct (playNext_shuffled_playing st1 ((Z.of_nat p' - 1 + n) mod n))
        as (e2 & st2 & He2 & Hnext & Hpl2 & Hidx2);
        rewrite ?Hord1, ?Htr1; try done.
      { congruence. }
      { apply Z.mod_pos_bound. lia. }
      rewrite Hord1, Htr1 in He2. rewrite Htr1 in Hidx2. fold n in He2, Hidx2.
      rewrite wrap_forth in He2, Hidx2 by done. rewrite Nat2Z.id in He2.
      assert (e2 = c') as -> by congruence.
      exists st1, st2. split; [done|]. split; [done|].
      split; [destruct Hpl2 as (_ & _ & _ & -> & _); congruence|].
      split; [congruence|].
      apply (playing_invariants (Z.of_nat c') st1 st2 Hpl2); [rewrite Htr1; lia|].
      intros _. rewrite Hord1, Htr1. split; [done|]. exists p'. by rewrite Nat2Z.id.
  - set (n := Z.of_nat (length (tracks st))) in *.
    split.
    + destruct (playNext_sequential_playing st c Hmode Hcur Hc)
        as (st1 & Hnext & Hpl1 & Hidx1).
      pose proof Hpl1 as (Htr1 & Hmode1 & _ & Hcur1 & _).
      destruct (playPrevious_sequential_playing st1 ((c + 1) mod n))
        as (st2 & Hprev & Hpl2 & Hidx2); rewrite ?Htr1; try done.
      { congruence. }
      { by eapply playing_restarted. }
      { apply Z.mod_pos_bound. lia. }
      rewrite Htr1 in Hpl2. fold n in Hpl2. rewrite wrap_back in Hpl2 by done.
      exists st1, st2. split; [done|]. split; [done|].
      split; [destruct Hpl2 as (_ & _ & _ & -> & _); congruence|].
      split; [congruence|].
      apply (playing_invariants c st1 st2 Hpl2); [by rewrite Htr1|congruence].
    + intros Htime.
      destruct (playPrevious_sequential_playing st c Hmode Hcur Htime Hc)
        as (st1 & Hprev & Hpl1 & Hidx1).
      pose proof Hpl1 as (Htr1 & Hmode1 & _ & Hcur1 & _).
      destruct (playNext_sequential_playing st1 ((c - 1 + n) mod n))
        as (st2 & Hnext & Hpl2 & Hidx2); rewrite ?Htr1; try done.
      { congruence. }
      { apply Z.mod_pos_bound. lia. }
      rewrite Htr1 in Hpl2. fold n in Hpl2. rewrite wrap_forth in Hpl2 by done.
      exists st1, st2. split; [done|]. split; [done|].
      split; [destruct Hpl2 as (_ & _ & _ & -> & _); congruence|].
      split; [congruence|].
      apply (playing_invariants c st1 st2 Hpl2); [by rewrite Htr1|congruence].
Qed.

(** X4.  A click on the item of position [z] of the playlist, on a
    well-formed state, loads that track from its start, and the call of
    [playNext] that follows continues from it: in sequential mode with
    the track of position [(z + 1) mod n], in shuffled mode with the
    entry of the order that follows the entry [z], around its end. *)
Theorem select_then_next (z : Z) (st : State) :
  wellFormed st → 0 ≤ z < Z.of_nat (length (tracks st)) →
  ∃ st1 st2,
    playTrack (Num (Int z)) st = Ok st1 ∧ playing z st st1 ∧
    playNext st1 = Ok st2 ∧
    (shuffleMode st = false →
     playing ((z + 1) mod Z.of_nat (length (tracks st))) st st2) ∧
    (shuffleMode st = true →
     ∃ p e : nat,
       shuffledOrder st !! p = Some (Z.to_nat z) ∧
       shuffledOrder st !! ((p + 1) `mod` length (tracks st))%nat = Some e ∧
       playing (Z.of_nat e) st st2).
Proof.
  intros Hwf Hz.
  assert (Hne : tracks st ≠ []) by (intros E; rewrite E in Hz; simpl in Hz; lia).
  destruct (Hwf Hne) as [_ Horder].
  destruct (playTrack_valid z st Hz) as (st1 & Hplay & Hpl & Hcur & Hseq).
  { intros Hs. by destruct (Horder Hs). }
  pose proof Hpl as (Htr1 & Hmode1 & Hord1 & Hcur1 & _).
  assert (Hjoin : ∀ z' st2, playing z' st1 st2 → 0 ≤ z' < Z.of_nat (length (tracks st)) →
                            playing z' st st2).
  { intros z' st2 (H1 & H2 & H3 & H4 & (t & Ht & H5) & H6).
    unfold playing. rewrite H1, H2, H3, <- Htr1. repeat split; try done. by exists t. }
  destruct (shuffleMode st) eqn:Hmode.
  - destruct (Horder eq_refl) as (Hperm & _).
    destruct (Hcur eq_refl) as (p & Hidx & Hl).
    assert (Hp : (p < length (tracks st))%nat).
    { apply lookup_lt_Some in Hl. by rewrite Hperm, length_seq in Hl. }
    assert (Hperm1 : shuffledOrder st1 ≡ₚ seq 0 (length (tracks st1)))
      by (by rewrite Hord1, Htr1).
    assert (Hp1 : 0 ≤ Z.of_nat p < Z.of_nat (length (tracks st1)))
      by (rewrite Htr1; lia).
    destruct (playNext_shuffled_playing st1 (Z.of_nat p) Hmode1 Hperm1 Hidx Hp1)
      as (e & st2 & He & Hnext & Hpl2 & _).
    rewrite Hord1, Htr1 in He.
    assert (Hq : (Z.of_nat p + 1) mod Z.of_nat (length (tracks st))
                 = Z.of_nat ((p + 1) `mod` length (tracks st))).
    { rewrite Nat2Z.inj_mod. f_equal. lia. }
    rewrite Hq, Nat2Z.id in He.
    exists st1, st2. split; [done|]. split; [done|]. split; [done|].
    split; [done|]. intros _. exists p, e. split; [done|]. split; [done|].
    apply Hjoin; [done|].
    apply list_elem_of_lookup_2 in He. rewrite Hperm in He.
    apply elem_of_seq in He. lia.
  - assert (Hz1 : 0 ≤ z < Z.of_nat (length (tracks st1))) by (by rewrite Htr1).
    destruct (playNext_sequential_playing st1 z Hmode1 Hcur1 Hz1)
      as (st2 & Hnext & Hpl2 & _).
    rewrite Htr1 in Hpl2.
    exists st1, st2. split; [done|]. split; [done|]. split; [done|].
    split; [|done]. intros _. apply Hjoin; [done|]. apply Z.mod_pos_bound. lia.
Qed.

(** *** Scenarios *)

Lemma wellFormed_sample_sequential :
  wellFormed (sampleState 3 1 false [] 0 (0 # 1)%Q).
Proof.
  intros _. split; [|done]. exists 1. split; [done|]. simpl. lia.
Qed.

Lemma wellFormed_sample_shuffled :
  wellFormed (sampleState 3 1 true [2; 0; 1]%nat 2 (0 # 1)%Q).
Proof.
  intros _. split.
  - exists 1. split; [done|]. simpl. lia.
  - intros _. split.
    + simpl. by apply (bool_decide_unpack _).
    + exists 2. split; [done|]. simpl. lia.
Qed.

Lemma synced_sample_shuffled :
  synced (sampleState 3 1 true [2; 0; 1]%nat 2 (0 # 1)%Q).
Proof. intros _. by exists 2%nat, 1%nat. Qed.

Lemma tuned_sample (n : nat) (c : nat) shuffle order cursor time :
  (c < n)%nat → tuned (sampleState n (Z.of_nat c) shuffle order cursor time).
Proof.
  intros Hc _. exists c, (sampleTrack c). split; [done|]. split; [|done].
  simpl. unfold sampleTracks. rewrite list_lookup_fmap, lookup_seq_lt by done. done.
Qed.

Lemma listener_never_throws_witness :
  ∃ st',
    run [Next; ToggleShuffle sampleRandom; Previous (5 # 1)%Q; Select 2; Next;
         ToggleShuffle sampleRandom; Previous (1 # 1)%Q]
        (sampleState 3 1 false [] 0 (0 # 1)%Q) = Ok st' ∧
    tracks st' = sampleTracks 3 ∧ wellFormed st' ∧ tuned st'.
Proof.
  assert (Htuned : tuned (sampleState 3 1 false [] 0 (0 # 1)%Q))
    by (apply (tuned_sample 3 1); lia).
  assert (Hclick : Forall (clickable (length (tracks (sampleState 3 1 false [] 0 (0 # 1)%Q))))
            [Next; ToggleShuffle sampleRandom; Previous (5 # 1)%Q; Select 2; Next;
             ToggleShuffle sampleRandom; Previous (1 # 1)%Q])
    by (repeat constructor; simpl; lia).
  destruct (listener_never_throws _ (sampleState 3 1 false [] 0 (0 # 1)%Q)
              wellFormed_sample_sequential Htuned Hclick)
    as (st' & Hrun & Htr & Hwf & Ht & _).
  exists st'. split; [exact Hrun|]. split; [exact Htr|]. split; [exact Hwf | exact Ht].
Defined.

Lemma continuous_playback_visits_every_track_witness :
  played 3 (sampleState 3 1 true [2; 0; 1]%nat 2 (0 # 1)%Q)
    ≡ₚ [Num (Int 0); Num (Int 1); Num (Int 2)].
Proof.
  assert (Hne : tracks (sampleState 3 1 true [2; 0; 1]%nat 2 (0 # 1)%Q) ≠ []) by done.
  exact (proj1 (continuous_playback_visits_every_track
                  (sampleState 3 1 true [2; 0; 1]%nat 2 (0 # 1)%Q)
                  wellFormed_sample_shuffled Hne)).
Defined.

Lemma toggleShuffle_continues_with_the_other_tracks_witness :
  ∃ others,
    played 3 (toggleShuffle sampleRandom (sampleState 3 1 false [] 0 (0 # 1)%Q))
      = others ++ [Num (Int 1)] ∧
    Num (Int 1) ∉ others.
Proof.
  assert (Hne : tracks (sampleState 3 1 false [] 0 (0 # 1)%Q) ≠ []) by done.
  destruct (toggleShuffle_continues_with_the_other_tracks sampleRandom
              (sampleState 3 1 false [] 0 (0 # 1)%Q) wellFormed_sample_sequential Hne)
    as (_ & _ & _ & _ & _ & others & Hplayed & Hnot & _).
  exists others. split; [exact Hplayed | exact Hnot].
Defined.

Lemma next_and_previous_are_inverse_witness :
  ∃ st1 st2,
    playNext (sampleState 3 1 true [2; 0; 1]%nat 2 (0 # 1)%Q) = Ok st1 ∧
    playPrevious st1 = Ok st2 ∧
    currentIndex st2 = Num (Int 1) ∧ shuffledIndex st2 = Int 2.
Proof.
  assert (Hne : tracks (sampleState 3 1 true [2; 0; 1]%nat 2 (0 # 1)%Q) ≠ []) by done.
  destruct (proj1 (next_and_previous_are_inverse
                     (sampleState 3 1 true [2; 0; 1]%nat 2 (0 # 1)%Q)
                     wellFormed_sample_shuffled synced_sample_shuffled Hne))
    as (st1 & st2 & H1 & H2 & H3 & H4 & _).
  exists st1, st2. split; [exact H1|]. split; [exact H2|]. split; [exact H3 | exact H4].
Defined.

Lemma select_then_next_witness :
  ∃ st1 st2,
    playTrack (Num (Int 0)) (sampleState 3 1 true [2; 0; 1]%nat 2 (0 # 1)%Q) = Ok st1 ∧
    currentIndex st1 = Num (Int 0) ∧ playNext st1 = Ok st2 ∧
    currentIndex st2 = Num (Int 1).
Proof.
  assert (Hz : 0 ≤ 0 < Z.of_nat (length (tracks (sampleState 3 1 true [2; 0; 1]%nat 2
                                                   (0 # 1)%Q))))
    by (simpl; lia).
  destruct (select_then_next 0 (sampleState 3 1 true [2; 0; 1]%nat 2 (0 # 1)%Q)
              wellFormed_sample_shuffled Hz)
    as (st1 & st2 & H1 & H2 & H3 & _ & H4).
  destruct (H4 eq_refl) as (p & e & Hp & He & Hpl).
  exists st1, st2. split; [exact H1|]. split; [apply H2|]. split; [exact H3|].
  destruct Hpl as (_ & _ & _ & Hcur & _). rewrite Hcur.
  destruct p as [|[|[|p]]]; simpl in Hp; try discriminate.
  simpl in He. injection He as <-. reflexivity.
Defined.

End EngineFacts.

(** ** Properties of the library of saved playlists *)

Module LibraryFacts.
Import JS Storage Library StorageFacts.

(** *** When [savePlaylist] settles *)

Lemma savePlaylist_first_request_fails failing now name' ts db :
  failing 0%nat = true →
  savePlaylist failing now name' ts db = (Rejected RequestFailed, db).
Proof. intros Hfail. unfold savePlaylist, execute. by rewrite Hfail. Qed.

Lemma savePlaylist_later_request_fails failing now name' ts db :
  wf db → allBlobs ts → failing 0%nat = false → noisy failing 1 (length ts + 1) →
  savePlaylist failing now name' ts db = (Resolved (playlistKey db), db).
Proof.
  intros Hwf Hblobs Hfirst Hnoisy. unfold savePlaylist, execute. rewrite Hfirst.
  simpl. rewrite (wf_fresh_playlist _ Hwf).
  rewrite (trackRequests_allBlobs _ _ _ _ Hblobs).
  rewrite executeAll_noisy; [done|].
  by rewrite length_app, length_fmap, length_savedData.
Qed.


(** X5.  [savePlaylist] calls [resolve(playlistId)] in the [onsuccess]
    handler of its first request, before the track requests are carried
    out.  So, for tracks whose files are [Blob] instances: the promise is
    rejected exactly when the first request (the playlist row) fails; when
    that request succeeds and a later one fails, the promise is resolved
    with the id that was generated although the transaction has aborted:
    the database is as before, and [loadPlaylist] of the returned id
    rejects with 'Playlist not found'. *)
Theorem savePlaylist_resolves_before_commit (failing : Env) (now name' : string)
    (tracks' : list Track) (db : DB) :
  wf db → allBlobs tracks' →
  (failing 0%nat = true →
   savePlaylist failing now name' tracks' db = (Rejected RequestFailed, db)) ∧
  (failing 0%nat = false →
   (savePlaylist failing now name' tracks' db).1 = Resolved (playlistKey db)) ∧
  (failing 0%nat = false → noisy failing 1 (length tracks' + 1) →
   savePlaylist failing now name' tracks' db = (Resolved (playlistKey db), db) ∧
   ∀ retrieval objectURL,
     loadPlaylist retrieval objectURL (playlistKey db) db = Rejected RecordNotFound).
Proof.
  intros Hwf Hblobs. split; [apply savePlaylist_first_request_fails|]. split.
  - intros Hfirst.
    destruct (quiet_or_noisy failing 1 (length tracks' + 1)) as [Hq|Hn].
    + rewrite (savePlaylist_commits _ _ _ _ _ Hwf Hblobs); [done|].
      replace (length tracks' + 2)%nat with (S (length tracks' + 1)) by lia.
      by apply quiet_S.
    + by rewrite savePlaylist_later_request_fails.
  - intros Hfirst Hn. split; [by apply savePlaylist_later_request_fails|].
    intros retrieval objectURL. unfold loadPlaylist.
    by rewrite (wf_fresh_playlist _ Hwf).
Qed.

(** *** Referential integrity *)

Lemma size_savedRecords key pid i ts :
  Forall (λ r, size (data r) = blob_size (audioBlob (data r)))
         (savedRecords key (savedData pid i ts)).
Proof.
  revert key i. induction ts as [|t ts IH]; intros key i; simpl; constructor; [done|].
  apply IH.
Qed.

Lemma tracksOf_deletedDB_other pid k db :
  wf db → k ≠ pid → tracksOf k (deletedDB pid db) = tracksOf k db.
Proof.
  intros Hwf Hne. unfold tracksOf. simpl.
  rewrite (without_tracksOf_NoDup _ _ (wf_keys _ Hwf)).
  rewrite list_filter_filter. apply filter_ext_elem. intros t _. split; [tauto|].
  intros Ht. split; [done | congruence].
Qed.

Lemma intact_emptyDB : intact emptyDB.
Proof.
  split.
  - intros r Hr. simpl in Hr. by apply elem_of_nil in Hr.
  - intros k p Hlook. simpl in Hlook. by rewrite lookup_empty in Hlook.
Qed.

Lemma intact_savedDB now name' ts db :
  wf db → intact db → intact (savedDB now name' ts db).
Proof.
  intros Hwf [Hrefs Horders]. split.
  - intros r Hr. simpl in Hr. apply elem_of_app in Hr as [Hold|Hnew]; simpl.
    + destruct (Hrefs r Hold) as [Hsome Hsize]. split; [|done].
      apply lookup_insert_is_Some. destruct (decide (playlistKey db = playlistId (data r)));
        [by left | by right].
    + pose proof (playlistId_savedRecords (trackKey db) (playlistKey db) 0 ts) as Hpid.
      pose proof (size_savedRecords (trackKey db) (playlistKey db) 0 ts) as Hsize.
      rewrite Forall_forall in Hpid, Hsize. split; [|by apply Hsize].
      rewrite (Hpid r Hnew), lookup_insert_eq. by eexists.
  - intros k p Hlook. simpl in Hlook.
    destruct (decide (k = playlistKey db)) as [->|Hne].
    + rewrite lookup_insert_eq in Hlook. injection Hlook as <-.
      rewrite (tracksOf_savedDB_new _ _ _ _ Hwf).
      rewrite (list_fmap_compose data order), data_savedRecords, order_savedData. done.
    + rewrite lookup_insert_ne in Hlook by done.
      rewrite (tracksOf_savedDB_old _ _ _ _ _ Hne). by apply Horders.
Qed.

Lemma intact_deletedDB pid db : wf db → intact db → intact (deletedDB pid db).
Proof.
  intros Hwf [Hrefs Horders]. split.
  - intros r Hr. simpl in Hr.
    pose proof (without_tracksOf pid db) as Hother. rewrite Forall_forall in Hother.
    specialize (Hother r Hr).
    apply list_elem_of_filter in Hr as [_ Hr].
    destruct (Hrefs r Hr) as [Hsome Hsize]. split; [|done].
    simpl. by rewrite lookup_delete_ne.
  - intros k p Hlook. simpl in Hlook.
    apply lookup_delete_Some in Hlook as [Hne Hlook].
    rewrite tracksOf_deletedDB_other by done. by apply Horders.
Qed.

Lemma step_outcome (db db' : DB) :
  wf db → step db db' →
  db' = db ∨ (∃ now name' ts, db' = savedDB now name' ts db) ∨
  (∃ pid, db' = deletedDB pid db) ∨
  (∃ store, db' = mkDB (playlists db) (playlistKey db) (tracks db) (trackKey db) store).
Proof.
  intros Hwf Hstep.
  destruct Hstep as [failing now name' ts db Hblobs|failing pid db|failing clock prefs db].
  - destruct (quiet_or_noisy failing 0 (length ts + 2)) as [Hq|Hn].
    + rewrite (savePlaylist_commits _ _ _ _ _ Hwf Hblobs Hq). right. left. by eexists _, _, _.
    + left. by apply savePlaylist_aborts.
  - destruct (deletePlaylist_outcome failing pid db) as [[_ ->]|[_ ->]]; [|by left].
    right. right. left. by eexists.
  - destruct (savePreferences_outcome failing clock prefs db) as [[_ ->]|[_ ->]]; [|by left].
    right. right. right. by eexists.
Qed.

Lemma reachable_intact (db : DB) : reachable db → intact db.
Proof.
  induction 1 as [|db db' Hreach IH Hstep]; [apply intact_emptyDB|].
  destruct (reachable_consistent db Hreach) as [Hwf _].
  destruct (step_outcome db db' Hwf Hstep)
    as [->|[(now & name' & ts & ->)|[(pid & ->)|(store & ->)]]]; try done.
  - by apply intact_savedDB.
  - by apply intact_deletedDB.
Qed.

(** X6.  In every storage state that can be observed after any sequence
    of saves (of tracks whose files are [Blob] instances), deletions and
    preference writes, committed or aborted: every track record belongs
    to a playlist that is stored and carries the size of its blob, so an
    id that is not stored has no track records; the keys of the track
    records are distinct; and the track records of every stored playlist
    carry, in key order, the orders [0, 1, ..., trackCount - 1]. *)
Theorem library_integrity (db : DB) :
  reachable db →
  (∀ r, r ∈ tracks db →
        is_Some (playlists db !! playlistId (data r)) ∧
        size (data r) = blob_size (audioBlob (data r))) ∧
  (∀ k, playlists db !! k = None → tracksOf k db = []) ∧
  NoDup (id <$> tracks db) ∧
  (∀ k p, playlists db !! k = Some p →
          (λ r, order (data r)) <$> tracksOf k db = seq 0 (trackCount p)).
Proof.
  intros Hreach.
  destruct (reachable_intact db Hreach) as [Hrefs Horders].
  destruct (reachable_consistent db Hreach) as [Hwf _].
  split; [exact Hrefs|]. split; [|split; [apply (wf_keys _ Hwf) | exact Horders]].
  intros k Hnone. apply filter_none. apply Forall_forall. intros r Hr Hpid.
  destruct (Hrefs r Hr) as [[p Hp] _]. congruence.
Qed.

(** *** Loading from any state of the library *)

#[local] Instance byOrder_transitive : Transitive byOrder.
Proof. intros a b c. unfold byOrder. lia. Qed.

Lemma ordered_Sorted (recs : list TrackRecord) (i : nat) :
  (λ r, order (data r)) <$> recs = seq i (length recs) → Sorted byOrder recs.
Proof.
  revert i. induction recs as [|r recs IH]; intros i Hord; [constructor|].
  simpl in Hord. injection Hord as Hr Hrest.
  constructor; [by eapply IH|].
  destruct recs as [|r' recs]; constructor.
  simpl in Hrest. injection Hrest as Hr' _. unfold byOrder. lia.
Qed.

(** Whatever the order of retrieval, sorting restores records that carry
    consecutive orders to that order. *)
Lemma sortByOrder_ordered (retrieved recs : list TrackRecord) (i : nat) :
  retrieved ≡ₚ recs →
  (λ r, order (data r)) <$> recs = seq i (length recs) →
  sortByOrder retrieved = recs.
Proof.
  intros Hperm Hord.
  assert (Horders : NoDup ((λ r, order (data r)) <$> recs))
    by (rewrite Hord; apply NoDup_seq).
  apply (Sorted_unique_strong byOrder).
  - intros x1 x2 Hx1 Hx2 H12 H21.
    rewrite sortByOrder_Permutation, Hperm in Hx1.
    apply list_elem_of_lookup in Hx1 as [a Ha]. apply list_elem_of_lookup in Hx2 as [b Hb].
    assert (a = b) as ->; [|congruence].
    eapply NoDup_lookup; [exact Horders| |].
    + by rewrite list_lookup_fmap, Ha.
    + rewrite list_lookup_fmap, Hb. simpl. f_equal. unfold byOrder in *. lia.
  - apply sortByOrder_Sorted.
  - by eapply ordered_Sorted.
  - by rewrite sortByOrder_Permutation.
Qed.



(** The tracks that [loadPlaylist] builds, whatever the order of
    retrieval, when the records carry consecutive orders. *)
Lemma loadPlaylist_ordered (db : DB) (k : Z) (p : Playlist)
    (retrieval : list TrackRecord → list TrackRecord) (objectURL : nat → string) :
  playlists db !! k = Some p → (∀ l, retrieval l ≡ₚ l) →
  (λ r, order (data r)) <$> tracksOf k db = seq 0 (length (tracksOf k db)) →
  loadPlaylist retrieval objectURL k db
    = Resolved (p, imap (processedTrack objectURL) (tracksOf k db)).
Proof.
  intros Hlook Hretrieval Horders. unfold loadPlaylist. rewrite Hlook.
  by rewrite (sortByOrder_ordered _ (tracksOf k db) 0 (Hretrieval _) Horders).
Qed.



(** *** Playlist ids *)




(** *** Deleting *)



(** *** The list of saved playlists *)

Lemma insertByDate_Permutation dateOf p l : insertByDate dateOf p l ≡ₚ p :: l.
Proof.
  induction l as [|x l IH]; simpl; [done|].
  destruct (decide (newerFirst dateOf p x ≤ 0)); [done|].
  rewrite IH. apply Permutation_swap.
Qed.

Lemma getAllPlaylists_Permutation dateOf db :
  getAllPlaylists dateOf db ≡ₚ map_to_list (playlists db).
Proof.
  unfold getAllPlaylists, playlistRecords.
  rewrite <- (merge_sort_Permutation keyOrder (map_to_list (playlists db))) at 2.
  generalize (merge_sort keyOrder (map_to_list (playlists db))). intros l.
  induction l as [|p l IH]; simpl; [done|].
  by rewrite insertByDate_Permutation, IH.
Qed.

Lemma newerFirst_dates dateOf (a b : Z * Playlist) (za zb : Z) :
  dateOf (createdAt a.2) = Int za → dateOf (createdAt b.2) = Int zb →
  newerFirst dateOf a b = zb - za.
Proof. intros Ha Hb. unfold newerFirst. by rewrite Ha, Hb. Qed.

Lemma insertByDate_listed dateOf p l :
  (∀ x, x ∈ p :: l → ∃ z, dateOf (createdAt x.2) = Int z) →
  (∀ x, x ∈ l → p.1 < x.1) →
  StronglySorted (listedBefore dateOf) l →
  StronglySorted (listedBefore dateOf) (insertByDate dateOf p l).
Proof.
  intros Hdates Hkeys Hsorted.
  induction Hsorted as [|x l Hsorted IH Hall]; simpl.
  { repeat constructor. }
  destruct (Hdates p) as [zp Hzp]; [by left|].
  destruct (Hdates x) as [zx Hzx]; [right; by left|].
  destruct (decide (newerFirst dateOf p x ≤ 0)) as [Hle|Hgt].
  - constructor; [by constructor|].
    constructor.
    + unfold listedBefore. pose proof (Hkeys x ltac:(by left)). lia.
    + rewrite Forall_forall in Hall. apply Forall_forall. intros y Hy.
      destruct (Hdates y) as [zy Hzy]; [right; by right|].
      pose proof (Hall y Hy) as Hxy. pose proof (Hkeys y ltac:(by right)) as Hky.
      unfold listedBefore in *.
      rewrite (newerFirst_dates _ _ _ _ _ Hzx Hzy) in Hxy.
      rewrite (newerFirst_dates _ _ _ _ _ Hzp Hzx) in Hle.
      rewrite (newerFirst_dates _ _ _ _ _ Hzp Hzy). lia.
  - constructor.
    + apply IH.
      * intros y Hy. apply Hdates. apply elem_of_cons in Hy as [->|Hy];
          [by left | right; by right].
      * intros y Hy. apply Hkeys. by right.
    + apply Forall_forall. intros y Hy.
      rewrite insertByDate_Permutation in Hy. apply elem_of_cons in Hy as [->|Hy].
      * unfold listedBefore.
        rewrite (newerFirst_dates _ _ _ _ _ Hzp Hzx) in Hgt.
        rewrite (newerFirst_dates _ _ _ _ _ Hzx Hzp). lia.
      * rewrite Forall_forall in Hall. by apply Hall.
Qed.

Lemma playlistRecords_keys db :
  StronglySorted (λ a b : Z * Playlist, a.1 < b.1) (playlistRecords db).
Proof.
  unfold playlistRecords.
  assert (Hnd : NoDup (merge_sort keyOrder (map_to_list (playlists db))).*1).
  { rewrite merge_sort_Permutation. apply NoDup_fst_map_to_list. }
  assert (Hs : StronglySorted keyOrder (merge_sort keyOrder (map_to_list (playlists db)))).
  { apply StronglySorted_merge_sort.
    - intros a b c. unfold keyOrder. lia.
    - intros a b. unfold keyOrder. lia. }
  revert Hnd Hs. generalize (merge_sort keyOrder (map_to_list (playlists db))).
  intros l Hnd Hs. induction Hs as [|x l Hs IH Hall]; [constructor|].
  simpl in Hnd. apply NoDup_cons in Hnd as [Hx Hnd].
  constructor; [by apply IH|].
  rewrite Forall_forall in Hall. apply Forall_forall. intros y Hy.
  pose proof (Hall y Hy) as Hle. unfold keyOrder in Hle.
  assert (x.1 ≠ y.1); [|lia].
  intros Heq. apply Hx. rewrite Heq. apply list_elem_of_fmap. by exists y.
Qed.

(** X10.  [getAllPlaylists] lists every stored playlist, under its key,
    exactly once; and when every stored [createdAt] is a date, as those
    that [savePlaylist] writes are, the list runs from the most recent
    playlist to the oldest, playlists of the same date in the order of
    their keys. *)
Theorem getAllPlaylists_lists_most_recent_first (dateOf : string → number) (db : DB) :
  getAllPlaylists dateOf db ≡ₚ map_to_list (playlists db) ∧
  NoDup (getAllPlaylists dateOf db).*1 ∧
  (∀ k p, (k, p) ∈ getAllPlaylists dateOf db ↔ playlists db !! k = Some p) ∧
  (dated dateOf db →
   StronglySorted (listedBefore dateOf) (getAllPlaylists dateOf db)).
Proof.
  pose proof (getAllPlaylists_Permutation dateOf db) as Hperm.
  split; [done|]. split; [rewrite Hperm; apply NoDup_fst_map_to_list|]. split.
  { intros k p. rewrite Hperm. apply elem_of_map_to_list. }
  intros Hdated. unfold getAllPlaylists.
  assert (Hdates : ∀ x, x ∈ playlistRecords db → ∃ z, dateOf (createdAt x.2) = Int z).
  { intros [k p] Hx. unfold playlistRecords in Hx.
    rewrite merge_sort_Permutation in Hx. apply elem_of_map_to_list in Hx.
    by apply (Hdated k p). }
  pose proof (playlistRecords_keys db) as Hkeys.
  revert Hdates Hkeys. generalize (playlistRecords db). intros l Hdates Hkeys.
  induction Hkeys as [|x l Hkeys IH Hall]; simpl; [constructor|].
  assert (Hsame : foldr (insertByDate dateOf) [] l ≡ₚ l).
  { clear. induction l as [|p l IH]; simpl; [done|].
    by rewrite insertByDate_Permutation, IH. }
  apply insertByDate_listed.
  - intros y Hy. apply Hdates. by rewrite Hsame in Hy.
  - intros y Hy. rewrite Hsame in Hy. rewrite Forall_forall in Hall. by apply Hall.
  - apply IH. intros y Hy. apply Hdates. by right.
Qed.

(** *** Scenarios *)

Lemma savePlaylist_resolves_before_commit_witness :
  savePlaylist (failingAt 2) "2024-05-01T10:00:00.000Z" "Road Trip" roadTrip emptyDB
    = (Resolved 1, emptyDB) ∧
  loadPlaylist (λ l, l) (λ _, "blob:loaded") 1 emptyDB = Rejected RecordNotFound.
Proof.
  assert (Hfirst : failingAt 2 0%nat = false) by reflexivity.
  assert (Hnoisy : noisy (failingAt 2) 1 (length roadTrip + 1))
    by (exists 1%nat; split; [simpl; lia | reflexivity]).
  destruct (proj2 (proj2 (savePlaylist_resolves_before_commit
                            (failingAt 2) "2024-05-01T10:00:00.000Z" "Road Trip"
                            roadTrip emptyDB wf_emptyDB allBlobs_roadTrip))
              Hfirst Hnoisy) as [Hsave Hload].
  split; [exact Hsave | apply Hload].
Defined.

Lemma library_integrity_witness :
  (λ r, order (data r)) <$> tracksOf 1 savedRoadTrip = seq 0 3.
Proof.
  assert (Hlook : playlists savedRoadTrip !! 1
                  = Some (mkPlaylist "Road Trip" 3 "2024-05-01T10:00:00.000Z" 9))
    by reflexivity.
  exact (proj2 (proj2 (proj2 (library_integrity savedRoadTrip reachable_savedRoadTrip)))
           1 _ Hlook).
Defined.




Lemma getAllPlaylists_lists_most_recent_first_witness :
  let db := (savePlaylist neverFailing "2024-05-02T10:00:00.000Z (later)" "Second"
                          roadTrip savedRoadTrip).2 in
  StronglySorted (listedBefore sampleDate) (getAllPlaylists sampleDate db).
Proof.
  intros db.
  assert (Hdated : dated sampleDate db) by (intros k p _; by eexists).
  exact (proj2 (proj2 (proj2 (getAllPlaylists_lists_most_recent_first sampleDate db)))
           Hdated).
Defined.

End LibraryFacts.

(** ** Properties of the application *)

Module AppFacts.
Import JS Player App PlayerFacts EngineFacts.

(** *** Track names *)

Lemma span_app (p : Ascii.ascii → bool) (s : list Ascii.ascii) :
  (span p s).1 ++ (span p s).2 = s.
Proof.
  induction s as [|c s IH]; simpl; [done|].
  destruct (p c); [|done]. destruct (span p s) as [run tail]. simpl in *. by rewrite IH.
Qed.

Lemma span_Forall (p : Ascii.ascii → bool) (s : list Ascii.ascii) :
  Forall (λ c, p c = true) (span p s).1.
Proof.
  induction s as [|c s IH]; simpl; [constructor|].
  destruct (p c) eqn:Hc; [|constructor].
  destruct (span p s) as [run tail]. simpl in *. by constructor.
Qed.

Lemma span_exact (p : Ascii.ascii → bool) (run rest : list Ascii.ascii) :
  Forall (λ c, p c = true) run → (∀ c, head rest = Some c → p c = false) →
  span p (run ++ rest) = (run, rest).
Proof.
  intros Hrun Hrest. induction Hrun as [|c run Hc _ IH]; simpl.
  - destruct rest as [|c rest]; simpl; [done|]. by rewrite (Hrest c).
  - by rewrite Hc, IH.
Qed.

Lemma separator_not_digit (c : Ascii.ascii) : isSeparator c = true → isDigit c = false.
Proof.
  unfold isSeparator, isDigit. intros Hs. apply bool_decide_eq_true in Hs.
  apply bool_decide_eq_false. intros [Hlo Hhi].
  repeat (apply elem_of_cons in Hs as [Hs|Hs]; [lia|]).
  by apply elem_of_nil in Hs.
Qed.

Lemma removeTrackNumber_suffix (s : list Ascii.ascii) :
  ∃ digits separators,
    s = digits ++ separators ++ removeTrackNumber s ∧
    Forall (λ c, isDigit c = true) digits ∧
    Forall (λ c, isSeparator c = true) separators.
Proof.
  unfold removeTrackNumber.
  pose proof (span_app isDigit s) as Hd. pose proof (span_Forall isDigit s) as Hfd.
  destruct (span isDigit s) as [digits afterDigits]. simpl in *.
  pose proof (span_app isSeparator afterDigits) as Hs.
  pose proof (span_Forall isSeparator afterDigits) as Hfs.
  destruct (span isSeparator afterDigits) as [separators rest]. simpl in *.
  destruct digits as [|d digits]; [by exists [], []|].
  destruct separators as [|x separators]; [by exists [], []|].
  exists (d :: digits), (x :: separators). by rewrite Hs, Hd.
Qed.

Lemma removeTrackNumber_exact (digits separators title : list Ascii.ascii) :
  digits ≠ [] → Forall (λ c, isDigit c = true) digits →
  separators ≠ [] → Forall (λ c, isSeparator c = true) separators →
  (∀ c, head title = Some c → isSeparator c = false) →
  removeTrackNumber (digits ++ separators ++ title) = title.
Proof.
  intros Hd Hfd Hs Hfs Htitle. unfold removeTrackNumber.
  rewrite (span_exact isDigit digits (separators ++ title)); [|done|].
  - rewrite (span_exact isSeparator separators title) by done.
    destruct digits; [done|]. by destruct separators.
  - intros c Hc. destruct separators as [|x separators]; [done|].
    simpl in Hc. injection Hc as <-. apply separator_not_digit.
    by apply Forall_cons in Hfs as [? _].
Qed.

Lemma removeTrackNumber_unnumbered (title : list Ascii.ascii) :
  (∀ c, head title = Some c → isDigit c = false) →
  removeTrackNumber title = title.
Proof.
  intros Htitle. unfold removeTrackNumber.
  pose proof (span_exact isDigit [] title (List.Forall_nil _) Htitle) as Hspan.
  simpl in Hspan. rewrite Hspan. by destruct (span isSeparator title).
Qed.

Lemma hasExtension_spec (ext s : list Ascii.ascii) :
  hasExtension ext s = true →
  (S (length ext) ≤ length s)%nat ∧
  foldCase <$> drop (length s - S (length ext)) s = codeUnits "." ++ ext.
Proof.
  unfold hasExtension. intros H. apply andb_true_iff in H as [H1 H2].
  by apply bool_decide_eq_true in H1, H2.
Qed.

Lemma hasExtension_suffix (base extension ext : list Ascii.ascii) :
  foldCase <$> extension = ext →
  hasExtension ext (base ++ codeUnits "." ++ extension) = true.
Proof.
  intros Hfold. unfold hasExtension.
  assert (Hlen : length ext = length extension) by (by rewrite <- Hfold, length_fmap).
  apply andb_true_iff. split; apply bool_decide_eq_true.
  - rewrite !length_app, Hlen. simpl. lia.
  - rewrite (drop_app_length' base); [by rewrite fmap_app, Hfold|].
    rewrite !length_app, Hlen. simpl. lia.
Qed.

(** The position of the code unit that a dot has to occupy. *)
Lemma hasExtension_dot (ext s : list Ascii.ascii) :
  hasExtension ext s = true →
  foldCase <$> s !! (length s - S (length ext))%nat = Some (Ascii.ascii_of_nat 46).
Proof.
  intros H. apply hasExtension_spec in H as [Hlen Hfold].
  apply (f_equal (λ l, l !! 0%nat)) in Hfold.
  by rewrite list_lookup_fmap, lookup_drop, Nat.add_0_r in Hfold.
Qed.

Lemma hasExtension_letter (ext s : list Ascii.ascii) (i : nat) (c : Ascii.ascii) :
  hasExtension ext s = true → ext !! i = Some c →
  foldCase <$> s !! (length s - S (length ext) + S i)%nat = Some c.
Proof.
  intros H Hc. apply hasExtension_spec in H as [Hlen Hfold].
  apply (f_equal (λ l, l !! S i)) in Hfold.
  rewrite list_lookup_fmap, lookup_drop in Hfold. by rewrite Hfold.
Qed.

(** Two extensions of the list that end the same name have the same
    length: the dot of the shorter one would be a letter of the longer
    one. *)
Lemma hasExtension_length (e1 e2 s : list Ascii.ascii) :
  e1 ∈ extensions → e2 ∈ extensions →
  hasExtension e1 s = true → hasExtension e2 s = true → length e1 = length e2.
Proof.
  intros He1 He2 H1 H2.
  destruct (decide (length e1 = length e2)) as [|Hne]; [done|]. exfalso.
  pose proof (hasExtension_dot _ _ H1) as Hd1.
  pose proof (hasExtension_dot _ _ H2) as Hd2.
  pose proof (proj1 (hasExtension_spec _ _ H1)) as Hl1.
  pose proof (proj1 (hasExtension_spec _ _ H2)) as Hl2.
  unfold extensions in He1, He2.
  repeat (apply elem_of_cons in He1 as [->|He1]);
    try (by apply elem_of_nil in He1);
    repeat (apply elem_of_cons in He2 as [->|He2]);
    try (by apply elem_of_nil in He2);
    try done; simpl in *.
  all: first
    [ pose proof (hasExtension_letter _ s 0 _ H2 eq_refl) as Hc; simpl in Hc;
      replace (length s - 5 + 1)%nat with (length s - 4)%nat in Hc by lia;
      rewrite Hd1 in Hc; discriminate
    | pose proof (hasExtension_letter _ s 0 _ H1 eq_refl) as Hc; simpl in Hc;
      replace (length s - 5 + 1)%nat with (length s - 4)%nat in Hc by lia;
      rewrite Hd2 in Hc; discriminate ].
Qed.

Lemma removeExtension_prefix (s : list Ascii.ascii) :
  ∃ extension,
    s = removeExtension s ++ extension ∧
    (extension = [] ∨
     ∃ ext, ext ∈ extensions ∧ foldCase <$> extension = codeUnits "." ++ ext).
Proof.
  unfold removeExtension.
  destruct (find (λ ext, hasExtension ext s) extensions) as [ext|] eqn:Hfind.
  - apply find_some in Hfind as [Hin Hext].
    apply hasExtension_spec in Hext as [Hlen Hfold].
    exists (drop (length s - S (length ext)) s). split; [by rewrite take_drop|].
    right. exists ext. split; [by apply list_elem_of_In | done].
  - exists []. split; [by rewrite app_nil_r | by left].
Qed.

Lemma removeExtension_exact (base extension ext : list Ascii.ascii) :
  ext ∈ extensions → foldCase <$> extension = ext →
  removeExtension (base ++ codeUnits "." ++ extension) = base.
Proof.
  intros Hin Hfold. unfold removeExtension.
  pose proof (hasExtension_suffix base extension ext Hfold) as Hext.
  destruct (find _ extensions) as [e|] eqn:Hfind.
  - apply find_some in Hfind as [Hin' Hext'].
    rewrite (hasExtension_length e ext _ (proj2 (list_elem_of_In _ _) Hin') Hin Hext' Hext).
    apply take_app_length'.
    rewrite !length_app, <- Hfold, length_fmap. simpl. lia.
  - pose proof (find_none _ _ Hfind ext (proj1 (list_elem_of_In _ _) Hin)) as Hnone.
    change (hasExtension ext (base ++ codeUnits "." ++ extension) = false) in Hnone.
    congruence.
Qed.

Lemma removeExtension_none (s : list Ascii.ascii) :
  (∀ ext, ext ∈ extensions → hasExtension ext s = false) → removeExtension s = s.
Proof.
  intros Hnone. unfold removeExtension.
  destruct (find _ extensions) as [e|] eqn:Hfind; [|done].
  apply find_some in Hfind as [Hin Hext].
  rewrite Hnone in Hext by (by apply list_elem_of_In). done.
Qed.

Lemma codeUnits_fromCodeUnits (l : list Ascii.ascii) : codeUnits (fromCodeUnits l) = l.
Proof. apply String.list_ascii_of_string_of_list_ascii. Qed.

(** X11.  [cleanTrackName] never alters the title it keeps: the name it
    returns is a contiguous part of the file name, and what it strips is
    at most a run of digits and separators in front and, behind, a dot
    and one of the extensions mp3, wav, ogg, m4a, flac in any letter
    case. *)
Theorem cleanTrackName_keeps_a_part (filename : string) :
  ∃ digits separators extension,
    codeUnits filename
      = digits ++ separators ++ codeUnits (cleanTrackName filename) ++ extension ∧
    Forall (λ c, isDigit c = true) digits ∧
    Forall (λ c, isSeparator c = true) separators ∧
    (extension = [] ∨
     ∃ ext, ext ∈ extensions ∧ foldCase <$> extension = codeUnits "." ++ ext).
Proof.
  unfold cleanTrackName. rewrite codeUnits_fromCodeUnits.
  destruct (removeExtension_prefix (codeUnits filename)) as (extension & Hs & Hext).
  destruct (removeTrackNumber_suffix (removeExtension (codeUnits filename)))
    as (digits & separators & Hr & Hd & Hsep).
  exists digits, separators, extension. split; [|done].
  rewrite Hs at 1. rewrite Hr at 1. by rewrite <- !app_assoc.
Qed.

(** X12.  On a file name of the form number, separators, title, dot,
    extension (a non-empty run of digits; a non-empty run of dots,
    hyphens and white space; a title that does not begin with one of
    these separators; one of the five extensions in any letter case),
    [cleanTrackName] returns exactly the title.  Without the number the
    title is returned as well, when it does not begin with a digit. *)
Theorem cleanTrackName_of_numbered_file
    (digits separators title extension : list Ascii.ascii) :
  foldCase <$> extension ∈ extensions →
  (digits ≠ [] → Forall (λ c, isDigit c = true) digits →
   separators ≠ [] → Forall (λ c, isSeparator c = true) separators →
   (∀ c, head title = Some c → isSeparator c = false) →
   cleanTrackName (fromCodeUnits (digits ++ separators ++ title
                                    ++ codeUnits "." ++ extension))
     = fromCodeUnits title) ∧
  ((∀ c, head title = Some c → isDigit c = false) →
   cleanTrackName (fromCodeUnits (title ++ codeUnits "." ++ extension))
     = fromCodeUnits title).
Proof.
  intros Hext. split.
  - intros Hd Hfd Hs Hfs Htitle. unfold cleanTrackName. rewrite codeUnits_fromCodeUnits.
    replace (digits ++ separators ++ title ++ codeUnits "." ++ extension)
      with ((digits ++ separators ++ title) ++ codeUnits "." ++ extension)
      by (by rewrite <- !app_assoc).
    rewrite (removeExtension_exact _ extension _ Hext eq_refl).
    by rewrite removeTrackNumber_exact.
  - intros Htitle. unfold cleanTrackName. rewrite codeUnits_fromCodeUnits.
    rewrite (removeExtension_exact _ extension _ Hext eq_refl).
    by rewrite removeTrackNumber_unnumbered.
Qed.

Lemma cleanTrackName_of_numbered_file_witness :
  cleanTrackName "07 - Blue in Green.FLAC" = "Blue in Green" ∧
  cleanTrackName "So What.mp3" = "So What".
Proof.
  assert (Hext : foldCase <$> codeUnits "FLAC" ∈ extensions)
    by (by apply (bool_decide_unpack _)).
  assert (Hext' : foldCase <$> codeUnits "mp3" ∈ extensions)
    by (by apply (bool_decide_unpack _)).
  split.
  - assert (Hd : codeUnits "07" ≠ []) by done.
    assert (Hfd : Forall (λ c, isDigit c = true) (codeUnits "07"))
      by (by repeat constructor).
    assert (Hs : codeUnits " - " ≠ []) by done.
    assert (Hfs : Forall (λ c, isSeparator c = true) (codeUnits " - "))
      by (by repeat constructor).
    assert (Htitle : ∀ c, head (codeUnits "Blue in Green") = Some c → isSeparator c = false)
      by (intros c Hc; injection Hc as <-; reflexivity).
    exact (proj1 (cleanTrackName_of_numbered_file
                    (codeUnits "07") (codeUnits " - ") (codeUnits "Blue in Green")
                    (codeUnits "FLAC") Hext) Hd Hfd Hs Hfs Htitle).
  - assert (Htitle : ∀ c, head (codeUnits "So What") = Some c → isDigit c = false)
      by (intros c Hc; injection Hc as <-; reflexivity).
    exact (proj2 (cleanTrackName_of_numbered_file
                    [] [] (codeUnits "So What") (codeUnits "mp3") Hext') Htitle).
Defined.

(** *** Loading files *)

Lemma insertByName_Permutation cmp file l : insertByName cmp file l ≡ₚ file :: l.
Proof.
  induction l as [|x l IH]; simpl; [done|].
  destruct (decide (cmp (file_name file) (file_name x) ≤ 0)); [done|].
  rewrite IH. apply Permutation_swap.
Qed.

Lemma sortByName_Permutation cmp l : sortByName cmp l ≡ₚ l.
Proof.
  induction l as [|x l IH]; simpl; [done|].
  by rewrite insertByName_Permutation, IH.
Qed.

Lemma insertByName_Sorted (cmp : string → string → Z) file l :
  (∀ a b, cmp a b ≤ 0 ∨ cmp b a ≤ 0) →
  Sorted (λ a b, cmp (file_name a) (file_name b) ≤ 0) l →
  Sorted (λ a b, cmp (file_name a) (file_name b) ≤ 0) (insertByName cmp file l).
Proof.
  intros Htotal Hsorted. induction Hsorted as [|x l Hsorted IH Hhd]; simpl.
  { repeat constructor. }
  destruct (decide (cmp (file_name file) (file_name x) ≤ 0)) as [Hle|Hgt].
  - constructor; [by constructor|]. by constructor.
  - constructor; [exact IH|].
    destruct l as [|y l]; simpl.
    + constructor. destruct (Htotal (file_name file) (file_name x)); [done | lia].
    + destruct (decide (cmp (file_name file) (file_name y) ≤ 0)).
      * constructor. destruct (Htotal (file_name file) (file_name x)); [done | lia].
      * constructor. by apply HdRel_inv in Hhd.
Qed.

Lemma sortByName_Sorted (cmp : string → string → Z) l :
  (∀ a b, cmp a b ≤ 0 ∨ cmp b a ≤ 0) →
  Sorted (λ a b, cmp (file_name a) (file_name b) ≤ 0) (sortByName cmp l).
Proof.
  intros Htotal. induction l as [|x l IH]; simpl; [constructor|].
  by apply insertByName_Sorted.
Qed.

Lemma tracksOfFiles_files objectURL files :
  track_file <$> tracksOfFiles objectURL files = files.
Proof.
  unfold tracksOfFiles.
  rewrite (StorageFacts.fmap_imap_const _ _ (λ f, f)) by done. apply list_fmap_id.
Qed.

Lemma tracksOfFiles_names objectURL files :
  track_name <$> tracksOfFiles objectURL files
    = (λ f, cleanTrackName (file_name f)) <$> files.
Proof. unfold tracksOfFiles. by apply StorageFacts.fmap_imap_const. Qed.

Lemma tracksOfFiles_indices objectURL files :
  track_index <$> tracksOfFiles objectURL files = seq 0 (length files).
Proof.
  unfold tracksOfFiles. rewrite fmap_imap.
  rewrite (imap_ext _ (λ j _, j)) by done.
  rewrite (imap_seq_0 files (λ j, j)). apply list_fmap_id.
Qed.

Lemma tracksOfFiles_urls objectURL files :
  track_url <$> tracksOfFiles objectURL files = objectURL <$> seq 0 (length files).
Proof.
  unfold tracksOfFiles. rewrite fmap_imap.
  rewrite (imap_ext _ (λ j _, objectURL j)) by done.
  apply imap_seq_0.
Qed.

Lemma length_tracksOfFiles objectURL files :
  length (tracksOfFiles objectURL files) = length files.
Proof. unfold tracksOfFiles. apply length_imap. Qed.

(** The state after [loadTrack(0)] on a freshly installed track list. *)
Lemma loadTrack_first (st : State) :
  tracks st ≠ [] →
  (shuffleMode st = true →
   shuffledOrder st ≡ₚ seq 0 (length (tracks st)) ∧ shuffledIndex st = Int 0) →
  ∃ st', loadTrack (Num (Int 0)) st = Ok st' ∧ playing 0 st st' ∧
         shuffledIndex st' = shuffledIndex st ∧ wellFormed st' ∧ tuned st'.
Proof.
  intros Hne Horder. pose proof (nonempty_length _ Hne) as Hn.
  destruct (loadTrack_in_range 0 st) as (t & Ht & Hload); [lia|].
  exists (loaded 0 t st). split; [done|]. split; [|split; [done|split]].
  - unfold playing. simpl. repeat split; try done. by exists t.
  - intros _. split.
    + exists 0. simpl. split; [done | lia].
    + simpl. intros Hs. destruct (Horder Hs) as [Hperm Hidx].
      split; [done|]. exists 0. split; [done|]. simpl. lia.
  - intros _. exists 0%nat, t. done.
Qed.

(** X13.  [loadFiles] keeps the files whose type starts with [audio/] or
    whose name ends in [.mp3].  When there is none it alerts and leaves
    the state as it was.  Otherwise it returns without an error, with one
    track for each of those files and no other, indexed [0 .. n-1], each
    under the URL made for it and named by [cleanTrackName] of its file
    name, in the order of the collation when the collation is total;
    the first track is loaded, the playlist counts as unsaved, the mode
    and the volume are kept, and the state is well-formed with the audio
    element on the current track, also when shuffle was on. *)
Theorem loadFiles_loads_the_audio_files (localeCompare : string → string → Z)
    (objectURL : nat → string) (random : nat → draw) (files : list FileLike)
    (app : AppState) :
  let audioFiles := filter (λ file, isAudioFile file = true) files in
  (audioFiles = [] →
   loadFiles localeCompare objectURL random files app
     = Alerted "No audio files found in the selected folder." app) ∧
  (audioFiles ≠ [] →
   ∃ app',
     loadFiles localeCompare objectURL random files app = Done app' ∧
     track_file <$> tracks (player app') ≡ₚ audioFiles ∧
     ((∀ a b, localeCompare a b ≤ 0 ∨ localeCompare b a ≤ 0) →
      Sorted (λ a b, localeCompare (file_name a) (file_name b) ≤ 0)
             (track_file <$> tracks (player app'))) ∧
     track_index <$> tracks (player app') = seq 0 (length audioFiles) ∧
     track_url <$> tracks (player app') = objectURL <$> seq 0 (length audioFiles) ∧
     track_name <$> tracks (player app')
       = (λ t, cleanTrackName (file_name (track_file t))) <$> tracks (player app') ∧
     currentIndex (player app') = Num (Int 0) ∧
     shuffleMode (player app') = shuffleMode (player app) ∧
     currentPlaylistId app' = None ∧
     volume app' = volume app ∧ audio_volume app' = audio_volume app ∧
     savedPlaylists app' = savedPlaylists app ∧
     wellFormed (player app') ∧ tuned (player app')).
Proof.
  intros audioFiles. unfold loadFiles. fold audioFiles. split.
  - intros ->. done.
  - intros Hne.
    destruct (decide (length audioFiles = 0%nat)) as [Hzero|_].
    { destruct audioFiles; [done | discriminate]. }
    set (sorted := sortByName localeCompare audioFiles).
    set (st1 := set_tracks (tracksOfFiles objectURL sorted) (player app)).
    set (st2 := if shuffleMode st1 then generateShuffledOrder random st1 else st1).
    assert (Hlen : length sorted = length audioFiles)
      by (unfold sorted; by rewrite sortByName_Permutation).
    assert (Htr2 : tracks st2 = tracksOfFiles objectURL sorted)
      by (unfold st2; by destruct (shuffleMode st1)).
    assert (Hmode2 : shuffleMode st2 = shuffleMode (player app))
      by (unfold st2; by destruct (shuffleMode st1) eqn:E).
    assert (Hne2 : tracks st2 ≠ []).
    { rewrite Htr2. intros E. apply (f_equal length) in E.
      rewrite length_tracksOfFiles, Hlen in E. destruct audioFiles; [done | discriminate]. }
    assert (Horder : shuffleMode st2 = true →
              shuffledOrder st2 ≡ₚ seq 0 (length (tracks st2)) ∧ shuffledIndex st2 = Int 0).
    { intros Hs. unfold st2 in *. destruct (shuffleMode st1) eqn:E; [|simpl in Hs; congruence].
      split; [exact (generateShuffledOrder_Permutation random st1) | done]. }
    destruct (loadTrack_first st2 Hne2 Horder)
      as (st' & Hload & (Htr & Hmode & _ & Hcur & _) & _ & Hwf & Htuned).
    rewrite Hload. simpl. eexists. split; [done|]. simpl.
    rewrite Htr, Htr2.
    split; [rewrite tracksOfFiles_files; apply sortByName_Permutation|].
    split; [intros Htotal; rewrite tracksOfFiles_files; by apply sortByName_Sorted|].
    split; [by rewrite tracksOfFiles_indices, Hlen|].
    split; [by rewrite tracksOfFiles_urls, Hlen|].
    split.
    { rewrite tracksOfFiles_names.
      rewrite <- (tracksOfFiles_files objectURL sorted) at 1.
      by rewrite <- list_fmap_compose. }
    split; [done|]. split; [congruence|]. done.
Qed.

Lemma loadFiles_loads_the_audio_files_witness :
  ∃ app',
    loadFiles sampleCompare (λ _, "blob:file") sampleRandom sampleFolder
              (set_player (set_shuffleMode true initial_state) initial_app) = Done app' ∧
    track_name <$> tracks (player app') = ["First"; "Second"; "Third"] ∧
    wellFormed (player app').
Proof.
  assert (Hne : filter (λ file, isAudioFile file = true) sampleFolder ≠ []) by done.
  destruct (proj2 (loadFiles_loads_the_audio_files sampleCompare (λ _, "blob:file")
                     sampleRandom sampleFolder
                     (set_player (set_shuffleMode true initial_state) initial_app)) Hne)
    as (app' & Hload & _ & _ & _ & _ & _ & _ & _ & _ & _ & _ & _ & Hwf & _).
  exists app'. split; [exact Hload|]. split; [|exact Hwf].
  vm_compute in Hload. injection Hload as <-. reflexivity.
Defined.

(** *** Volume *)

Lemma positive_not_le (v : Q) : (0 < v)%Q → Qle_bool v (0 # 1) = false.
Proof.
  intros Hv. destruct (Qle_bool v (0 # 1)) eqn:E; [|done].
  apply Qle_bool_iff in E. exfalso. by apply (Qlt_not_le _ _ Hv).
Qed.

Lemma positive_orDefault (v : Q) : (0 < v)%Q → orDefault v = v.
Proof.
  intros Hv. unfold orDefault. destruct (Qeq_bool v (0 # 1)) eqn:E; [|done].
  apply Qeq_bool_iff in E. rewrite E in Hv. by apply Qlt_irrefl in Hv.
Qed.

Lemma inUnitRange_spec (v : Q) : inUnitRange v = true ↔ (0 <= v)%Q ∧ (v <= 1)%Q.
Proof.
  unfold inUnitRange. rewrite andb_true_iff, !Qle_bool_iff. done.
Qed.

(** X14.  Muting and unmuting restores the volume: when the audio
    element plays at a volume above 0, [toggleMute] silences it and keeps
    that volume in [state.volume], and a second [toggleMute] sets the
    audio element back to exactly that volume; neither call raises an
    error, and the player is not touched.  When the audio element is
    silent and [state.volume] is 0, [toggleMute] sets it to 0.75. *)
Theorem mute_then_unmute_restores_the_volume (app : AppState) :
  ((0 < audio_volume app)%Q → (audio_volume app <= 1)%Q →
   ∃ muted restored,
     toggleMute app = Done muted ∧
     audio_volume muted = (0 # 1)%Q ∧ volume muted = audio_volume app ∧
     toggleMute muted = Done restored ∧
     audio_volume restored = audio_volume app ∧ volume restored = audio_volume app ∧
     player restored = player app ∧
     currentPlaylistId restored = currentPlaylistId app) ∧
  ((audio_volume app <= 0)%Q → (volume app == 0)%Q →
   toggleMute app = Done (set_audio_volume (3 # 4)%Q app)).
Proof.
  split.
  - intros Hpos Hle.
    exists (set_audio_volume (0 # 1)%Q (set_volume (audio_volume app) app)).
    exists (set_audio_volume (audio_volume app)
              (set_audio_volume (0 # 1)%Q (set_volume (audio_volume app) app))).
    unfold toggleMute at 1. rewrite (positive_not_le _ Hpos). simpl.
    split; [done|]. split; [done|]. split; [done|]. split; [|done].
    unfold toggleMute. simpl. rewrite (positive_orDefault _ Hpos).
    assert (Hrange : inUnitRange (audio_volume app) = true).
    { apply inUnitRange_spec. split; [by apply Qlt_le_weak | done]. }
    by rewrite Hrange.
  - intros Hsilent Hzero. unfold toggleMute.
    apply Qle_bool_iff in Hsilent. rewrite Hsilent. simpl.
    unfold orDefault. apply Qeq_bool_iff in Hzero. by rewrite Hzero.
Qed.

Lemma mute_then_unmute_restores_the_volume_witness :
  ∃ muted restored,
    toggleMute (set_audio_volume (2 # 5)%Q initial_app) = Done muted ∧
    audio_volume muted = (0 # 1)%Q ∧
    toggleMute muted = Done restored ∧ audio_volume restored = (2 # 5)%Q.
Proof.
  assert (Hpos : (0 < audio_volume (set_audio_volume (2 # 5)%Q initial_app))%Q)
    by reflexivity.
  assert (Hle : (audio_volume (set_audio_volume (2 # 5)%Q initial_app) <= 1)%Q)
    by (simpl; discriminate).
  destruct (proj1 (mute_then_unmute_restores_the_volume
                     (set_audio_volume (2 # 5)%Q initial_app)) Hpos Hle)
    as (muted & restored & H1 & H2 & _ & H3 & H4 & _).
  exists muted, restored. split; [exact H1|]. split; [exact H2|].
  split; [exact H3 | exact H4].
Defined.

(** *** Preferences *)

Lemma stored_preference (failing : Storage.Env) (clock : nat → string)
    (prefs : gmap string Storage.prefValue) (db : Storage.DB) (key : string)
    (v : Storage.prefValue) :
  Storage.quiet failing 0 (length (map_to_list prefs)) → prefs !! key = Some v →
  key ≠ "__proto__" →
  ∃ loadedPrefs,
    Storage.loadPreferences (Storage.savePreferences failing clock prefs db).2
      = Storage.Resolved loadedPrefs ∧
    loadedPrefs !! key = Some v ∧
    Storage.playlists (Storage.savePreferences failing clock prefs db).2
      = Storage.playlists db.
Proof.
  intros Hquiet Hkey Hown.
  destruct (StorageFacts.savePreferences_outcome failing clock prefs db)
    as [[_ ->]|[Hnoisy _]];
    [|by destruct (StorageFacts.quiet_not_noisy _ _ _ Hquiet Hnoisy)].
  rewrite StorageFacts.loadPreferences_own. eexists. split; [done|]. simpl.
  split; [|done]. rewrite lookup_delete_ne, lookup_fmap by done.
  apply StorageFacts.putAll_entry; [apply NoDup_fst_map_to_list|].
  by apply elem_of_map_to_list.
Qed.

(** X15.  The preferences survive a restart.  When the preferences
    object of a state (volume within [0, 1], an integer current index) is
    written by [savePreferences] without a failing request, then
    [initializeStorage] on the resulting database, from any state,
    restores the volume, to [state.volume] and to the audio element, and
    the shuffle mode, and lists the stored playlists.  The stored
    [lastTrackIndex] is not read: the current index and the tracks of the
    state are left as they are. *)
Theorem preferences_survive_a_restart (dateOf : string → number)
    (failing : Storage.Env) (clock : nat → string) (app : AppState)
    (prefs : gmap string Storage.prefValue) (db : Storage.DB) (app0 : AppState) :
  preferencesOf app = Some prefs → inUnitRange (volume app) = true →
  Storage.quiet failing 0 (length (map_to_list prefs)) →
  let db' := (Storage.savePreferences failing clock prefs db).2 in
  ∃ app1,
    initializeStorage dateOf db' app0 = Some app1 ∧
    volume app1 = volume app ∧ audio_volume app1 = volume app ∧
    shuffleMode (player app1) = shuffleMode (player app) ∧
    currentIndex (player app1) = currentIndex (player app0) ∧
    tracks (player app1) = tracks (player app0) ∧
    shuffledOrder (player app1) = shuffledOrder (player app0) ∧
    savedPlaylists app1 = Library.getAllPlaylists dateOf db ∧
    init dateOf db' app0 = Some (Done app1).
Proof.
  intros Hprefs Hrange Hquiet db'.
  unfold preferencesOf in Hprefs.
  destruct (currentIndex (player app)) as [|[c|]] eqn:Hcur; try discriminate.
  injection Hprefs as <-.
  set (prefs := <["volume" := Storage.PNumber (volume app)]>
                  (<["shuffleMode" := Storage.PBool (shuffleMode (player app))]>
                     (<["lastTrackIndex" := Storage.PNumber (inject_Z c)]> ∅))) in *.
  assert (Hvol : prefs !! "volume" = Some (Storage.PNumber (volume app)))
    by (unfold prefs; by rewrite lookup_insert_eq).
  assert (Hmode : prefs !! "shuffleMode" = Some (Storage.PBool (shuffleMode (player app)))).
  { unfold prefs. rewrite lookup_insert_ne by done. by rewrite lookup_insert_eq. }
  destruct (stored_preference failing clock prefs db _ _ Hquiet Hvol ltac:(done))
    as (loaded & Hload & Hv & Hsame).
  destruct (stored_preference failing clock prefs db _ _ Hquiet Hmode ltac:(done))
    as (loaded' & Hload' & Hm & _).
  assert (loaded' = loaded) as -> by congruence.
  assert (Hlist : Library.getAllPlaylists dateOf db' = Library.getAllPlaylists dateOf db).
  { unfold Library.getAllPlaylists, Library.playlistRecords. fold db' in Hsame.
    by rewrite Hsame. }
  assert (Hinit : initializeStorage dateOf db' app0
            = Some (refreshSavedPlaylists dateOf db'
                      (set_player (set_shuffleMode (shuffleMode (player app))
                                     (player (set_audio_volume (volume app)
                                                (set_volume (volume app) app0))))
                         (set_audio_volume (volume app) (set_volume (volume app) app0))))).
  { unfold initializeStorage. fold db' in Hload. rewrite Hload, Hv, Hrange.
    unfold restoreShuffleMode. by rewrite Hm. }
  eexists. split; [exact Hinit|]. simpl.
  do 6 (split; [done|]). split; [by rewrite Hlist|].
  unfold init. rewrite Hinit. simpl. rewrite Hrange. done.
Qed.

Lemma preferences_survive_a_restart_witness :
  let app := set_audio_volume (2 # 5)%Q (set_volume (2 # 5)%Q
               (set_player (sampleState 3 2 true [2; 0; 1]%nat 0 (0 # 1)%Q) initial_app)) in
  ∃ prefs app1,
    preferencesOf app = Some prefs ∧
    initializeStorage Library.sampleDate
      (Storage.savePreferences Storage.neverFailing (λ _, "2024-05-01T10:00:00.000Z")
                               prefs Storage.emptyDB).2 initial_app = Some app1 ∧
    volume app1 = (2 # 5)%Q ∧ shuffleMode (player app1) = true ∧
    currentIndex (player app1) = Num (Int 0).
Proof.
  intros app.
  destruct (preferencesOf app) as [prefs|] eqn:Hprefs; [|discriminate].
  assert (Hrange : inUnitRange (volume app) = true) by reflexivity.
  destruct (preferences_survive_a_restart Library.sampleDate Storage.neverFailing
              (λ _, "2024-05-01T10:00:00.000Z") app prefs Storage.emptyDB initial_app
              Hprefs Hrange (StorageFacts.neverFailing_quiet _ _))
    as (app1 & Hinit & Hv & _ & Hm & Hc & _).
  exists prefs, app1. split; [reflexivity|]. split; [exact Hinit|].
  split; [exact Hv|]. split; [exact Hm | exact Hc].
Defined.

(** The call of [playNext] in shuffled mode on an empty order. *)
Lemma playNext_empty_order (st : State) (p : Z) :
  tracks st ≠ [] → shuffleMode st = true → shuffledOrder st = [] →
  shuffledIndex st = Int p →
  ∃ st', playNext st = Throw TypeError st' ∧ currentIndex st' = Undefined.
Proof.
  intros Hne Hmode Horder Hidx. unfold playNext.
  destruct (decide (length (tracks st) = 0%nat)) as [Hzero|_].
  { destruct (tracks st); [done | discriminate]. }
  rewrite Hmode. unfold orderLength. simpl. rewrite Horder, Hidx. simpl.
  unfold playTrack, loadTrack. simpl. by eexists.
Qed.

(** X16.  [initializeStorage] restores the shuffle mode but generates no
    order.  So when it applies a stored shuffle mode [true] (with no
    stored volume, or one within [0, 1]) to a state in which files were
    loaded in sequential mode (the handlers of the drop zone are
    installed before [init] waits for the storage), the shuffled order
    is still empty, and the next call of [playNext] computes the cursor
    [(p + 1) % 0], reads [undefined] from the order and throws a
    [TypeError] in [loadTrack], leaving [state.currentIndex] undefined. *)
Theorem late_preferences_break_shuffled_playback (dateOf : string → number)
    (db : Storage.DB) (prefs : gmap string Storage.prefValue) (app : AppState) (p : Z) :
  Storage.loadPreferences db = Storage.Resolved prefs →
  prefs !! "shuffleMode" = Some (Storage.PBool true) →
  (∀ x, prefs !! "volume" = Some x →
        ∃ v, x = Storage.PNumber v ∧ inUnitRange v = true) →
  tracks (player app) ≠ [] → shuffledOrder (player app) = [] →
  shuffledIndex (player app) = Int p →
  ∃ app' st',
    initializeStorage dateOf db app = Some app' ∧
    tracks (player app') = tracks (player app) ∧ shuffleMode (player app') = true ∧
    playNext (player app') = Throw TypeError st' ∧ currentIndex st' = Undefined.
Proof.
  intros Hload Hmode Hvol Hne Horder Hidx.
  assert (Hinit : ∃ app', initializeStorage dateOf db app = Some app' ∧
                          player app' = set_shuffleMode true (player app)).
  { unfold initializeStorage. rewrite Hload.
    destruct (prefs !! "volume") as [x|] eqn:Hx.
    - destruct (Hvol x eq_refl) as (v & -> & Hrange). rewrite Hrange.
      unfold restoreShuffleMode. rewrite Hmode. by eexists.
    - unfold restoreShuffleMode. rewrite Hmode. by eexists. }
  destruct Hinit as (app' & Hinit & Hplayer).
  destruct (playNext_empty_order (player app') p) as (st' & Hnext & Hcur);
    try (by rewrite Hplayer).
  exists app', st'. rewrite Hplayer at 1 2. done.
Qed.

Lemma late_preferences_break_shuffled_playback_witness :
  let db := (Storage.savePreferences Storage.neverFailing
               (λ _, "2024-05-01T10:00:00.000Z") Storage.samplePrefs Storage.emptyDB).2 in
  ∃ app1 app2 st',
    loadFiles sampleCompare (λ _, "blob:file") sampleRandom sampleFolder initial_app
      = Done app1 ∧
    initializeStorage Library.sampleDate db app1 = Some app2 ∧
    playNext (player app2) = Throw TypeError st'.
Proof.
  intros db.
  destruct (loadFiles sampleCompare (λ _, "blob:file") sampleRandom sampleFolder initial_app)
    as [app1| | |] eqn:Hfiles; try discriminate.
  assert (Hload : Storage.loadPreferences db = Storage.Resolved Storage.samplePrefs)
    by reflexivity.
  assert (Hmode : Storage.samplePrefs !! "shuffleMode" = Some (Storage.PBool true))
    by reflexivity.
  assert (Hvol : ∀ x, Storage.samplePrefs !! "volume" = Some x →
                      ∃ v, x = Storage.PNumber v ∧ inUnitRange v = true).
  { intros x Hx. exists (3 # 4)%Q. split; [|reflexivity].
    assert (Hstored : Storage.samplePrefs !! "volume" = Some (Storage.PNumber (3 # 4)%Q))
      by reflexivity.
    congruence. }
  vm_compute in Hfiles. injection Hfiles as <-.
  match goal with |- ∃ app1 app2 st', Done ?a = Done app1 ∧ _ =>
    assert (Hne : tracks (player a) ≠ []) by done;
    assert (Horder : shuffledOrder (player a) = []) by reflexivity;
    assert (Hidx : shuffledIndex (player a) = Int 0) by reflexivity;
    destruct (late_preferences_break_shuffled_playback Library.sampleDate db _ a 0
                Hload Hmode Hvol Hne Horder Hidx)
      as (app2 & st' & Hinit & _ & _ & Hnext & _);
    exists a, app2, st'
  end.
  split; [reflexivity|]. split; [exact Hinit | exact Hnext].
Defined.

(** C8.  The defect at a concrete input: [playNext] and [playPrevious]
    raise an error on a state that the application reaches.  The folder
    [sampleFolder] is dropped on the page in sequential mode, so its
    three audio files are loaded and no order is generated; then
    [initializeStorage] finds the stored preference [shuffleMode] true
    and sets [state.shuffleMode] without generating an order, as
    [toggleShuffle], [loadFiles] and [loadSavedPlaylist] do.  In that
    state, three tracks in shuffled mode with an empty order, [playNext]
    computes the cursor [(0 + 1) % 0], which is [NaN], reads [undefined]
    from the order and passes it to [loadTrack], whose guard compares
    numerically and lets it through: [track.url] throws a [TypeError]
    and [state.currentIndex] is left undefined.  [playPrevious] throws
    in the same way. *)
Theorem engine_throws_after_restored_shuffle :
  let db := (Storage.savePreferences Storage.neverFailing
               (λ _, "2024-05-01T10:00:00.000Z") Storage.samplePrefs Storage.emptyDB).2 in
  ∃ app1 app2 st1 st2,
    loadFiles sampleCompare (λ _, "blob:file") sampleRandom sampleFolder initial_app
      = Done app1 ∧
    shuffleMode (player app1) = false ∧
    initializeStorage Library.sampleDate db app1 = Some app2 ∧
    length (tracks (player app2)) = 3%nat ∧
    shuffleMode (player app2) = true ∧ shuffledOrder (player app2) = [] ∧
    currentIndex (player app2) = Num (Int 0) ∧
    playNext (player app2) = Throw TypeError st1 ∧
    shuffledIndex st1 = NaN ∧ currentIndex st1 = Undefined ∧
    playPrevious (player app2) = Throw TypeError st2 ∧
    shuffledIndex st2 = NaN ∧ currentIndex st2 = Undefined.
Proof.
  cbv zeta. eexists _, _, _, _.
  split; [vm_compute; reflexivity|]. split; [reflexivity|].
  split; [vm_compute; reflexivity|]. split; [reflexivity|].
  split; [reflexivity|]. split; [reflexivity|]. split; [reflexivity|].
  split; [vm_compute; reflexivity|]. split; [reflexivity|]. split; [reflexivity|].
  split; [vm_compute; reflexivity|]. split; reflexivity.
Qed.

(** *** Saving, loading and deleting playlists *)

(** The state [loadSavedPlaylist] and [loadFiles] leave in the player
    once the track list [ts] is installed and [loadTrack(0)] has run. *)
Lemma install_tracks (random : nat → draw) (ts : list Track) (st : State) :
  let st1 := set_currentIndex (Num (Int 0)) (set_tracks ts st) in
  let st2 := if shuffleMode st1 then generateShuffledOrder random st1 else st1 in
  ∃ st3, loadTrack (Num (Int 0)) st2 = Ok st3 ∧ tracks st3 = ts ∧
         currentIndex st3 = Num (Int 0) ∧ shuffleMode st3 = shuffleMode st ∧
         wellFormed st3 ∧ tuned st3.
Proof.
  intros st1 st2.
  assert (Htr2 : tracks st2 = ts) by (unfold st2; by destruct (shuffleMode st1)).
  assert (Hmode2 : shuffleMode st2 = shuffleMode st)
    by (unfold st2; by destruct (shuffleMode st1) eqn:E).
  assert (Hcur2 : currentIndex st2 = Num (Int 0))
    by (unfold st2; by destruct (shuffleMode st1)).
  destruct (decide (ts = [])) as [->|Hne].
  - exists st2. rewrite loadTrack_out_of_range by (rewrite Htr2; simpl; lia).
    split; [done|]. split; [done|]. split; [done|]. split; [done|].
    split; intros Hne; congruence.
  - assert (Hne2 : tracks st2 ≠ []) by congruence.
    assert (Horder : shuffleMode st2 = true →
              shuffledOrder st2 ≡ₚ seq 0 (length (tracks st2)) ∧ shuffledIndex st2 = Int 0).
    { intros Hs. unfold st2 in *. destruct (shuffleMode st1) eqn:E; [|simpl in Hs; congruence].
      split; [exact (generateShuffledOrder_Permutation random st1) | done]. }
    destruct (loadTrack_first st2 Hne2 Horder)
      as (st3 & Hload & (Htr & Hmode & _ & Hcur & _) & _ & Hwf & Htuned).
    exists st3. split; [done|]. split; [congruence|]. split; [done|].
    split; [congruence | done].
Qed.

(** X17.  [saveCurrentPlaylist] writes nothing and returns at once when
    no track is loaded, when the prompt is cancelled or when the name is
    empty.  Otherwise, for tracks whose files are [Blob] instances: when
    the first request fails it alerts and nothing is stored; when no
    request fails the playlist is stored under a fresh id and appears,
    with its name, track count and date, in the list of saved playlists;
    and when the first request succeeds but a later one fails, the
    handler ends as after a success, without an alert, although nothing
    was stored.  In no case does it touch the player, the volume or
    [state.currentPlaylistId]. *)
Theorem saveCurrentPlaylist_outcomes (dateOf : string → number)
    (failing : Storage.Env) (now : string) (answer : option string)
    (app : AppState) (db : Storage.DB) :
  Storage.wf db → Storage.allBlobs (tracks (player app)) →
  let result := saveCurrentPlaylist dateOf failing now answer app db in
  (tracks (player app) = [] ∨ answer = None ∨ answer = Some "" →
   result = (Done app, db)) ∧
  (∀ name', answer = Some name' → name' ≠ "" → tracks (player app) ≠ [] →
     (failing 0%nat = true →
      result = (Alerted "Failed to save playlist. Storage may be full." app, db)) ∧
     (Storage.quiet failing 0 (length (tracks (player app)) + 2) →
      ∃ app' p,
        result = (Done app', Storage.savedDB now name' (tracks (player app)) db) ∧
        player app' = player app ∧ volume app' = volume app ∧
        currentPlaylistId app' = currentPlaylistId app ∧
        (Storage.playlistKey db, p) ∈ savedPlaylists app' ∧
        Storage.playlist_name p = name' ∧ Storage.createdAt p = now ∧
        Storage.trackCount p = length (tracks (player app))) ∧
     (failing 0%nat = false →
      Storage.noisy failing 1 (length (tracks (player app)) + 1) →
      result = (Done (refreshSavedPlaylists dateOf db app), db))).
Proof.
  intros Hwf Hblobs result. unfold result, saveCurrentPlaylist. split.
  - intros [Hempty | [-> | ->] ].
    + by rewrite Hempty.
    + by destruct (decide (length (tracks (player app)) = 0%nat)).
    + by destruct (decide (length (tracks (player app)) = 0%nat)).
  - intros name' -> Hname Hne.
    destruct (decide (length (tracks (player app)) = 0%nat)) as [Hzero|_].
    { destruct (tracks (player app)); [done | discriminate]. }
    destruct (decide (name' = "")) as [|_]; [done|].
    split; [|split].
    + intros Hfirst. by rewrite LibraryFacts.savePlaylist_first_request_fails.
    + intros Hquiet. rewrite (StorageFacts.savePlaylist_commits _ _ _ _ _ Hwf Hblobs Hquiet).
      eexists _, _. split; [done|]. simpl. do 3 (split; [done|]).
      split; [rewrite LibraryFacts.getAllPlaylists_Permutation;
              apply elem_of_map_to_list; simpl; apply lookup_insert_eq | done].
    + intros Hfirst Hnoisy.
      by rewrite (LibraryFacts.savePlaylist_later_request_fails _ _ _ _ _ Hwf Hblobs
                    Hfirst Hnoisy).
Qed.

Lemma saveCurrentPlaylist_outcomes_witness :
  let app := set_player (sampleState 3 1 false [] 0 (0 # 1)%Q) initial_app in
  saveCurrentPlaylist Library.sampleDate (Storage.failingAt 0)
                      "2024-05-01T10:00:00.000Z" (Some "Road Trip") app Storage.emptyDB
    = (Alerted "Failed to save playlist. Storage may be full." app, Storage.emptyDB) ∧
  saveCurrentPlaylist Library.sampleDate (Storage.failingAt 2)
                      "2024-05-01T10:00:00.000Z" (Some "Road Trip") app Storage.emptyDB
    = (Done app, Storage.emptyDB).
Proof.
  intros app.
  assert (Hname : "Road Trip" ≠ "") by done.
  assert (Hne : tracks (player app) ≠ []) by done.
  split.
  - assert (Hfirst : Storage.failingAt 0 0%nat = true) by reflexivity.
    exact (proj1 (proj2 (saveCurrentPlaylist_outcomes Library.sampleDate
                           (Storage.failingAt 0) "2024-05-01T10:00:00.000Z"
                           (Some "Road Trip") app Storage.emptyDB StorageFacts.wf_emptyDB
                           StorageFacts.allBlobs_roadTrip)
                   "Road Trip" eq_refl Hname Hne) Hfirst).
  - assert (Hfirst : Storage.failingAt 2 0%nat = false) by reflexivity.
    assert (Hnoisy : Storage.noisy (Storage.failingAt 2) 1 (length (tracks (player app)) + 1))
      by (exists 1%nat; split; [simpl; lia | reflexivity]).
    exact (proj2 (proj2 (proj2 (saveCurrentPlaylist_outcomes Library.sampleDate
                           (Storage.failingAt 2) "2024-05-01T10:00:00.000Z"
                           (Some "Road Trip") app Storage.emptyDB StorageFacts.wf_emptyDB
                           StorageFacts.allBlobs_roadTrip)
                   "Road Trip" eq_refl Hname Hne)) Hfirst Hnoisy).
Defined.

Lemma loadSavedPlaylist_resolved retrieval objectURL random playlistId app db p loaded :
  Storage.loadPlaylist retrieval objectURL playlistId db = Storage.Resolved (p, loaded) →
  ∃ app',
    loadSavedPlaylist retrieval objectURL random playlistId app db = Done app' ∧
    tracks (player app') = loaded ∧
    currentIndex (player app') = Num (Int 0) ∧
    shuffleMode (player app') = shuffleMode (player app) ∧
    currentPlaylistId app' = Some playlistId ∧
    volume app' = volume app ∧ savedPlaylists app' = savedPlaylists app ∧
    wellFormed (player app') ∧ tuned (player app').
Proof.
  intros Hload. unfold loadSavedPlaylist. rewrite Hload.
  destruct (install_tracks random loaded (player app))
    as (st3 & Hfirst & Htr & Hcur & Hmode & Hwf & Htuned).
  cbv zeta in Hfirst. cbv zeta. rewrite Hfirst. by eexists.
Qed.



Lemma loadPlaylist_savedDB retrieval objectURL now name' ts db :
  Storage.wf db → (∀ l, retrieval l ≡ₚ l) →
  Storage.loadPlaylist retrieval objectURL (Storage.playlistKey db)
                       (Storage.savedDB now name' ts db)
    = Storage.Resolved
        (Storage.mkPlaylist name' (length ts) now
           (Storage.sumZ (Storage.size <$> Storage.savedData (Storage.playlistKey db) 0 ts)),
         imap (Storage.processedTrack objectURL)
              (Storage.savedRecords (Storage.trackKey db)
                 (Storage.savedData (Storage.playlistKey db) 0 ts))).
Proof.
  intros Hwf Hretrieval.
  rewrite <- (StorageFacts.tracksOf_savedDB_new now name' ts db Hwf).
  apply LibraryFacts.loadPlaylist_ordered; [apply lookup_insert_eq | done |].
  rewrite (StorageFacts.tracksOf_savedDB_new now name' ts db Hwf).
  rewrite (list_fmap_compose Storage.data Storage.order).
  rewrite StorageFacts.data_savedRecords, StorageFacts.order_savedData.
  by rewrite StorageFacts.length_savedRecords, StorageFacts.length_savedData.
Qed.

(** X19.  A playlist that was saved comes back as it was.  On a
    database whose keys lie below its key generators, when
    [saveCurrentPlaylist] stores the loaded tracks (files that are [Blob]
    instances, a non-empty name, no failing request) and
    [loadSavedPlaylist] then loads the playlist under the id that was
    generated, from whatever state of the player, the player holds the
    same number of tracks with the same names, file names and bytes, in
    the same order, indexed [0 .. n-1]; the first one is loaded and
    [state.currentPlaylistId] is the id. *)
Theorem saved_playlist_comes_back (dateOf : string → number) (failing : Storage.Env)
    (now name' : string)
    (retrieval : list Storage.TrackRecord → list Storage.TrackRecord)
    (objectURL : nat → string) (random : nat → draw)
    (app later : AppState) (db : Storage.DB) :
  Storage.wf db → Storage.allBlobs (tracks (player app)) →
  tracks (player app) ≠ [] → name' ≠ "" →
  Storage.quiet failing 0 (length (tracks (player app)) + 2) →
  (∀ l, retrieval l ≡ₚ l) →
  ∃ app1 db1 app2,
    saveCurrentPlaylist dateOf failing now (Some name') app db = (Done app1, db1) ∧
    loadSavedPlaylist retrieval objectURL random (Storage.playlistKey db) later db1
      = Done app2 ∧
    track_name <$> tracks (player app2) = track_name <$> tracks (player app) ∧
    (λ t, file_name (track_file t)) <$> tracks (player app2)
      = (λ t, file_name (track_file t)) <$> tracks (player app) ∧
    (λ t, blob_bytes (file_content (track_file t))) <$> tracks (player app2)
      = (λ t, blob_bytes (file_content (track_file t))) <$> tracks (player app) ∧
    track_index <$> tracks (player app2) = seq 0 (length (tracks (player app))) ∧
    currentIndex (player app2) = Num (Int 0) ∧
    currentPlaylistId app2 = Some (Storage.playlistKey db) ∧
    wellFormed (player app2) ∧ tuned (player app2).
Proof.
  intros Hwf Hblobs Hne Hname Hquiet Hretrieval.
  unfold saveCurrentPlaylist.
  destruct (decide (length (tracks (player app)) = 0%nat)) as [Hzero|_].
  { destruct (tracks (player app)); [done | discriminate]. }
  destruct (decide (name' = "")) as [|_]; [done|].
  rewrite (StorageFacts.savePlaylist_commits _ _ _ _ _ Hwf Hblobs Hquiet).
  pose proof (loadPlaylist_savedDB retrieval objectURL now name' (tracks (player app)) db
                Hwf Hretrieval) as Hload.
  destruct (loadSavedPlaylist_resolved _ _ random _ later _ _ _ Hload)
    as (app2 & Hdone & Htr & Hcur & _ & Hid & _ & _ & Hwf2 & Htuned).
  eexists _, _, app2. split; [done|]. split; [exact Hdone|]. rewrite Htr.
  split.
  { rewrite (StorageFacts.fmap_imap_const _ _ (λ r, Storage.name (Storage.data r))) by done.
    rewrite (list_fmap_compose Storage.data Storage.name), StorageFacts.data_savedRecords.
    by apply StorageFacts.fmap_savedData. }
  split.
  { rewrite (StorageFacts.fmap_imap_const _ _
               (λ r, Storage.originalName (Storage.data r))) by done.
    rewrite (list_fmap_compose Storage.data Storage.originalName),
      StorageFacts.data_savedRecords.
    by apply StorageFacts.fmap_savedData. }
  split.
  { rewrite (StorageFacts.fmap_imap_const _ _
               (λ r, blob_bytes (Storage.audioBlob (Storage.data r)))) by done.
    rewrite (list_fmap_compose Storage.data (λ d, blob_bytes (Storage.audioBlob d))),
      StorageFacts.data_savedRecords.
    by apply StorageFacts.fmap_savedData. }
  split.
  { rewrite <- (StorageFacts.length_savedData (Storage.playlistKey db) 0 (tracks (player app))).
    rewrite <- (StorageFacts.length_savedRecords (Storage.trackKey db)).
    exact (StorageFacts.index_processed objectURL 0 _). }
  done.
Qed.

Lemma saved_playlist_comes_back_witness :
  let app := set_player (sampleState 3 1 false [] 0 (0 # 1)%Q) initial_app in
  ∃ app1 db1 app2,
    saveCurrentPlaylist Library.sampleDate Storage.neverFailing
      "2024-05-01T10:00:00.000Z" (Some "Road Trip") app Storage.emptyDB = (Done app1, db1) ∧
    loadSavedPlaylist reverse (λ _, "blob:loaded") sampleRandom 1 initial_app db1
      = Done app2 ∧
    track_name <$> tracks (player app2) = track_name <$> sampleTracks 3 ∧
    currentPlaylistId app2 = Some 1.
Proof.
  intros app.
  assert (Hname : "Road Trip" ≠ "") by done.
  assert (Hne : tracks (player app) ≠ []) by done.
  destruct (saved_playlist_comes_back Library.sampleDate Storage.neverFailing
              "2024-05-01T10:00:00.000Z" "Road Trip" reverse (λ _, "blob:loaded")
              sampleRandom app initial_app Storage.emptyDB StorageFacts.wf_emptyDB
              StorageFacts.allBlobs_roadTrip Hne Hname
              (StorageFacts.neverFailing_quiet _ _) reverse_Permutation)
    as (app1 & db1 & app2 & Hsave & Hload & Hnames & _ & _ & _ & _ & Hid & _).
  exists app1, db1, app2. split; [exact Hsave|]. split; [exact Hload|].
  split; [exact Hnames | exact Hid].
Defined.

(** X20.  [deleteSavedPlaylist] does nothing when the user does not
    confirm.  When the user confirms and no request fails, the playlist
    and its track records are deleted and the playlist is no longer
    listed; [state.currentPlaylistId] is cleared exactly when it was the
    deleted id; the tracks that are loaded in the player stay loaded, also
    when they are those of the deleted playlist.  When a request fails
    it alerts and the state and the database are as before. *)
Theorem deleteSavedPlaylist_outcomes (dateOf : string → number)
    (failing : Storage.Env) (confirmed : bool) (playlistId : Z)
    (app : AppState) (db : Storage.DB) :
  let result := deleteSavedPlaylist dateOf failing confirmed playlistId app db in
  (confirmed = false → result = (Done app, db)) ∧
  (confirmed = true →
   Storage.quiet failing 0 (S (length (Storage.tracksOf playlistId db))) →
   ∃ app',
     result = (Done app', Storage.deletedDB playlistId db) ∧
     player app' = player app ∧ volume app' = volume app ∧
     (currentPlaylistId app = Some playlistId → currentPlaylistId app' = None) ∧
     (currentPlaylistId app ≠ Some playlistId →
      currentPlaylistId app' = currentPlaylistId app) ∧
     savedPlaylists app' = Library.getAllPlaylists dateOf (Storage.deletedDB playlistId db) ∧
     (∀ p, (playlistId, p) ∉ savedPlaylists app') ∧
     (∀ k p, k ≠ playlistId →
        ((k, p) ∈ savedPlaylists app' ↔ Storage.playlists db !! k = Some p))) ∧
  (confirmed = true →
   Storage.noisy failing 0 (S (length (Storage.tracksOf playlistId db))) →
   result = (Alerted "Failed to delete playlist." app, db)).
Proof.
  intros result. unfold result, deleteSavedPlaylist. split; [by intros ->|].
  split.
  - intros -> Hquiet.
    destruct (StorageFacts.deletePlaylist_outcome failing playlistId db)
      as [[_ ->]|[Hnoisy _]];
      [|by destruct (StorageFacts.quiet_not_noisy _ _ _ Hquiet Hnoisy)].
    eexists. split; [done|]. simpl.
    assert (Hlisted : ∀ k p,
              (k, p) ∈ Library.getAllPlaylists dateOf (Storage.deletedDB playlistId db)
              ↔ delete playlistId (Storage.playlists db) !! k = Some p).
    { intros k p. rewrite LibraryFacts.getAllPlaylists_Permutation.
      apply elem_of_map_to_list. }
    destruct (decide (currentPlaylistId app = Some playlistId)) as [Heq|Hne]; simpl.
    + split; [done|]. split; [done|]. split; [done|]. split; [done|]. split; [done|].
      split.
      * intros p Hp. apply Hlisted in Hp. by rewrite lookup_delete_eq in Hp.
      * intros k p Hk. rewrite Hlisted. by rewrite lookup_delete_ne.
    + split; [done|]. split; [done|]. split; [done|]. split; [done|]. split; [done|].
      split.
      * intros p Hp. apply Hlisted in Hp. by rewrite lookup_delete_eq in Hp.
      * intros k p Hk. rewrite Hlisted. by rewrite lookup_delete_ne.
  - intros -> Hnoisy.
    destruct (StorageFacts.deletePlaylist_outcome failing playlistId db)
      as [[Hquiet _]|[_ ->]]; [|done].
    by destruct (StorageFacts.quiet_not_noisy _ _ _ Hquiet Hnoisy).
Qed.

Lemma deleteSavedPlaylist_outcomes_witness :
  let app := set_currentPlaylistId (Some 1)
               (set_player (sampleState 3 1 false [] 0 (0 # 1)%Q) initial_app) in
  ∃ app',
    deleteSavedPlaylist Library.sampleDate Storage.neverFailing true 1 app
                        Storage.savedRoadTrip
      = (Done app', Storage.deletedDB 1 Storage.savedRoadTrip) ∧
    currentPlaylistId app' = None ∧ tracks (player app') = sampleTracks 3 ∧
    savedPlaylists app' = [].
Proof.
  intros app.
  destruct (proj1 (proj2 (deleteSavedPlaylist_outcomes Library.sampleDate
                            Storage.neverFailing true 1 app Storage.savedRoadTrip))
              eq_refl (StorageFacts.neverFailing_quiet _ _))
    as (app' & Hdone & Hplayer & _ & Hcleared & _ & Hlist & _).
  exists app'. split; [exact Hdone|]. split; [exact (Hcleared eq_refl)|].
  split; [by rewrite Hplayer | by rewrite Hlist].
Defined.

End AppFacts.
